(** * Org Policy [allow] command: the policy-rule reconciliation core

    A shallow embedding of
    [api/google-cloud-sdk/lib/surface/org_policies/allow.py]
    (class [Allow]: [Run], [UpdatePolicy], [_AddValues], [_AllowAllValues],
    [_GetMissingAllowedValuesFromRules]).

    The development has two layers.

    - A value-level model: a policy is a list of rule records and every
      workflow is a function from policies to policies (or to an error).
    - A store-level model ([Module Store]): policies, rules and value
      messages are mutable objects in a store, [copy.deepcopy] allocates,
      and the workflows assign to fields of objects they hold references to.
      This layer is what statements about "the caller's policy object" are
      about; it is related to the value-level model by a simulation
      theorem. *)

From stdpp Require Import base option list strings gmap.
From Stdlib Require Import Lia.

Open Scope string_scope.
Open Scope list_scope.
Open Scope nat_scope.

(** ** Data model *)

(** [GoogleCloudOrgpolicyV2alpha1PolicyPolicyRuleStringValues]: the two
    repeated string fields of a rule. *)
Record StringValues := mkValues {
  allowedValues : list string;
  deniedValues : list string
}.

(** [GoogleCloudOrgpolicyV2alpha1PolicyPolicyRule].  Every field is optional;
    [condition] is kept as the expression string, the only part the
    workflows compare. *)
Record PolicyRule := mkRule {
  condition : option string;
  allowAll : option bool;
  denyAll : option bool;
  values : option StringValues
}.

(** [GoogleCloudOrgpolicyV2alpha1Policy], restricted to its [rules]. *)
Record Policy := mkPolicy { rules : list PolicyRule }.

(** The parsed command line: [args.value], [args.remove], [args.condition]. *)
Record Args := mkArgs {
  arg_value : list string;
  arg_remove : bool;
  arg_condition : option string
}.

#[global] Instance StringValues_eq_dec : EqDecision StringValues.
Proof. solve_decision. Defined.
#[global] Instance PolicyRule_eq_dec : EqDecision PolicyRule.
Proof. solve_decision. Defined.
#[global] Instance Policy_eq_dec : EqDecision Policy.
Proof. solve_decision. Defined.

(** The two exceptions of [command_lib.org_policies.exceptions] that the
    command raises.  (The specification calls them [InvalidRequestError] and
    [UnsupportedOperationError].) *)
Inductive error := InvalidInputError | OperationNotSupportedError.

Inductive result (A : Type) :=
| Ok (a : A)
| Raise (e : error).
Arguments Ok {A} a.
Arguments Raise {A} e.

(** Python truth value of an optional boolean field: [None] and [False]
    are both false. *)
Definition truthy (b : option bool) : bool := default false b.

(** ** Helpers of [googlecloudsdk.api_lib.orgpolicy.utils] and
       [googlecloudsdk.command_lib.org_policies.utils] *)

(** Modelled from the spec: [org_policy_utils.GetMatchingRulesFromPolicy] is
    not part of the sources at hand.  A rule matches when its condition
    equals the requested one, the unconditional case included. *)
Definition GetMatchingRulesFromPolicy (policy : Policy) (cond : option string)
  : list PolicyRule :=
  filter (λ r, condition r = cond) (rules policy).

(** Modelled from the spec: [org_policy_utils.GetNonMatchingRulesFromPolicy]
    is not part of the sources at hand.  The other half of the partition. *)
Definition GetNonMatchingRulesFromPolicy (policy : Policy) (cond : option string)
  : list PolicyRule :=
  filter (λ r, condition r ≠ cond) (rules policy).

(** Modelled from the spec: the rule that [CreateRuleOnPolicy] creates, which
    is not part of the sources at hand.  Only its condition is set. *)
Definition new_rule (cond : option string) : PolicyRule :=
  mkRule cond None None None.

(** Modelled from the spec: [org_policy_utils.CreateRuleOnPolicy] is not part
    of the sources at hand.  A new rule with the condition is appended to the
    policy; the rule and the policy are returned.  At the value level the
    returned rule is the position of the new rule in the returned policy:
    assignments through it change that element. *)
Definition CreateRuleOnPolicy (policy : Policy) (cond : option string)
  : nat * Policy :=
  (length (rules policy), mkPolicy (rules policy ++ [new_rule cond])).

(** Modelled from the spec: which of the two value lists the remove workflow
    edits ([allowedValues] when values are removed on request, [deniedValues]
    when the add workflow retracts denials). *)
Inductive direction := Allowed | Denied.

(** Modelled from the spec: every requested value is taken out of the list;
    a value that is not in it changes nothing. *)
Definition remove_from (vs : list string) (l : list string) : list string :=
  filter (λ v, v ∉ vs) l.

(** Modelled from the spec: step 2 of the remove workflow on one rule.  A
    rule without a value message has nothing to lose. *)
Definition remove_values_from_rule (d : direction) (vs : list string)
    (r : PolicyRule) : PolicyRule :=
  match values r with
  | None => r
  | Some sv =>
      let sv' :=
        match d with
        | Allowed => mkValues (remove_from vs (allowedValues sv)) (deniedValues sv)
        | Denied => mkValues (allowedValues sv) (remove_from vs (deniedValues sv))
        end in
      mkRule (condition r) (allowAll r) (denyAll r) (Some sv')
  end.

(** Modelled from the spec: a rule that carries no information, that is no
    values in either list (or no value message at all) and both flags
    unset. *)
Definition dead_rule (r : PolicyRule) : bool :=
  bool_decide (allowAll r = None) && bool_decide (denyAll r = None) &&
  match values r with
  | None => true
  | Some sv =>
      bool_decide (allowedValues sv = []) && bool_decide (deniedValues sv = [])
  end.

(** Modelled from the spec: the remove workflow of
    [command_lib.org_policies.utils] ([RemoveAllowedValuesFromPolicy],
    [RemoveDeniedValuesFromPolicy]) is not part of the sources at hand.
    Every rule matching the condition loses the requested values from the
    targeted list and is deleted when it is dead afterwards; the other rules
    are kept as they are. *)
Fixpoint remove_workflow (d : direction) (vs : list string)
    (cond : option string) (rs : list PolicyRule) : list PolicyRule :=
  match rs with
  | [] => []
  | r :: rest =>
      if decide (condition r = cond) then
        let r' := remove_values_from_rule d vs r in
        if dead_rule r' then remove_workflow d vs cond rest
        else r' :: remove_workflow d vs cond rest
      else r :: remove_workflow d vs cond rest
  end.

Definition RemoveAllowedValuesFromPolicy (policy : Policy) (args : Args) : Policy :=
  mkPolicy (remove_workflow Allowed (arg_value args) (arg_condition args) (rules policy)).

Definition RemoveDeniedValuesFromPolicy (policy : Policy) (args : Args) : Policy :=
  mkPolicy (remove_workflow Denied (arg_value args) (arg_condition args) (rules policy)).

(** ** [allow.py] *)

(** [collections.OrderedDict.fromkeys(keys)], as the list of its keys: a key
    seen again keeps the position of its first insertion. *)
Definition OrderedDict_fromkeys (keys : list string) : list string :=
  foldl (λ (d : list string) (k : string), if decide (k ∈ d) then d else d ++ [k])
        [] keys.

(** The second half of [_GetMissingAllowedValuesFromRules]: the set of the
    existing values, and the requested values that are not in it, in request
    order and without repetition. *)
Definition missing_from (existing_value_lists : list (list string))
    (values_ : list string) : list string :=
  let existing_values : gset string := list_to_set (concat existing_value_lists) in
  let missing_values :=
    OrderedDict_fromkeys (filter (λ value, value ∉ existing_values) values_) in
  missing_values.

(** [Allow._GetMissingAllowedValuesFromRules] *)
Definition _GetMissingAllowedValuesFromRules (rules : list PolicyRule)
    (values_ : list string) : list string :=
  let existing_value_lists := omap (λ rule, allowedValues <$> values rule) rules in
  missing_from existing_value_lists values_.

(** The [for rule in rules] loop of [_AddValues] and its three exits. *)
Inductive scan_exit := ReturnAsIs | RaiseNotSupported | FallThrough.

Fixpoint scan_rules (rules : list PolicyRule) : scan_exit :=
  match rules with
  | [] => FallThrough
  | rule :: rest =>
      if truthy (allowAll rule) then ReturnAsIs
      else if truthy (denyAll rule) then RaiseNotSupported
      else scan_rules rest
  end.

(** The assignments to [rule_to_update] at the end of [_AddValues]:
    [values] is initialised when it is [None] and the missing values are
    appended to [allowedValues]. *)
Definition add_missing (missing_values : list string) (r : PolicyRule) : PolicyRule :=
  let sv := default (mkValues [] []) (values r) in
  mkRule (condition r) (allowAll r) (denyAll r)
         (Some (mkValues (allowedValues sv ++ missing_values) (deniedValues sv))).

(** [rule_to_update.allowAll = None; rule_to_update.denyAll = None] *)
Definition unset_flags (r : PolicyRule) : PolicyRule :=
  mkRule (condition r) None None (values r).

(** The position in the policy of [rules[0]], the first matching rule
    (meaningful when a rule matches). *)
Fixpoint first_matching (cond : option string) (rs : list PolicyRule) : nat :=
  match rs with
  | [] => 0
  | r :: rest =>
      if decide (condition r = cond) then 0 else S (first_matching cond rest)
  end.

(** Assignment to fields of the rule behind the reference [rule_to_update]:
    the policy changes at that position and nowhere else. *)
Definition assign (rule_to_update : nat) (f : PolicyRule → PolicyRule)
    (policy : Policy) : Policy :=
  mkPolicy (alter f rule_to_update (rules policy)).

(** [Allow._AddValues] *)
Definition _AddValues (policy : Policy) (args : Args) : result Policy :=
  let new_policy := RemoveDeniedValuesFromPolicy policy args in
  let rules_ := GetMatchingRulesFromPolicy new_policy (arg_condition args) in
  let missing_values := _GetMissingAllowedValuesFromRules rules_ (arg_value args) in
  match missing_values with
  | [] => Ok new_policy
  | _ :: _ =>
      match rules_ with
      | [] =>
          let '(rule_to_update, new_policy) :=
            CreateRuleOnPolicy new_policy (arg_condition args) in
          Ok (assign rule_to_update (add_missing missing_values) new_policy)
      | _ :: _ =>
          match scan_rules rules_ with
          | ReturnAsIs => Ok new_policy
          | RaiseNotSupported => Raise OperationNotSupportedError
          | FallThrough =>
              let rule_to_update :=
                first_matching (arg_condition args) (rules new_policy) in
              let new_policy := assign rule_to_update unset_flags new_policy in
              Ok (assign rule_to_update (add_missing missing_values) new_policy)
          end
      end
  end.

(** [rule_to_update.allowAll = True] *)
Definition set_allowAll (r : PolicyRule) : PolicyRule :=
  mkRule (condition r) (Some true) (denyAll r) (values r).

(** [Allow._AllowAllValues] *)
Definition _AllowAllValues (policy : Policy) (args : Args) : result Policy :=
  let new_policy :=
    mkPolicy (GetNonMatchingRulesFromPolicy policy (arg_condition args)) in
  let '(rule_to_update, new_policy) :=
    CreateRuleOnPolicy new_policy (arg_condition args) in
  Ok (assign rule_to_update set_allowAll new_policy).

(** [Allow.UpdatePolicy] *)
Definition UpdatePolicy (policy : Policy) (args : Args) : result Policy :=
  match arg_value args with
  | [] => _AllowAllValues policy args
  | _ :: _ =>
      if arg_remove args then Ok (RemoveAllowedValuesFromPolicy policy args)
      else _AddValues policy args
  end.

(** [Allow.Run], with the policy that the superclass fetches passed in: the
    validation of the arguments, then [UpdatePolicy] on the fetched policy.
    This is the specification's [Reconcile]. *)
Definition Run (policy : Policy) (args : Args) : result Policy :=
  if bool_decide (arg_value args = []) && arg_remove args
  then Raise InvalidInputError
  else UpdatePolicy policy args.

(** ** The store-level model *)

Module Store.

(** References are positions in the store; allocation extends the store at
    its end, so a reference is fresh for a store exactly when it is at least
    the store's length. *)
Abbreviation loc := nat.

(** The fields of a rule message; [r_values] refers to a value message. *)
Record rule_fields := mkFields {
  r_condition : option string;
  r_allowAll : option bool;
  r_denyAll : option bool;
  r_values : option loc
}.

(** The three classes of message objects.  A repeated field belongs to the
    message that holds it: assigning a list to a repeated field of a
    [protorpc] message stores a new list, so no list is shared between two
    messages. *)
Inductive object :=
| PolicyObj (rs : list loc)
| RuleObj (c : rule_fields)
| ValuesObj (sv : StringValues).

Abbreviation store := (list object).

(** What a computation can end with besides a value: one of the command's
    exceptions, or a reference that does not lead to an object of the
    expected class. *)
Inductive exn := Command (e : error) | BadReference.

Definition M (A : Type) : Type := store → (A + exn) * store.

#[global] Instance M_ret : MRet M := λ A a σ, (inl a, σ).
#[global] Instance M_bind : MBind M := λ A B f m σ,
  match m σ with
  | (inl a, σ') => f a σ'
  | (inr e, σ') => (inr e, σ')
  end.

Definition throw {A} (e : exn) : M A := λ σ, (inr e, σ).

Definition alloc (o : object) : M loc := λ σ, (inl (length σ), σ ++ [o]).

Definition get (l : loc) : M object := λ σ,
  match σ !! l with
  | Some o => (inl o, σ)
  | None => (inr BadReference, σ)
  end.

Definition put (l : loc) (o : object) : M unit := λ σ,
  match σ !! l with
  | Some _ => (inl (), <[l:=o]> σ)
  | None => (inr BadReference, σ)
  end.

Definition get_policy (l : loc) : M (list loc) :=
  o ← get l; match o with PolicyObj rs => mret rs | _ => throw BadReference end.

Definition get_rule (l : loc) : M rule_fields :=
  o ← get l; match o with RuleObj c => mret c | _ => throw BadReference end.

Definition get_values (l : loc) : M StringValues :=
  o ← get l; match o with ValuesObj sv => mret sv | _ => throw BadReference end.

(** *** [copy.deepcopy]

    The copy of an object is allocated once; the memo table sends an object
    already copied to its copy, so sharing inside the argument is kept. *)
Abbreviation memo := (gmap loc loc).

Definition copy_values (m : memo) (v : loc) : M (loc * memo) :=
  match m !! v with
  | Some v' => mret (v', m)
  | None =>
      sv ← get_values v;
      v' ← alloc (ValuesObj sv);
      mret (v', <[v:=v']> m)
  end.

Definition copy_rule (m : memo) (r : loc) : M (loc * memo) :=
  match m !! r with
  | Some r' => mret (r', m)
  | None =>
      c ← get_rule r;
      '(vo, m) ← match r_values c with
                 | None => mret (None, m)
                 | Some v => '(v', m) ← copy_values m v; mret (Some v', m)
                 end;
      r' ← alloc (RuleObj (mkFields (r_condition c) (r_allowAll c) (r_denyAll c) vo));
      mret (r', <[r:=r']> m)
  end.

Fixpoint copy_rules (m : memo) (rs : list loc) : M (list loc * memo) :=
  match rs with
  | [] => mret ([], m)
  | r :: rest =>
      '(r', m) ← copy_rule m r;
      '(rest', m) ← copy_rules m rest;
      mret (r' :: rest', m)
  end.

Definition deepcopy (policy : loc) : M loc :=
  rs ← get_policy policy;
  '(rs', _) ← copy_rules ∅ rs;
  alloc (PolicyObj rs').

(** *** Reading a rule as a value *)

Definition read_values (vo : option loc) : M (option StringValues) :=
  match vo with
  | None => mret None
  | Some v => sv ← get_values v; mret (Some sv)
  end.

Definition read_rule (rule : loc) : M PolicyRule :=
  c ← get_rule rule;
  sv ← read_values (r_values c);
  mret (mkRule (r_condition c) (r_allowAll c) (r_denyAll c) sv).

Fixpoint read_rules (rs : list loc) : M (list PolicyRule) :=
  match rs with
  | [] => mret []
  | r :: rest => x ← read_rule r; xs ← read_rules rest; mret (x :: xs)
  end.

(** *** The helpers *)

Fixpoint filter_rules (keep : option string → bool) (rs : list loc) : M (list loc) :=
  match rs with
  | [] => mret []
  | r :: rest =>
      c ← get_rule r;
      kept ← filter_rules keep rest;
      mret (if keep (r_condition c) then r :: kept else kept)
  end.

(** Modelled from the spec: [org_policy_utils.GetMatchingRulesFromPolicy] is
    not part of the sources at hand.  The rules returned are the rule objects
    of the policy themselves, not copies. *)
Definition GetMatchingRulesFromPolicy (policy : loc) (cond : option string)
  : M (list loc) :=
  rs ← get_policy policy;
  filter_rules (λ c, bool_decide (c = cond)) rs.

(** Modelled from the spec: [org_policy_utils.GetNonMatchingRulesFromPolicy]
    is not part of the sources at hand. *)
Definition GetNonMatchingRulesFromPolicy (policy : loc) (cond : option string)
  : M (list loc) :=
  rs ← get_policy policy;
  filter_rules (λ c, bool_decide (c ≠ cond)) rs.

(** Modelled from the spec: [org_policy_utils.CreateRuleOnPolicy] is not part
    of the sources at hand.  The new rule object is appended to the rules of
    the policy it is given. *)
Definition CreateRuleOnPolicy (policy : loc) (cond : option string)
  : M (loc * loc) :=
  rule ← alloc (RuleObj (mkFields cond None None None));
  rs ← get_policy policy;
  put policy (PolicyObj (rs ++ [rule]));;
  mret (rule, policy).

(** One rule of the remove workflow: a matching rule loses the values from
    the targeted list of its value message; the answer is whether the rule
    stays. *)
Definition remove_in_rule (d : direction) (vs : list string)
    (cond : option string) (rule : loc) : M bool :=
  c ← get_rule rule;
  if decide (r_condition c = cond) then
    r ← read_rule rule;
    let r' := remove_values_from_rule d vs r in
    match r_values c, values r' with
    | Some v, Some sv' => put v (ValuesObj sv')
    | _, _ => mret ()
    end;;
    mret (negb (dead_rule r'))
  else mret true.

Fixpoint remove_loop (d : direction) (vs : list string)
    (cond : option string) (rs : list loc) : M (list loc) :=
  match rs with
  | [] => mret []
  | rule :: rest =>
      keep ← remove_in_rule d vs cond rule;
      kept ← remove_loop d vs cond rest;
      mret (if keep : bool then rule :: kept else kept)
  end.

(** Modelled from the spec: the remove workflow of
    [command_lib.org_policies.utils] is not part of the sources at hand.  It
    works on a copy of the policy it is given and returns that copy. *)
Definition remove_workflow (d : direction) (vs : list string)
    (cond : option string) (policy : loc) : M loc :=
  new_policy ← deepcopy policy;
  rs ← get_policy new_policy;
  kept ← remove_loop d vs cond rs;
  put new_policy (PolicyObj kept);;
  mret new_policy.

Definition RemoveAllowedValuesFromPolicy (policy : loc) (args : Args) : M loc :=
  remove_workflow Allowed (arg_value args) (arg_condition args) policy.

Definition RemoveDeniedValuesFromPolicy (policy : loc) (args : Args) : M loc :=
  remove_workflow Denied (arg_value args) (arg_condition args) policy.

(** *** [allow.py] *)

(** [[rule.values.allowedValues for rule in rules if rule.values]] *)
Fixpoint existing_value_lists (rules : list loc) : M (list (list string)) :=
  match rules with
  | [] => mret []
  | rule :: rest =>
      c ← get_rule rule;
      match r_values c with
      | None => existing_value_lists rest
      | Some v =>
          sv ← get_values v;
          ls ← existing_value_lists rest;
          mret (allowedValues sv :: ls)
      end
  end.

(** [Allow._GetMissingAllowedValuesFromRules] *)
Definition _GetMissingAllowedValuesFromRules (rules : list loc)
    (values_ : list string) : M (list string) :=
  ls ← existing_value_lists rules;
  mret (missing_from ls values_).

(** The [for rule in rules] loop of [_AddValues]. *)
Fixpoint scan_rules (rules : list loc) : M scan_exit :=
  match rules with
  | [] => mret FallThrough
  | rule :: rest =>
      c ← get_rule rule;
      if truthy (r_allowAll c) then mret ReturnAsIs
      else if truthy (r_denyAll c) then mret RaiseNotSupported
      else scan_rules rest
  end.

(** [rule.allowAll = a], [rule.denyAll = a], [rule.values = v] *)
Definition set_allowAll (rule : loc) (a : option bool) : M unit :=
  c ← get_rule rule;
  put rule (RuleObj (mkFields (r_condition c) a (r_denyAll c) (r_values c))).

Definition set_denyAll (rule : loc) (a : option bool) : M unit :=
  c ← get_rule rule;
  put rule (RuleObj (mkFields (r_condition c) (r_allowAll c) a (r_values c))).

Definition set_values (rule : loc) (v : option loc) : M unit :=
  c ← get_rule rule;
  put rule (RuleObj (mkFields (r_condition c) (r_allowAll c) (r_denyAll c) v)).

(** Lines 182 to 185 of [allow.py]. *)
Definition append_missing (rule_to_update : loc) (missing_values : list string)
  : M unit :=
  c ← get_rule rule_to_update;
  v ← match r_values c with
      | None =>
          v ← alloc (ValuesObj (mkValues [] []));
          set_values rule_to_update (Some v);;
          mret v
      | Some v => mret v
      end;
  sv ← get_values v;
  put v (ValuesObj (mkValues (allowedValues sv ++ missing_values) (deniedValues sv))).

(** [Allow._AddValues] *)
Definition _AddValues (policy : loc) (args : Args) : M loc :=
  new_policy ← deepcopy policy;
  new_policy ← RemoveDeniedValuesFromPolicy new_policy args;
  rules ← GetMatchingRulesFromPolicy new_policy (arg_condition args);
  missing_values ← _GetMissingAllowedValuesFromRules rules (arg_value args);
  match missing_values with
  | [] => mret new_policy
  | _ :: _ =>
      match rules with
      | [] =>
          '(rule_to_update, new_policy) ←
            CreateRuleOnPolicy new_policy (arg_condition args);
          append_missing rule_to_update missing_values;;
          mret new_policy
      | rules_0 :: _ =>
          exit ← scan_rules rules;
          match exit with
          | ReturnAsIs => mret new_policy
          | RaiseNotSupported => throw (Command OperationNotSupportedError)
          | FallThrough =>
              let rule_to_update := rules_0 in
              set_allowAll rule_to_update None;;
              set_denyAll rule_to_update None;;
              append_missing rule_to_update missing_values;;
              mret new_policy
          end
      end
  end.

(** [Allow._AllowAllValues] *)
Definition _AllowAllValues (policy : loc) (args : Args) : M loc :=
  new_policy ← deepcopy policy;
  rs ← GetNonMatchingRulesFromPolicy new_policy (arg_condition args);
  put new_policy (PolicyObj rs);;
  '(rule_to_update, new_policy) ←
    CreateRuleOnPolicy new_policy (arg_condition args);
  set_allowAll rule_to_update (Some true);;
  mret new_policy.

(** [Allow.UpdatePolicy] *)
Definition UpdatePolicy (policy : loc) (args : Args) : M loc :=
  match arg_value args with
  | [] => _AllowAllValues policy args
  | _ :: _ =>
      if arg_remove args then RemoveAllowedValuesFromPolicy policy args
      else _AddValues policy args
  end.

(** [Allow.Run] on the object of the fetched policy. *)
Definition Run (policy : loc) (args : Args) : M loc :=
  if bool_decide (arg_value args = []) && arg_remove args
  then throw (Command InvalidInputError)
  else UpdatePolicy policy args.

(** *** Reading a policy object back as a value *)

Definition read_policy (policy : loc) : M Policy :=
  rs ← get_policy policy;
  xs ← read_rules rs;
  mret (mkPolicy xs).

(** The value of the policy object [policy] in the store [σ], when every
    reference below it leads to an object of the right class. *)
Definition value_of (σ : store) (policy : loc) : option Policy :=
  match read_policy policy σ with
  | (inl P, _) => Some P
  | _ => None
  end.

(** *** Notions for stating properties of store computations *)

(** [wp m σ Q]: running [m] from the store [σ] ends with an outcome and a
    store that satisfy [Q]. *)
Definition wp {A} (m : M A) (σ : store) (Q : A + exn → store → Prop) : Prop :=
  Q (m σ).1 (m σ).2.

(** The references held in the fields of an object. *)
Definition refs (o : object) : list loc :=
  match o with
  | PolicyObj rs => rs
  | RuleObj c => option_list (r_values c)
  | ValuesObj _ => []
  end.

(** [reachable σ l l']: following references from [l] leads to [l']. *)
Inductive reachable (σ : store) : loc → loc → Prop :=
| reachable_here l : reachable σ l l
| reachable_step l o l' l'' :
    σ !! l = Some o → l' ∈ refs o → reachable σ l' l'' → reachable σ l l''.

(** The objects at or after position [n] refer only to objects at or after
    [n]. *)
Definition closed_from (n : nat) (σ : store) : Prop :=
  ∀ (l : loc) (o : object),
    n ≤ l → σ !! l = Some o → Forall (λ l' : loc, n ≤ l') (refs o).

(** [σ] is [σ0] with objects added at its end, and the added objects do not
    refer back into [σ0]. *)
Definition extends (σ0 σ : store) : Prop :=
  σ0 `prefix_of` σ ∧ closed_from (length σ0) σ.

(** [m] keeps the objects of [σ0] as they are, gives a value satisfying [Q]
    and does not raise [InvalidInputError]. *)
Definition keeps {A} (σ0 : store) (m : M A) (Q : A → Prop) : Prop :=
  ∀ σ, extends σ0 σ →
    wp m σ (λ r σ', extends σ0 σ' ∧
                    match r with
                    | inl a => Q a
                    | inr e => e ≠ Command InvalidInputError
                    end).

Definition memo_from (n : nat) (m : memo) : Prop :=
  map_Forall (λ (_ l' : loc), n ≤ l') m.

(** *** Policies as objects *)

Definition rep_values (σ : store) (vo : option loc) (sv : option StringValues)
  : Prop :=
  match vo, sv with
  | None, None => True
  | Some v, Some x => σ !! v = Some (ValuesObj x)
  | _, _ => False
  end.

(** The rule object [r] of [σ] has the value [R]. *)
Definition rep_rule (σ : store) (r : loc) (R : PolicyRule) : Prop :=
  ∃ c, σ !! r = Some (RuleObj c) ∧
    r_condition c = condition R ∧ r_allowAll c = allowAll R ∧
    r_denyAll c = denyAll R ∧ rep_values σ (r_values c) (values R).

(** The objects that make up a rule: the rule object and its value
    message. *)
Definition parts (σ : store) (r : loc) : list loc :=
  r :: match σ !! r with
       | Some (RuleObj c) => option_list (r_values c)
       | _ => []
       end.

(** The objects that make up a policy. *)
Definition objects_of (σ : store) (policy : loc) : list loc :=
  policy :: match σ !! policy with
            | Some (PolicyObj rs) => concat (parts σ <$> rs)
            | _ => []
            end.

(** The policy object [policy] of [σ] has the value [P], and no object is
    used twice in it: the message is a tree, as a decoded message is. *)
Definition represents (σ : store) (policy : loc) (P : Policy) : Prop :=
  value_of σ policy = Some P ∧ NoDup (objects_of σ policy).

(** The same, by the objects. *)
Definition rep (σ : store) (policy : loc) (P : Policy) : Prop :=
  ∃ rs, σ !! policy = Some (PolicyObj rs) ∧
    Forall2 (rep_rule σ) rs (rules P) ∧
    NoDup (policy :: concat (parts σ <$> rs)).

(** [σ'] has the objects of [σ] outside [X] as they are. *)
Definition changes_only (X : list loc) (σ σ' : store) : Prop :=
  length σ ≤ length σ' ∧
  ∀ l : loc, l < length σ → l ∉ X → σ' !! l = σ !! l.

(** The rule objects whose values pass [keep]. *)
Fixpoint select (keep : option string → bool) (rs : list loc)
    (Rs : list PolicyRule) : list loc :=
  match rs, Rs with
  | r :: rs, R :: Rs =>
      if keep (condition R) then r :: select keep rs Rs else select keep rs Rs
  | _, _ => []
  end.

(** The outcome of a store computation that goes with a value-level
    result: the policy object returned has the value, or the same exception
    is raised. *)
Definition agrees (expected : result Policy) (r : loc + exn) (σ' : store) : Prop :=
  match expected with
  | Ok P' => ∃ q, r = inl q ∧ rep σ' q P'
  | Raise e => r = inr (Command e)
  end.

End Store.

(** ** Notions used to state the properties *)

(** The specification's reading of the missing values: keep the first
    occurrence of every value and drop the later ones. *)
Fixpoint dedup_first (l : list string) : list string :=
  match l with
  | [] => []
  | x :: rest => x :: filter (λ y, y ≠ x) (dedup_first rest)
  end.

(** The allowed values a rule carries, none when it has no value message. *)
Definition allowed_of (r : PolicyRule) : list string :=
  from_option allowedValues [] (values r).

Definition denied_of (r : PolicyRule) : list string :=
  from_option deniedValues [] (values r).

(** The specification's step 3 of the add workflow: the requested values
    minus the allowed values of the matching rules, in request order,
    duplicates removed. *)
Definition missing_spec (matching : list PolicyRule) (requested : list string)
  : list string :=
  dedup_first (filter (λ v, v ∉ concat (allowed_of <$> matching)) requested).


(** The rule that the allow-all workflow leaves for a condition. *)
Definition allow_all_rule (cond : option string) : PolicyRule :=
  mkRule cond (Some true) None None.

(** Running one workflow after another: the second runs on the policy the
    first returned, and an exception of the first ends the run. *)
Definition and_then (r : result Policy) (f : Policy → result Policy)
  : result Policy :=
  match r with
  | Ok p => f p
  | Raise e => Raise e
  end.

(** The first rule of [rs] with the condition [cond] is [target], at the
    end of [pre]. *)
Definition first_match_at (cond : option string) (rs pre : list PolicyRule)
    (target : PolicyRule) (suf : list PolicyRule) : Prop :=
  rs = pre ++ target :: suf ∧
  Forall (λ r, condition r ≠ cond) pre ∧
  condition target = cond.

(** The rule that the add workflow leaves in the place of its target. *)
Definition with_missing (target : PolicyRule) (missing : list string) : PolicyRule :=
  mkRule (condition target) None None
         (Some (mkValues (allowed_of target ++ missing) (denied_of target))).

(** A rule that the remove workflow would keep as it is. *)
Definition settled (d : direction) (vs : list string) (cond : option string)
    (r : PolicyRule) : Prop :=
  condition r = cond →
  remove_values_from_rule d vs r = r ∧ dead_rule r = false.

(** The scan of the add workflow runs and gets as far as the rule [r]: some
    value is missing, and no rule before [r] among the matching ones ends
    the loop. *)
Definition scan_reaches (policy : Policy) (args : Args) (r : PolicyRule) : Prop :=
  let new_policy := RemoveDeniedValuesFromPolicy policy args in
  let matching := GetMatchingRulesFromPolicy new_policy (arg_condition args) in
  _GetMissingAllowedValuesFromRules matching (arg_value args) ≠ [] ∧
  ∃ pre suf, matching = pre ++ r :: suf ∧ scan_rules pre = FallThrough.

(** ** Concrete policies, requests and stores *)

Definition cond_C : option string := Some "C".

(** Add the value [A] under the condition [C]. *)
Definition add_A : Args := mkArgs ["A"] false cond_C.

(** Allow everything under the condition [C]. *)
Definition allow_all_C : Args := mkArgs [] false cond_C.

(** Remove with no values. *)
Definition remove_nothing : Args := mkArgs [] true cond_C.

Definition deny_all_rule : PolicyRule := mkRule cond_C None (Some true) None.

Definition both_flags_rule : PolicyRule :=
  mkRule cond_C (Some true) (Some true) None.

Definition values_rule : PolicyRule :=
  mkRule cond_C (Some false) None (Some (mkValues ["B"] ["A"; "Z"])).

Definition deny_policy : Policy := mkPolicy [deny_all_rule].

Definition both_flags_policy : Policy := mkPolicy [both_flags_rule].

Definition deny_then_allow : Policy :=
  mkPolicy [deny_all_rule; allow_all_rule cond_C].

Definition allow_then_deny : Policy :=
  mkPolicy [allow_all_rule cond_C; deny_all_rule].

Definition covered_deny : Policy :=
  mkPolicy [mkRule cond_C None None (Some (mkValues ["A"] [])); deny_all_rule].

Definition values_policy : Policy :=
  mkPolicy [mkRule None None None None; values_rule].

(** [deny_policy] as objects: the policy is the object 1. *)
Definition deny_store : Store.store :=
  [Store.RuleObj (Store.mkFields cond_C None (Some true) None);
   Store.PolicyObj [0]].

(** [values_policy] as objects: the policy is the object 3. *)
Definition values_store : Store.store :=
  [Store.RuleObj (Store.mkFields None None None None);
   Store.ValuesObj (mkValues ["B"] ["A"; "Z"]);
   Store.RuleObj (Store.mkFields cond_C (Some false) None (Some 1));
   Store.PolicyObj [0; 2]].

(** ** Further notions, for the properties of the workflows as a whole *)

(** [Allow._GetMissingAllowedValuesFromRules] with its guard for a [rules]
    argument that is [None] ([if rules is None: rules = []]): [None] is read
    as the empty list of rules. *)
Definition _GetMissingAllowedValuesFromRules_or_None
    (rules : option (list PolicyRule)) (values_ : list string) : list string :=
  let rules := match rules with None => [] | Some rules => rules end in
  _GetMissingAllowedValuesFromRules rules values_.

(** The data model has [allowAll] and [denyAll] exclusive: no rule of the
    policy has both set to true. *)
Definition flags_exclusive (policy : Policy) : Prop :=
  Forall (λ r, ¬ (allowAll r = Some true ∧ denyAll r = Some true))
         (rules policy).

(** Some rule of the policy for the condition lists the value as allowed. *)
Definition allowed_under (cond : option string) (policy : Policy) (v : string)
  : Prop :=
  ∃ r, r ∈ rules policy ∧ condition r = cond ∧ v ∈ allowed_of r.

(** Some rule of the policy for the condition allows every value. *)
Definition allow_all_under (cond : option string) (policy : Policy) : Prop :=
  ∃ r, r ∈ rules policy ∧ condition r = cond ∧ allowAll r = Some true.

(** Some rule of the policy for the condition denies every value. *)
Definition deny_all_under (cond : option string) (policy : Policy) : Prop :=
  ∃ r, r ∈ rules policy ∧ condition r = cond ∧ denyAll r = Some true.

(** The rules of a policy for a condition, and the others. *)
Definition rules_for (cond : option string) (policy : Policy) : list PolicyRule :=
  filter (λ r, condition r = cond) (rules policy).

Definition rules_not_for (cond : option string) (policy : Policy)
  : list PolicyRule :=
  filter (λ r, condition r ≠ cond) (rules policy).

(** No rule lists a value twice as allowed. *)
Definition allowed_unique (policy : Policy) : Prop :=
  ∀ r, r ∈ rules policy → NoDup (allowed_of r).

(** No rule lists a value both as allowed and as denied. *)
Definition allowed_apart_from_denied (policy : Policy) : Prop :=
  ∀ r v, r ∈ rules policy → v ∈ allowed_of r → v ∉ denied_of r.

(** Two rules for the condition [C] that differ in everything but the
    values they allow, and a rule for another condition. *)
Definition allows_AB : list PolicyRule :=
  [mkRule cond_C None None (Some (mkValues ["A"; "B"] []))].

Definition allows_B_then_A : list PolicyRule :=
  [mkRule cond_C (Some false) None (Some (mkValues ["B"] ["Z"]));
   mkRule cond_C None None None;
   mkRule cond_C None None (Some (mkValues ["A"; "B"] []))].

Definition cond_D : option string := Some "D".

(** Allow everything under the condition [D]. *)
Definition allow_all_D : Args := mkArgs [] false cond_D.

(** Add [A] again, with [remove] unset, after a longer request. *)
Definition add_Z_A_B : Args := mkArgs ["Z"; "A"; "B"] false cond_C.

(** A rule for [C] that denies [A] and nothing else, before a rule that
    allows all for [C]. *)
Definition denied_then_allow : Policy :=
  mkPolicy [mkRule cond_C None None (Some (mkValues [] ["A"]));
            allow_all_rule cond_C].



(** * Properties of the value-level model *)

(** ** Ordered, duplicate-free difference *)

Section list_facts.
Implicit Types (l k : list string) (x y : string).

Lemma filter_filter_comm (P Q : string → Prop)
    `{!∀ x, Decision (P x)} `{!∀ x, Decision (Q x)} l :
  filter P (filter Q l) = filter Q (filter P l).
Proof.
  induction l as [|x l IH]; [done|].
  rewrite !filter_cons.
  destruct (decide (Q x)), (decide (P x));
    rewrite ?filter_cons, ?decide_True, ?decide_False by done; by rewrite IH.
Qed.

Lemma filter_filter_absorb (P Q : string → Prop)
    `{!∀ x, Decision (P x)} `{!∀ x, Decision (Q x)} l :
  (∀ x, P x → Q x) → filter P (filter Q l) = filter P l.
Proof.
  intros HPQ. induction l as [|x l IH]; [done|].
  rewrite !filter_cons.
  destruct (decide (Q x)) as [HQ|HQ], (decide (P x)) as [HP|HP];
    rewrite ?filter_cons, ?decide_True, ?decide_False by done;
    [by rewrite IH|done|by apply HPQ in HP|done].
Qed.

Lemma dedup_first_filter (P : string → Prop) `{!∀ x, Decision (P x)} l :
  dedup_first (filter P l) = filter P (dedup_first l).
Proof.
  induction l as [|x l IH]; [done|].
  rewrite filter_cons. cbn [dedup_first]. rewrite filter_cons.
  destruct (decide (P x)) as [HP|HP].
  - cbn [dedup_first]. by rewrite IH, filter_filter_comm.
  - rewrite IH. symmetry. apply filter_filter_absorb.
    intros y Hy ->. done.
Qed.

Lemma elem_of_dedup_first l x : x ∈ dedup_first l ↔ x ∈ l.
Proof.
  induction l as [|y l IH]; [done|]. cbn [dedup_first].
  rewrite !elem_of_cons, list_elem_of_filter, IH.
  destruct (decide (x = y)); tauto.
Qed.

Lemma NoDup_dedup_first l : NoDup (dedup_first l).
Proof.
  induction l as [|y l IH]; cbn [dedup_first]; constructor.
  - rewrite list_elem_of_filter. intros [Hy _]. by apply Hy.
  - by apply NoDup_filter.
Qed.

Lemma dedup_first_sublist l : dedup_first l `sublist_of` l.
Proof.
  induction l as [|y l IH]; cbn [dedup_first]; [done|].
  apply sublist_skip. etrans; [apply sublist_filter|done].
Qed.

Lemma dedup_first_NoDup_id l : NoDup l → dedup_first l = l.
Proof.
  induction 1 as [|x l Hx Hl IH]; [done|]. cbn [dedup_first]. f_equal.
  rewrite IH. clear IH Hl. induction l as [|y l IH]; [done|].
  rewrite filter_cons. rewrite not_elem_of_cons in Hx. destruct Hx as [Hxy Hx].
  rewrite decide_True by done. f_equal. by apply IH.
Qed.

(** [OrderedDict.fromkeys] from a dictionary that already holds [d]. *)
Lemma fromkeys_from d l :
  foldl (λ (d : list string) (k : string),
           if decide (k ∈ d) then d else d ++ [k]) d l
  = d ++ dedup_first (filter (λ y, y ∉ d) l).
Proof.
  revert d. induction l as [|x l IH]; intros d.
  - by rewrite app_nil_r.
  - cbn [foldl]. rewrite filter_cons. destruct (decide (x ∈ d)) as [Hx|Hx].
    + rewrite decide_False by (by intros []). apply IH.
    + rewrite decide_True by done. rewrite IH. cbn [dedup_first].
      rewrite <- app_assoc. cbn [app]. do 2 f_equal.
      rewrite <- dedup_first_filter. f_equal.
      rewrite list_filter_filter. apply list_filter_iff.
      intros y. rewrite not_elem_of_app, list_elem_of_singleton. tauto.
Qed.

Lemma OrderedDict_fromkeys_dedup l : OrderedDict_fromkeys l = dedup_first l.
Proof.
  unfold OrderedDict_fromkeys. rewrite fromkeys_from. cbn [app]. f_equal.
  induction l as [|x l IH]; [done|].
  rewrite filter_cons, decide_True by apply not_elem_of_nil. by f_equal.
Qed.

Lemma missing_from_dedup (ls : list (list string)) l :
  missing_from ls l = dedup_first (filter (λ v, v ∉ concat ls) l).
Proof.
  unfold missing_from. rewrite OrderedDict_fromkeys_dedup. f_equal.
  apply list_filter_iff. intros x. by rewrite elem_of_list_to_set.
Qed.

Lemma elem_of_missing_from (ls : list (list string)) l x :
  x ∈ missing_from ls l ↔ x ∈ l ∧ x ∉ concat ls.
Proof.
  rewrite missing_from_dedup, elem_of_dedup_first, list_elem_of_filter. tauto.
Qed.

Lemma missing_from_nil (ls : list (list string)) l :
  missing_from ls l = [] ↔ ∀ x, x ∈ l → x ∈ concat ls.
Proof.
  split.
  - intros Hnil x Hx. destruct (decide (x ∈ concat ls)) as [|Hn]; [done|].
    assert (x ∈ missing_from ls l) as Hin by (by apply elem_of_missing_from).
    rewrite Hnil in Hin. by apply elem_of_nil in Hin.
  - intros Hall. destruct (missing_from ls l) as [|x m] eqn:E; [done|].
    assert (x ∈ missing_from ls l) as Hin by (rewrite E; left).
    apply elem_of_missing_from in Hin as [Hx Hn]. by apply Hall in Hx.
Qed.
End list_facts.

(** The value lists that [_GetMissingAllowedValuesFromRules] collects hold
    the allowed values of the rules. *)
Lemma existing_values_allowed_of (rs : list PolicyRule) :
  concat (omap (λ rule, allowedValues <$> values rule) rs)
  = concat (allowed_of <$> rs).
Proof.
  induction rs as [|r rs IH]; [done|]. cbn [omap list_omap fmap list_fmap concat].
  unfold allowed_of at 1. destruct (values r); cbn; by rewrite IH.
Qed.

Lemma _GetMissingAllowedValuesFromRules_spec (rs : list PolicyRule) (vs : list string) :
  _GetMissingAllowedValuesFromRules rs vs = missing_spec rs vs.
Proof.
  unfold _GetMissingAllowedValuesFromRules, missing_spec.
  rewrite missing_from_dedup. f_equal. apply list_filter_iff. intros x.
  by rewrite existing_values_allowed_of.
Qed.

(** ** The allow-all workflow *)

Lemma alter_at_end {A} (f : A → A) (l : list A) (x : A) :
  alter f (length l) (l ++ [x]) = l ++ [f x].
Proof. induction l as [|y l IH]; [done|]. cbn. by f_equal. Qed.

Lemma filter_none {A} (P : A → Prop) `{!∀ x, Decision (P x)} (l : list A) :
  (∀ x, x ∈ l → ¬ P x) → filter P l = [].
Proof.
  induction l as [|x l IH]; intros Hl; [done|].
  rewrite filter_cons_False by (apply Hl; left).
  apply IH. intros y Hy. apply Hl. by right.
Qed.

Lemma filter_all {A} (P : A → Prop) `{!∀ x, Decision (P x)} (l : list A) :
  (∀ x, x ∈ l → P x) → filter P l = l.
Proof.
  induction l as [|x l IH]; intros Hl; [done|].
  rewrite filter_cons_True by (apply Hl; left).
  f_equal. apply IH. intros y Hy. apply Hl. by right.
Qed.

Lemma _AllowAllValues_eq (policy : Policy) (args : Args) :
  _AllowAllValues policy args =
  Ok (mkPolicy (filter (λ r, condition r ≠ arg_condition args) (rules policy)
                ++ [allow_all_rule (arg_condition args)])).
Proof.
  unfold _AllowAllValues, CreateRuleOnPolicy, assign,
    GetNonMatchingRulesFromPolicy. cbn [rules].
  by rewrite alter_at_end.
Qed.

Lemma matching_after_allow_all (cond : option string) (rs : list PolicyRule) :
  filter (λ r, condition r = cond)
         (filter (λ r, condition r ≠ cond) rs ++ [allow_all_rule cond])
  = [allow_all_rule cond].
Proof.
  rewrite filter_app, list_filter_filter.
  rewrite filter_none by tauto.
  by rewrite filter_cons_True.
Qed.

Lemma non_matching_after_allow_all (cond : option string) (rs : list PolicyRule) :
  filter (λ r, condition r ≠ cond)
         (filter (λ r, condition r ≠ cond) rs ++ [allow_all_rule cond])
  = filter (λ r, condition r ≠ cond) rs.
Proof.
  rewrite filter_app, list_filter_filter.
  rewrite (list_filter_iff _ (λ r, condition r ≠ cond)) by tauto.
  by rewrite filter_cons, decide_False, filter_nil, app_nil_r by (by intros []).
Qed.

(** ** The remove workflow *)

Section remove_facts.
Context (d : direction) (vs : list string) (cond : option string).

Lemma remove_from_idemp (l : list string) :
  remove_from vs (remove_from vs l) = remove_from vs l.
Proof. unfold remove_from. rewrite list_filter_filter. apply list_filter_iff. tauto. Qed.

Lemma remove_values_from_rule_idemp (r : PolicyRule) :
  remove_values_from_rule d vs (remove_values_from_rule d vs r)
  = remove_values_from_rule d vs r.
Proof.
  unfold remove_values_from_rule.
  destruct r as [c a b [[al de]|]]; cbn [values]; [|done].
  destruct d; cbn [allowedValues deniedValues condition allowAll denyAll];
    by rewrite remove_from_idemp.
Qed.

Lemma remove_values_from_rule_condition (r : PolicyRule) :
  condition (remove_values_from_rule d vs r) = condition r.
Proof. unfold remove_values_from_rule. by destruct (values r). Qed.

Lemma remove_values_from_rule_allowAll (r : PolicyRule) :
  allowAll (remove_values_from_rule d vs r) = allowAll r.
Proof. unfold remove_values_from_rule. by destruct (values r). Qed.

Lemma remove_values_from_rule_denyAll (r : PolicyRule) :
  denyAll (remove_values_from_rule d vs r) = denyAll r.
Proof. unfold remove_values_from_rule. by destruct (values r). Qed.

Lemma remove_workflow_app (l1 l2 : list PolicyRule) :
  remove_workflow d vs cond (l1 ++ l2)
  = remove_workflow d vs cond l1 ++ remove_workflow d vs cond l2.
Proof.
  induction l1 as [|r l1 IH]; [done|]. cbn [remove_workflow app].
  destruct (decide (condition r = cond)); [|by rewrite IH].
  destruct (dead_rule _); by rewrite IH.
Qed.

Lemma remove_workflow_settled (rs : list PolicyRule) :
  Forall (settled d vs cond) (remove_workflow d vs cond rs).
Proof.
  induction rs as [|r rs IH]; [constructor|]. cbn [remove_workflow].
  destruct (decide (condition r = cond)) as [Hc|Hc].
  - destruct (dead_rule _) eqn:Hdead; [done|]. constructor; [|done].
    intros _. by rewrite remove_values_from_rule_idemp.
  - constructor; [|done]. intros Hc'. by destruct Hc.
Qed.

Lemma remove_workflow_fixed (rs : list PolicyRule) :
  Forall (settled d vs cond) rs → remove_workflow d vs cond rs = rs.
Proof.
  induction 1 as [|r rs Hr _ IH]; [done|]. cbn [remove_workflow app].
  destruct (decide (condition r = cond)) as [Hc|Hc]; [|by rewrite IH].
  destruct (Hr Hc) as [-> ->]. by rewrite IH.
Qed.

Lemma remove_workflow_idemp (rs : list PolicyRule) :
  remove_workflow d vs cond (remove_workflow d vs cond rs)
  = remove_workflow d vs cond rs.
Proof. apply remove_workflow_fixed, remove_workflow_settled. Qed.

(** Rules with another condition go through the workflow untouched. *)
Lemma remove_workflow_other (rs : list PolicyRule) :
  filter (λ r, condition r ≠ cond) (remove_workflow d vs cond rs)
  = filter (λ r, condition r ≠ cond) rs.
Proof.
  induction rs as [|r rs IH]; [done|]. cbn [remove_workflow app].
  destruct (decide (condition r = cond)) as [Hc|Hc].
  - rewrite (filter_cons_False _ r) by tauto.
    destruct (dead_rule _); [done|].
    rewrite filter_cons_False; [done|].
    rewrite remove_values_from_rule_condition. tauto.
  - rewrite !filter_cons_True by done. by rewrite IH.
Qed.

End remove_facts.

(** ** The scan over the matching rules *)

Lemma scan_rules_app (pre l : list PolicyRule) :
  scan_rules (pre ++ l) =
  match scan_rules pre with
  | FallThrough => scan_rules l
  | exit => exit
  end.
Proof.
  induction pre as [|r pre IH]; [done|]. cbn.
  destruct (truthy (allowAll r)); [done|].
  by destruct (truthy (denyAll r)).
Qed.

Lemma scan_rules_FallThrough (rs : list PolicyRule) :
  scan_rules rs = FallThrough ↔
  Forall (λ r, truthy (allowAll r) = false ∧ truthy (denyAll r) = false) rs.
Proof.
  induction rs as [|r rs IH]; cbn.
  - split; [constructor|done].
  - rewrite Forall_cons, <- IH.
    destruct (truthy (allowAll r)), (truthy (denyAll r)); intuition congruence.
Qed.

Lemma scan_rules_RaiseNotSupported (rs : list PolicyRule) :
  scan_rules rs = RaiseNotSupported ↔
  ∃ pre r suf, rs = pre ++ r :: suf ∧ scan_rules pre = FallThrough ∧
    truthy (allowAll r) = false ∧ truthy (denyAll r) = true.
Proof.
  split.
  - induction rs as [|r rs IH]; [done|]. cbn.
    destruct (truthy (allowAll r)) eqn:Ha; [done|].
    destruct (truthy (denyAll r)) eqn:Hd.
    + intros _. by exists [], r, rs.
    + intros (pre & x & suf & -> & Hpre & Hx)%IH.
      exists (r :: pre), x, suf. cbn. by rewrite Ha, Hd.
  - intros (pre & r & suf & -> & Hpre & Ha & Hd).
    rewrite scan_rules_app, Hpre. cbn. by rewrite Ha, Hd.
Qed.

Lemma scan_rules_ReturnAsIs (rs : list PolicyRule) :
  scan_rules rs = ReturnAsIs ↔
  ∃ pre r suf, rs = pre ++ r :: suf ∧ scan_rules pre = FallThrough ∧
    truthy (allowAll r) = true.
Proof.
  split.
  - induction rs as [|r rs IH]; [done|]. cbn.
    destruct (truthy (allowAll r)) eqn:Ha.
    + intros _. by exists [], r, rs.
    + destruct (truthy (denyAll r)) eqn:Hd; [done|].
      intros (pre & x & suf & -> & Hpre & Hx)%IH.
      exists (r :: pre), x, suf. cbn. by rewrite Ha, Hd.
  - intros (pre & r & suf & -> & Hpre & Ha).
    rewrite scan_rules_app, Hpre. cbn. by rewrite Ha.
Qed.

(** ** The target of the add workflow *)

Lemma first_matching_split (cond : option string) (rs : list PolicyRule)
    (target : PolicyRule) (rest : list PolicyRule) :
  filter (λ r, condition r = cond) rs = target :: rest →
  ∃ pre suf, first_match_at cond rs pre target suf ∧
    first_matching cond rs = length pre ∧
    filter (λ r, condition r = cond) suf = rest.
Proof.
  induction rs as [|r rs IH]; [done|]. rewrite filter_cons. cbn.
  destruct (decide (condition r = cond)) as [Hc|Hc].
  - intros [= -> <-]. exists [], rs. by repeat split.
  - intros (pre & suf & (-> & Hpre & Ht) & Hlen & Hsuf)%IH.
    exists (r :: pre), suf. repeat split; cbn; auto.
Qed.

Lemma alter_middle {A} (f : A → A) (pre suf : list A) (x : A) :
  alter f (length pre) (pre ++ x :: suf) = pre ++ f x :: suf.
Proof. induction pre as [|y pre IH]; [done|]. cbn. by f_equal. Qed.

Lemma add_missing_unset_flags (missing : list string) (r : PolicyRule) :
  add_missing missing (unset_flags r) = with_missing r missing.
Proof. by destruct r as [c a b [[al de]|]]. Qed.

Lemma add_missing_new_rule (missing : list string) (cond : option string) :
  add_missing missing (new_rule cond) = with_missing (new_rule cond) missing.
Proof. done. Qed.

(** ** The cases of [_AddValues] *)

Section add_values_cases.
Context (policy : Policy) (args : Args).

Local Abbreviation cond := (arg_condition args).
Local Abbreviation new_policy := (RemoveDeniedValuesFromPolicy policy args).
Local Abbreviation matching := (GetMatchingRulesFromPolicy new_policy cond).
Local Abbreviation missing :=
  (_GetMissingAllowedValuesFromRules matching (arg_value args)).

Lemma _AddValues_nothing_missing :
  missing = [] → _AddValues policy args = Ok new_policy.
Proof. intros H. unfold _AddValues. by rewrite H. Qed.

Lemma _AddValues_no_rule :
  missing ≠ [] → matching = [] →
  _AddValues policy args =
  Ok (mkPolicy (rules new_policy ++ [with_missing (new_rule cond) missing])).
Proof.
  intros Hm Hr. unfold _AddValues. destruct missing as [|v m] eqn:E; [done|].
  rewrite Hr. unfold CreateRuleOnPolicy, assign. cbn [rules].
  by rewrite alter_at_end.
Qed.

Lemma _AddValues_scan :
  missing ≠ [] → matching ≠ [] →
  _AddValues policy args =
  match scan_rules matching with
  | ReturnAsIs => Ok new_policy
  | RaiseNotSupported => Raise OperationNotSupportedError
  | FallThrough =>
      let rule_to_update := first_matching cond (rules new_policy) in
      Ok (assign rule_to_update (add_missing missing)
            (assign rule_to_update unset_flags new_policy))
  end.
Proof.
  intros Hm Hr. unfold _AddValues. destruct missing as [|v m] eqn:E; [done|].
  by destruct matching.
Qed.

Lemma _AddValues_target (target : PolicyRule) (rest : list PolicyRule) :
  missing ≠ [] → matching = target :: rest →
  scan_rules matching = FallThrough →
  ∃ pre suf, first_match_at cond (rules new_policy) pre target suf ∧
    filter (λ r, condition r = cond) suf = rest ∧
    _AddValues policy args =
    Ok (mkPolicy (pre ++ with_missing target missing :: suf)).
Proof.
  intros Hm Hr Hscan. rewrite _AddValues_scan; [|done|by rewrite Hr].
  rewrite Hscan.
  destruct (first_matching_split _ _ _ _ Hr) as (pre & suf & Hat & Hlen & Hsuf).
  exists pre, suf. split; [done|]. split; [done|].
  destruct Hat as (Hrs & _ & _). cbn zeta. rewrite Hlen. unfold assign.
  cbn [rules]. rewrite Hrs, !alter_middle.
  by rewrite add_missing_unset_flags.
Qed.

(** [_AddValues] raises nothing but [OperationNotSupportedError]. *)
Lemma _AddValues_raises (e : error) :
  _AddValues policy args = Raise e → e = OperationNotSupportedError.
Proof.
  unfold _AddValues. destruct missing; [done|].
  destruct matching; [done|]. destruct (scan_rules _); congruence.
Qed.
End add_values_cases.

Lemma Run_raises_invalid (policy : Policy) (args : Args) :
  Run policy args = Raise InvalidInputError ↔
  arg_remove args = true ∧ arg_value args = [].
Proof.
  unfold Run, UpdatePolicy. rewrite _AllowAllValues_eq.
  pose proof (_AddValues_raises policy args InvalidInputError) as Hadd.
  destruct (arg_value args) as [|v vs], (arg_remove args);
    cbn [bool_decide andb]; split; try done; try (by intros []).
  rewrite andb_false_r. intros H. by apply Hadd in H.
Qed.

(** ** Adding twice *)

Lemma elem_of_missing (rs : list PolicyRule) (vs : list string) (v : string) :
  v ∈ _GetMissingAllowedValuesFromRules rs vs ↔
  v ∈ vs ∧ v ∉ concat (allowed_of <$> rs).
Proof.
  rewrite _GetMissingAllowedValuesFromRules_spec. unfold missing_spec.
  rewrite elem_of_dedup_first, list_elem_of_filter. tauto.
Qed.

Lemma missing_nil (rs : list PolicyRule) (vs : list string) :
  (∀ v, v ∈ vs → v ∈ concat (allowed_of <$> rs)) →
  _GetMissingAllowedValuesFromRules rs vs = [].
Proof.
  intros Hall. destruct (_GetMissingAllowedValuesFromRules rs vs) as [|v m] eqn:E;
    [done|].
  assert (v ∈ _GetMissingAllowedValuesFromRules rs vs) as Hin by (rewrite E; left).
  apply elem_of_missing in Hin as [Hv Hn]. by apply Hall in Hv.
Qed.

Lemma RemoveDeniedValuesFromPolicy_fixed (policy : Policy) (args : Args) :
  Forall (settled Denied (arg_value args) (arg_condition args)) (rules policy) →
  RemoveDeniedValuesFromPolicy policy args = policy.
Proof.
  intros H. unfold RemoveDeniedValuesFromPolicy.
  rewrite remove_workflow_fixed by done. by destruct policy.
Qed.

Lemma RemoveDeniedValuesFromPolicy_settled (policy : Policy) (args : Args) :
  Forall (settled Denied (arg_value args) (arg_condition args))
         (rules (RemoveDeniedValuesFromPolicy policy args)).
Proof. apply remove_workflow_settled. Qed.

(** [_AddValues] sees its argument only through the removal of the denied
    values. *)
Lemma _AddValues_new_policy (policy : Policy) (args : Args) :
  _AddValues (RemoveDeniedValuesFromPolicy policy args) args
  = _AddValues policy args.
Proof.
  unfold _AddValues.
  by rewrite (RemoveDeniedValuesFromPolicy_fixed _ _
                (RemoveDeniedValuesFromPolicy_settled policy args)).
Qed.

(** A policy on which nothing is left to do comes back as it is. *)
Lemma _AddValues_nothing_to_do (policy : Policy) (args : Args) :
  Forall (settled Denied (arg_value args) (arg_condition args)) (rules policy) →
  (∀ v, v ∈ arg_value args →
        v ∈ concat (allowed_of <$>
                      filter (λ r, condition r = arg_condition args) (rules policy))) →
  _AddValues policy args = Ok policy.
Proof.
  intros Hs Hall. rewrite _AddValues_nothing_missing;
    rewrite RemoveDeniedValuesFromPolicy_fixed by done; [done|].
  by apply missing_nil.
Qed.

Lemma settled_with_missing (vs : list string) (cond : option string)
    (target : PolicyRule) (missing : list string) :
  missing ≠ [] →
  remove_values_from_rule Denied vs target = target →
  settled Denied vs cond (with_missing target missing).
Proof.
  intros Hm Ht _. unfold with_missing, remove_values_from_rule, dead_rule.
  cbn [values allowAll denyAll condition allowedValues deniedValues].
  split.
  - do 3 f_equal. unfold denied_of.
    unfold remove_values_from_rule in Ht.
    destruct target as [c a b [[al de]|]]; cbn in *; [|done].
    by injection Ht.
  - rewrite (bool_decide_eq_false_2 (_ ++ _ = [])); [done|].
    intros [_ ?]%app_eq_nil. done.
Qed.

Lemma allowed_of_with_missing (target : PolicyRule) (missing : list string) :
  allowed_of (with_missing target missing) = allowed_of target ++ missing.
Proof. done. Qed.

Section add_twice.
Context (policy : Policy) (args : Args).

Local Abbreviation cond := (arg_condition args).
Local Abbreviation new_policy := (RemoveDeniedValuesFromPolicy policy args).
Local Abbreviation matching := (GetMatchingRulesFromPolicy new_policy cond).
Local Abbreviation missing :=
  (_GetMissingAllowedValuesFromRules matching (arg_value args)).

Lemma _AddValues_twice :
  and_then (_AddValues policy args) (λ once, _AddValues once args)
  = _AddValues policy args.
Proof.
  pose proof (RemoveDeniedValuesFromPolicy_settled policy args) as Hsettled.
  destruct matching as [|target rest] eqn:Hmatching;
    (destruct (decide (missing = [])) as [Hm|Hm];
     [ rewrite _AddValues_nothing_missing by done; cbn [and_then];
       rewrite _AddValues_new_policy; by apply _AddValues_nothing_missing |]).
  { (* a rule is created *)
    rewrite _AddValues_no_rule by done. cbn [and_then].
    apply _AddValues_nothing_to_do; cbn [rules].
    - apply Forall_app. split; [done|]. constructor; [|constructor].
      by apply settled_with_missing.
    - intros v Hv. rewrite filter_app.
      unfold GetMatchingRulesFromPolicy in Hmatching.
      rewrite Hmatching. rewrite filter_cons_True by done.
      cbn [app fmap list_fmap concat].
      rewrite app_nil_r, allowed_of_with_missing.
      apply elem_of_app. right.
      apply elem_of_missing. split; [done|].
      unfold GetMatchingRulesFromPolicy.
      rewrite Hmatching. apply not_elem_of_nil. }
  assert (matching ≠ []) as Hne by (by rewrite Hmatching).
  pose proof (_AddValues_scan policy args Hm Hne) as Hcases.
  rewrite Hmatching in Hcases.
  destruct (scan_rules (target :: rest)) eqn:Hscan.
  { rewrite Hcases. cbn [and_then]. by rewrite _AddValues_new_policy. }
  { by rewrite Hcases. }
  (* the first matching rule is updated *)
  clear Hcases.
  destruct (_AddValues_target policy args target rest) as
    (pre & suf & (Hrs & Hpre & Htc) & Hsuf & Heq);
    [done|done|by rewrite Hmatching|].
  rewrite Heq. cbn [and_then]. rewrite Hrs in Hsettled.
  apply Forall_app in Hsettled as [Hspre Hssuf].
  apply Forall_cons in Hssuf as [Hst Hssuf].
  apply _AddValues_nothing_to_do; cbn [rules].
  - apply Forall_app. split; [done|]. constructor; [|done].
    apply settled_with_missing; [done|]. by apply Hst.
  - intros v Hv. rewrite filter_app.
    rewrite (filter_none _ pre); [|by apply Forall_forall].
    rewrite filter_cons_True by done. rewrite Hsuf.
    cbn [app fmap list_fmap concat]. rewrite allowed_of_with_missing.
    destruct (decide (v ∈ concat (allowed_of <$> (target :: rest)))) as [Hin|Hin].
    + cbn [fmap list_fmap concat] in Hin. rewrite !elem_of_app in *. tauto.
    + rewrite !elem_of_app. left. right.
      apply elem_of_missing. by rewrite Hmatching.
Qed.
End add_twice.

(** * Properties of the store-level model *)

(** ** Rules for [wp] *)

Section wp_rules.
Import Store.
Context {A B : Type}.
Implicit Types (σ : store) (m : M A) (f : A → M B).

Lemma wp_bind m f σ (Q : B + exn → store → Prop) :
  wp m σ (λ r σ', match r with
                  | inl a => wp (f a) σ' Q
                  | inr e => Q (inr e) σ'
                  end) →
  wp (m ≫= f) σ Q.
Proof. unfold wp, mbind, M_bind. by destruct (m σ) as [[a|e] σ']. Qed.

Lemma wp_mono m σ (Q Q' : A + exn → store → Prop) :
  wp m σ Q → (∀ r σ', Q r σ' → Q' r σ') → wp m σ Q'.
Proof. unfold wp. auto. Qed.

Lemma wp_ret (a : A) σ (Q : A + exn → store → Prop) :
  Q (inl a) σ → wp (mret a) σ Q.
Proof. done. Qed.

Lemma wp_throw (e : exn) σ (Q : A + exn → store → Prop) :
  Q (inr e) σ → wp (throw e) σ Q.
Proof. done. Qed.
End wp_rules.

Lemma wp_alloc (o : Store.object) σ (Q : Store.loc + Store.exn → Store.store → Prop) :
  Q (inl (length σ)) (σ ++ [o]) → Store.wp (Store.alloc o) σ Q.
Proof. done. Qed.

Lemma wp_get (l : Store.loc) σ (Q : Store.object + Store.exn → Store.store → Prop) :
  match σ !! l with
  | Some o => Q (inl o) σ
  | None => Q (inr Store.BadReference) σ
  end → Store.wp (Store.get l) σ Q.
Proof. unfold Store.wp, Store.get. by destruct (σ !! l). Qed.

Lemma wp_put (l : Store.loc) (o : Store.object) σ
    (Q : unit + Store.exn → Store.store → Prop) :
  match σ !! l with
  | Some _ => Q (inl ()) (<[l:=o]> σ)
  | None => Q (inr Store.BadReference) σ
  end → Store.wp (Store.put l o) σ Q.
Proof. unfold Store.wp, Store.put. by destruct (σ !! l). Qed.

(** ** The objects of the caller stay as they are *)

Section keeps.
Import Store.
Context (σ0 : store).
Local Abbreviation n := (length σ0).

Lemma extends_refl : extends σ0 σ0.
Proof.
  split; [done|]. intros l o Hl Hlook.
  apply lookup_lt_Some in Hlook. lia.
Qed.

Lemma keeps_bind {A B} (m : M A) (f : A → M B) (Q : A → Prop) (R : B → Prop) :
  keeps σ0 m Q → (∀ a, Q a → keeps σ0 (f a) R) → keeps σ0 (m ≫= f) R.
Proof.
  intros Hm Hf σ Hσ. apply wp_bind. eapply wp_mono; [by apply Hm|].
  intros [a|e] σ' [Hσ' HQ]; [|done]. by apply Hf.
Qed.

Lemma keeps_mono {A} (m : M A) (Q Q' : A → Prop) :
  keeps σ0 m Q → (∀ a, Q a → Q' a) → keeps σ0 m Q'.
Proof.
  intros Hm HQ σ Hσ. eapply wp_mono; [by apply Hm|].
  intros [a|e] σ' [Hσ' H]; split; auto.
Qed.

Lemma keeps_ret {A} (a : A) (Q : A → Prop) : Q a → keeps σ0 (mret a) Q.
Proof. intros HQ σ Hσ. by apply wp_ret. Qed.

Lemma keeps_throw {A} (e : exn) (Q : A → Prop) :
  e ≠ Command InvalidInputError → keeps σ0 (throw e) Q.
Proof. intros He σ Hσ. by apply wp_throw. Qed.

Lemma keeps_alloc (o : object) :
  Forall (λ l' : loc, n ≤ l') (refs o) → keeps σ0 (alloc o) (λ l, n ≤ l).
Proof.
  intros Ho σ [Hpre Hcl]. apply wp_alloc. split; [split|].
  - by apply prefix_app_r.
  - intros l o' Hl Hlook. apply lookup_app_Some in Hlook as [Hlook|[_ Hlook]].
    + by eapply Hcl.
    + apply list_lookup_singleton_Some in Hlook as [_ <-]. done.
  - by apply prefix_length.
Qed.

Lemma keeps_get (l : loc) :
  keeps σ0 (get l) (λ o, n ≤ l → Forall (λ l' : loc, n ≤ l') (refs o)).
Proof.
  intros σ [Hpre Hcl]. apply wp_get. destruct (σ !! l) as [o|] eqn:E.
  - split; [done|]. intros Hl. by eapply Hcl.
  - done.
Qed.

Lemma keeps_put (l : loc) (o : object) :
  n ≤ l → Forall (λ l' : loc, n ≤ l') (refs o) → keeps σ0 (put l o) (λ _, True).
Proof.
  intros Hl Ho σ [Hpre Hcl]. apply wp_put. destruct (σ !! l) as [o'|] eqn:E; [|done].
  split; [split|done].
  - destruct Hpre as [k ->]. rewrite insert_app_r_alt by done.
    by apply prefix_app_r.
  - intros l' o'' Hl' Hlook. destruct (decide (l = l')) as [<-|Hne].
    + rewrite list_lookup_insert_eq in Hlook by (by eapply lookup_lt_Some).
      by injection Hlook as <-.
    + rewrite list_lookup_insert_ne in Hlook by done. by eapply Hcl.
Qed.

Lemma keeps_get_policy (l : loc) :
  keeps σ0 (get_policy l) (λ rs, n ≤ l → Forall (λ l' : loc, n ≤ l') rs).
Proof.
  eapply keeps_bind; [apply keeps_get|]. intros [rs|c|sv] Ho.
  - by apply keeps_ret.
  - by apply keeps_throw.
  - by apply keeps_throw.
Qed.

Lemma keeps_get_rule (l : loc) :
  keeps σ0 (get_rule l) (λ c, n ≤ l → ∀ v, r_values c = Some v → n ≤ v).
Proof.
  eapply keeps_bind; [apply keeps_get|]. intros [rs|c|sv] Ho.
  - by apply keeps_throw.
  - apply keeps_ret. intros Hl v Hv. apply Ho in Hl. cbn in Hl.
    rewrite Hv in Hl. cbn in Hl. by inversion Hl.
  - by apply keeps_throw.
Qed.

Lemma keeps_get_values (l : loc) : keeps σ0 (get_values l) (λ _, True).
Proof.
  eapply keeps_bind; [apply keeps_get|]. intros [rs|c|sv] Ho.
  - by apply keeps_throw.
  - by apply keeps_throw.
  - by apply keeps_ret.
Qed.
End keeps.

Section keeps_workflows.
Import Store.
Context (σ0 : store).
Local Abbreviation n := (length σ0).
Local Abbreviation from_n := (Forall (λ l' : loc, n ≤ l')).

Lemma keeps_copy_values (m : memo) (v : loc) :
  memo_from n m →
  keeps σ0 (copy_values m v) (λ '(v', m'), n ≤ v' ∧ memo_from n m').
Proof.
  intros Hm. unfold copy_values. destruct (m !! v) as [v'|] eqn:E.
  - apply keeps_ret. split; [|done]. by apply (Hm v v').
  - eapply keeps_bind; [apply keeps_get_values|]. intros sv _.
    eapply keeps_bind; [by apply keeps_alloc|]. intros v' Hv'.
    apply keeps_ret. split; [done|]. by apply map_Forall_insert_2.
Qed.

Lemma keeps_copy_rule (m : memo) (r : loc) :
  memo_from n m →
  keeps σ0 (copy_rule m r) (λ '(r', m'), n ≤ r' ∧ memo_from n m').
Proof.
  intros Hm. unfold copy_rule. destruct (m !! r) as [r'|] eqn:E.
  - apply keeps_ret. split; [|done]. by apply (Hm r r').
  - eapply keeps_bind; [apply keeps_get_rule|]. intros c _.
    eapply (keeps_bind _ _ _
              (λ '(vo, m'), (∀ v, vo = Some v → n ≤ v) ∧ memo_from n m')).
    + destruct (r_values c) as [v|].
      * eapply keeps_bind; [by apply keeps_copy_values|].
        intros [v' m'] [Hv' Hm']. apply keeps_ret. split; [|done].
        by intros ? [= <-].
      * by apply keeps_ret.
    + intros [vo m'] [Hvo Hm'].
      eapply keeps_bind.
      * apply keeps_alloc. cbn. destruct vo as [v|]; cbn; [|done].
        constructor; [by apply Hvo|done].
      * intros r' Hr'. apply keeps_ret. split; [done|].
        by apply map_Forall_insert_2.
Qed.

Lemma keeps_copy_rules (m : memo) (rs : list loc) :
  memo_from n m →
  keeps σ0 (copy_rules m rs) (λ '(rs', m'), from_n rs' ∧ memo_from n m').
Proof.
  revert m. induction rs as [|r rs IH]; intros m Hm; cbn [copy_rules].
  - by apply keeps_ret.
  - eapply keeps_bind; [by apply keeps_copy_rule|]. intros [r' m'] [Hr' Hm'].
    eapply keeps_bind; [by apply IH|]. intros [rs' m''] [Hrs' Hm''].
    apply keeps_ret. split; [by constructor|done].
Qed.

Lemma keeps_deepcopy (policy : loc) :
  keeps σ0 (deepcopy policy) (λ q, n ≤ q).
Proof.
  unfold deepcopy. eapply keeps_bind; [apply keeps_get_policy|]. intros rs _.
  eapply keeps_bind; [apply keeps_copy_rules, map_Forall_empty|].
  intros [rs' m'] [Hrs' _]. by apply keeps_alloc.
Qed.

Lemma keeps_read_rule (rule : loc) : keeps σ0 (read_rule rule) (λ _, True).
Proof.
  unfold read_rule. eapply keeps_bind; [apply keeps_get_rule|]. intros c _.
  eapply (keeps_bind _ _ _ (λ _, True)).
  - unfold read_values. destruct (r_values c); [|by apply keeps_ret].
    eapply keeps_bind; [apply keeps_get_values|]. intros ? _.
    by apply keeps_ret.
  - intros ? _. by apply keeps_ret.
Qed.

Lemma keeps_filter_rules (keep : option string → bool) (rs : list loc) :
  from_n rs → keeps σ0 (filter_rules keep rs) from_n.
Proof.
  induction 1 as [|r rs Hr Hrs IH]; cbn [filter_rules].
  - by apply keeps_ret.
  - eapply keeps_bind; [apply keeps_get_rule|]. intros c _.
    eapply keeps_bind; [apply IH|]. intros kept Hkept.
    apply keeps_ret. destruct (keep _); [by constructor|done].
Qed.

Lemma keeps_GetMatchingRulesFromPolicy (policy : loc) (cond : option string) :
  n ≤ policy → keeps σ0 (GetMatchingRulesFromPolicy policy cond) from_n.
Proof.
  intros Hp. eapply keeps_bind; [apply keeps_get_policy|]. intros rs Hrs.
  apply keeps_filter_rules. by apply Hrs.
Qed.

Lemma keeps_GetNonMatchingRulesFromPolicy (policy : loc) (cond : option string) :
  n ≤ policy → keeps σ0 (GetNonMatchingRulesFromPolicy policy cond) from_n.
Proof.
  intros Hp. eapply keeps_bind; [apply keeps_get_policy|]. intros rs Hrs.
  apply keeps_filter_rules. by apply Hrs.
Qed.

Lemma keeps_CreateRuleOnPolicy (policy : loc) (cond : option string) :
  n ≤ policy →
  keeps σ0 (CreateRuleOnPolicy policy cond) (λ '(r, p), n ≤ r ∧ n ≤ p).
Proof.
  intros Hp. unfold CreateRuleOnPolicy.
  eapply keeps_bind; [by apply keeps_alloc|]. intros rule Hrule.
  eapply keeps_bind; [apply keeps_get_policy|]. intros rs Hrs.
  eapply keeps_bind.
  - apply keeps_put; [done|]. cbn. apply Forall_app. split; [by apply Hrs|].
    by constructor.
  - intros _ _. by apply keeps_ret.
Qed.

Lemma keeps_remove_in_rule (d : direction) (vs : list string)
    (cond : option string) (rule : loc) :
  n ≤ rule → keeps σ0 (remove_in_rule d vs cond rule) (λ _, True).
Proof.
  intros Hr. unfold remove_in_rule.
  eapply keeps_bind; [apply keeps_get_rule|]. intros c Hc.
  destruct (decide _); [|by apply keeps_ret].
  eapply keeps_bind; [apply keeps_read_rule|]. intros r _.
  eapply (keeps_bind _ _ _ (λ _, True)).
  - destruct (r_values c) as [v|] eqn:E; [|by apply keeps_ret].
    destruct (values _); [|by apply keeps_ret].
    apply keeps_put; [by apply Hc|done].
  - intros _ _. by apply keeps_ret.
Qed.

Lemma keeps_remove_loop (d : direction) (vs : list string)
    (cond : option string) (rs : list loc) :
  from_n rs → keeps σ0 (remove_loop d vs cond rs) from_n.
Proof.
  induction 1 as [|r rs Hr Hrs IH]; cbn [remove_loop].
  - by apply keeps_ret.
  - eapply keeps_bind; [by apply keeps_remove_in_rule|]. intros keep _.
    eapply keeps_bind; [apply IH|]. intros kept Hkept.
    apply keeps_ret. destruct keep; [by constructor|done].
Qed.

Lemma keeps_remove_workflow (d : direction) (vs : list string)
    (cond : option string) (policy : loc) :
  keeps σ0 (remove_workflow d vs cond policy) (λ q, n ≤ q).
Proof.
  unfold remove_workflow.
  eapply keeps_bind; [apply keeps_deepcopy|]. intros q Hq.
  eapply keeps_bind; [apply keeps_get_policy|]. intros rs Hrs.
  eapply keeps_bind; [by apply keeps_remove_loop, Hrs|]. intros kept Hkept.
  eapply keeps_bind; [by apply keeps_put|]. intros _ _.
  by apply keeps_ret.
Qed.

Lemma keeps_existing_value_lists (rules : list loc) :
  keeps σ0 (existing_value_lists rules) (λ _, True).
Proof.
  induction rules as [|r rs IH]; cbn [existing_value_lists].
  - by apply keeps_ret.
  - eapply keeps_bind; [apply keeps_get_rule|]. intros c _.
    destruct (r_values c); [|done].
    eapply keeps_bind; [apply keeps_get_values|]. intros sv _.
    eapply keeps_bind; [apply IH|]. intros ls _. by apply keeps_ret.
Qed.

Lemma keeps_scan_rules (rules : list loc) :
  keeps σ0 (scan_rules rules) (λ _, True).
Proof.
  induction rules as [|r rs IH]; cbn [scan_rules].
  - by apply keeps_ret.
  - eapply keeps_bind; [apply keeps_get_rule|]. intros c _.
    destruct (truthy _); [by apply keeps_ret|].
    destruct (truthy _); [by apply keeps_ret|done].
Qed.

Lemma keeps_set_allowAll (rule : loc) (a : option bool) :
  n ≤ rule → keeps σ0 (set_allowAll rule a) (λ _, True).
Proof.
  intros Hr. eapply keeps_bind; [apply keeps_get_rule|]. intros c Hc.
  apply keeps_put; [done|]. cbn. destruct (r_values c) as [v|] eqn:E; cbn; [|done].
  constructor; [by apply Hc|done].
Qed.

Lemma keeps_set_denyAll (rule : loc) (a : option bool) :
  n ≤ rule → keeps σ0 (set_denyAll rule a) (λ _, True).
Proof.
  intros Hr. eapply keeps_bind; [apply keeps_get_rule|]. intros c Hc.
  apply keeps_put; [done|]. cbn. destruct (r_values c) as [v|] eqn:E; cbn; [|done].
  constructor; [by apply Hc|done].
Qed.

Lemma keeps_set_values (rule v : loc) :
  n ≤ rule → n ≤ v → keeps σ0 (set_values rule (Some v)) (λ _, True).
Proof.
  intros Hr Hv. eapply keeps_bind; [apply keeps_get_rule|]. intros c Hc.
  apply keeps_put; [done|]. cbn. by constructor.
Qed.

Lemma keeps_append_missing (rule : loc) (missing : list string) :
  n ≤ rule → keeps σ0 (append_missing rule missing) (λ _, True).
Proof.
  intros Hr. unfold append_missing.
  eapply keeps_bind; [apply keeps_get_rule|]. intros c Hc.
  eapply (keeps_bind _ _ _ (λ v, n ≤ v)).
  - destruct (r_values c) as [v|] eqn:E; [by apply keeps_ret, Hc|].
    eapply keeps_bind; [by apply keeps_alloc|]. intros v Hv.
    eapply keeps_bind; [by apply keeps_set_values|]. intros _ _.
    by apply keeps_ret.
  - intros v Hv. eapply keeps_bind; [apply keeps_get_values|]. intros sv _.
    by apply keeps_put.
Qed.

Lemma keeps__AddValues (policy : loc) (args : Args) :
  keeps σ0 (_AddValues policy args) (λ q, n ≤ q).
Proof.
  unfold _AddValues.
  eapply keeps_bind; [apply keeps_deepcopy|]. intros q0 Hq0.
  eapply keeps_bind; [apply keeps_remove_workflow|]. intros q Hq.
  eapply keeps_bind; [by apply keeps_GetMatchingRulesFromPolicy|].
  intros rules Hrules.
  eapply keeps_bind.
  { eapply keeps_bind; [apply keeps_existing_value_lists|].
    intros ls _. by apply (keeps_ret _ _ (λ _, True)). }
  intros [|v missing] _; [by apply keeps_ret|].
  destruct Hrules as [|rules_0 rest H0 Hrest].
  - eapply keeps_bind; [by apply keeps_CreateRuleOnPolicy|].
    intros [r p] [Hr Hp].
    eapply keeps_bind; [by apply keeps_append_missing|]. intros _ _.
    by apply keeps_ret.
  - eapply keeps_bind; [apply keeps_scan_rules|]. intros [] _.
    + by apply keeps_ret.
    + by apply keeps_throw.
    + eapply keeps_bind; [by apply keeps_set_allowAll|]. intros _ _.
      eapply keeps_bind; [by apply keeps_set_denyAll|]. intros _ _.
      eapply keeps_bind; [by apply keeps_append_missing|]. intros _ _.
      by apply keeps_ret.
Qed.

Lemma keeps__AllowAllValues (policy : loc) (args : Args) :
  keeps σ0 (_AllowAllValues policy args) (λ q, n ≤ q).
Proof.
  unfold _AllowAllValues.
  eapply keeps_bind; [apply keeps_deepcopy|]. intros q Hq.
  eapply keeps_bind; [by apply keeps_GetNonMatchingRulesFromPolicy|].
  intros rs Hrs.
  eapply keeps_bind; [by apply keeps_put|]. intros _ _.
  eapply keeps_bind; [by apply keeps_CreateRuleOnPolicy|].
  intros [r p] [Hr Hp].
  eapply keeps_bind; [by apply keeps_set_allowAll|]. intros _ _.
  by apply keeps_ret.
Qed.

Lemma keeps_UpdatePolicy (policy : loc) (args : Args) :
  keeps σ0 (UpdatePolicy policy args) (λ q, n ≤ q).
Proof.
  unfold UpdatePolicy. destruct (arg_value args).
  - apply keeps__AllowAllValues.
  - destruct (arg_remove args).
    + apply keeps_remove_workflow.
    + apply keeps__AddValues.
Qed.

(** What is reachable from an added object has been added. *)
Lemma reachable_from (σ : store) (l l' : loc) :
  closed_from n σ → reachable σ l l' → n ≤ l → n ≤ l'.
Proof.
  intros Hcl. induction 1 as [|l o l' l'' Hlook Hin _ IH]; [done|].
  intros Hl. apply IH. specialize (Hcl l o Hl Hlook).
  rewrite Forall_forall in Hcl. by apply Hcl.
Qed.
End keeps_workflows.

(** ** Objects and the values they stand for *)

Section rep_facts.
Import Store.
Implicit Types (σ : store) (r l : loc) (R : PolicyRule).

Lemma wp_eq {A} (m : M A) σ (res : A + exn) σ' (Q : A + exn → store → Prop) :
  m σ = (res, σ') → Q res σ' → wp m σ Q.
Proof. unfold wp. by intros ->. Qed.

Lemma bind_eq {A B} (m : M A) (f : A → M B) σ a σ' :
  m σ = (inl a, σ') → (m ≫= f) σ = f a σ'.
Proof. unfold mbind, M_bind. by intros ->. Qed.

Lemma get_policy_eq σ l rs :
  σ !! l = Some (PolicyObj rs) → get_policy l σ = (inl rs, σ).
Proof. intros H. unfold get_policy, get, mbind, M_bind. by rewrite H. Qed.

Lemma get_rule_eq σ l c :
  σ !! l = Some (RuleObj c) → get_rule l σ = (inl c, σ).
Proof. intros H. unfold get_rule, get, mbind, M_bind. by rewrite H. Qed.

Lemma get_values_eq σ l sv :
  σ !! l = Some (ValuesObj sv) → get_values l σ = (inl sv, σ).
Proof. intros H. unfold get_values, get, mbind, M_bind. by rewrite H. Qed.

Lemma put_eq σ l o : l < length σ → put l o σ = (inl (), <[l:=o]> σ).
Proof.
  intros H. unfold put. by destruct (lookup_lt_is_Some_2 σ l H) as [? ->].
Qed.

Lemma parts_eq σ r c :
  σ !! r = Some (RuleObj c) → parts σ r = r :: option_list (r_values c).
Proof. intros H. unfold parts. by rewrite H. Qed.

Lemma rep_rule_lt σ r R l : rep_rule σ r R → l ∈ parts σ r → l < length σ.
Proof.
  intros (c & Hr & _ & _ & _ & Hv). rewrite (parts_eq _ _ _ Hr).
  intros [->|Hl]%elem_of_cons; [by eapply lookup_lt_Some|].
  destruct (r_values c) as [v|]; cbn in Hl; [|by apply elem_of_nil in Hl].
  apply list_elem_of_singleton in Hl as ->.
  destruct (values R); [|done]. by eapply lookup_lt_Some.
Qed.

Lemma rep_rule_agree σ σ' r R :
  rep_rule σ r R → (∀ l, l ∈ parts σ r → σ' !! l = σ !! l) →
  rep_rule σ' r R ∧ parts σ' r = parts σ r.
Proof.
  intros (c & Hr & Hc & Ha & Hd & Hv) Hsame.
  rewrite (parts_eq _ _ _ Hr) in Hsame.
  assert (σ' !! r = Some (RuleObj c)) as Hr'.
  { rewrite Hsame; [done|left]. }
  split; [|by rewrite (parts_eq _ _ _ Hr), (parts_eq _ _ _ Hr')].
  exists c. repeat split; try done.
  destruct (r_values c) as [v|], (values R) as [sv|]; try done.
  cbn in *. rewrite Hsame; [done|]. right. left.
Qed.

Lemma rep_rule_changes X σ σ' r R :
  rep_rule σ r R → changes_only X σ σ' →
  (∀ l, l ∈ parts σ r → l ∉ X) →
  rep_rule σ' r R ∧ parts σ' r = parts σ r.
Proof.
  intros Hr [_ Hsame] Hout. apply rep_rule_agree; [done|].
  intros l Hl. apply Hsame; [by eapply rep_rule_lt|by apply Hout].
Qed.

Lemma changes_only_prefix σ σ' : σ `prefix_of` σ' → changes_only [] σ σ'.
Proof.
  intros Hpre. split; [by apply prefix_length|].
  intros l Hl _. destruct Hpre as [k ->]. by apply lookup_app_l.
Qed.

Lemma changes_only_refl X σ : changes_only X σ σ.
Proof. by split. Qed.

Lemma changes_only_trans X σ1 σ2 σ3 :
  changes_only X σ1 σ2 → changes_only X σ2 σ3 → changes_only X σ1 σ3.
Proof.
  intros [Hl1 H1] [Hl2 H2]. split; [lia|].
  intros l Hl HX. rewrite H2, H1; [done..|lia|done].
Qed.

Lemma changes_only_weaken X Y σ σ' :
  changes_only X σ σ' → (∀ l, l ∈ X → l ∈ Y) → changes_only Y σ σ'.
Proof. intros [Hl H] HXY. split; [done|]. intros l ? ?. apply H; auto. Qed.

Lemma changes_only_alloc X σ o : changes_only X σ (σ ++ [o]).
Proof.
  split; [rewrite length_app; lia|]. intros l Hl _. by apply lookup_app_l.
Qed.

Lemma changes_only_put σ l o : changes_only [l] σ (<[l:=o]> σ).
Proof.
  split; [by rewrite length_insert|]. intros l' _ Hl'.
  apply list_lookup_insert_ne. intros ->. apply Hl'. left.
Qed.

Lemma rep_rules_changes X σ σ' (rs : list loc) (Rs : list PolicyRule) :
  Forall2 (rep_rule σ) rs Rs → changes_only X σ σ' →
  (∀ l, l ∈ concat (parts σ <$> rs) → l ∉ X) →
  Forall2 (rep_rule σ') rs Rs ∧ parts σ' <$> rs = parts σ <$> rs.
Proof.
  intros Hrs Hch. induction Hrs as [|r R rs Rs Hr Hrs IH]; intros Hout.
  - by split.
  - cbn [fmap list_fmap concat] in Hout.
    destruct (rep_rule_changes X σ σ' r R) as [Hr' Hp]; [done..| |].
    { intros l Hl. apply Hout, elem_of_app. by left. }
    destruct IH as [Hrs' Hps].
    { intros l Hl. apply Hout, elem_of_app. by right. }
    split; [by constructor|]. cbn [fmap list_fmap]. by rewrite Hp, Hps.
Qed.

Lemma rep_rules_lt σ (rs : list loc) (Rs : list PolicyRule) l :
  Forall2 (rep_rule σ) rs Rs → l ∈ concat (parts σ <$> rs) → l < length σ.
Proof.
  induction 1 as [|r R rs Rs Hr Hrs IH]; cbn [fmap list_fmap concat].
  - by intros ?%elem_of_nil.
  - intros [Hl|Hl]%elem_of_app; [by eapply rep_rule_lt|by apply IH].
Qed.

(** *** Reading *)

Lemma read_rule_eq σ r R : rep_rule σ r R → read_rule r σ = (inl R, σ).
Proof.
  intros (c & Hr & Hc & Ha & Hd & Hv). unfold read_rule.
  rewrite (bind_eq _ _ _ _ _ (get_rule_eq _ _ _ Hr)).
  destruct R as [Rc Ra Rd Rv]. cbn in *. subst.
  destruct (r_values c) as [v|], Rv as [sv|]; try done; cbn.
  unfold mbind at 1, M_bind. unfold mbind at 1, M_bind.
  by rewrite (get_values_eq _ _ _ Hv).
Qed.

Lemma read_rule_inv σ r R σ' :
  read_rule r σ = (inl R, σ') → σ' = σ ∧ rep_rule σ r R.
Proof.
  unfold read_rule, get_rule, get, mbind, M_bind.
  destruct (σ !! r) as [[rs|c|sv]|] eqn:Hr; try done. cbn.
  unfold read_values, get_values, get, mbind, M_bind, mret, M_ret.
  destruct (r_values c) as [v|] eqn:Hv.
  - destruct (σ !! v) as [[rs|c'|sv]|] eqn:Hlv; try done.
    intros [= <- <-]. split; [done|]. exists c. cbn. by rewrite Hv.
  - intros [= <- <-]. split; [done|]. exists c. cbn. by rewrite Hv.
Qed.

Lemma read_rules_eq σ (rs : list loc) (Rs : list PolicyRule) :
  Forall2 (rep_rule σ) rs Rs → read_rules rs σ = (inl Rs, σ).
Proof.
  induction 1 as [|r R rs Rs Hr Hrs IH]; [done|]. cbn [read_rules].
  rewrite (bind_eq _ _ _ _ _ (read_rule_eq _ _ _ Hr)).
  by rewrite (bind_eq _ _ _ _ _ IH).
Qed.

Lemma read_rules_inv σ (rs : list loc) (Rs : list PolicyRule) σ' :
  read_rules rs σ = (inl Rs, σ') → σ' = σ ∧ Forall2 (rep_rule σ) rs Rs.
Proof.
  revert Rs σ'. induction rs as [|r rs IH]; intros Rs σ'; cbn [read_rules].
  - intros [= <- <-]. by split.
  - unfold mbind at 1, M_bind.
    destruct (read_rule r σ) as [[R|e] σ1] eqn:Hr; [|done].
    apply read_rule_inv in Hr as [-> Hr].
    unfold mbind at 1, M_bind.
    destruct (read_rules rs σ) as [[Rs'|e] σ2] eqn:Hrs; [|done].
    destruct (IH Rs' σ2 eq_refl) as [-> Hrs']. intros [= <- <-].
    split; [done|]. by constructor.
Qed.

Lemma represents_rep σ policy (P : Policy) :
  represents σ policy P ↔ rep σ policy P.
Proof.
  unfold represents, rep, value_of, objects_of, read_policy. split.
  - intros [Hv Hnd]. unfold get_policy, get, mbind, M_bind in Hv.
    destruct (σ !! policy) as [[rs|c|sv]|] eqn:Hp; try done. cbn in Hv.
    destruct (read_rules rs σ) as [[Rs|e] σ1] eqn:Hrs; [|done].
    apply read_rules_inv in Hrs as [-> Hrs]. cbn in Hv.
    injection Hv as <-. by exists rs.
  - intros (rs & Hp & Hrs & Hnd). rewrite Hp. split; [|done].
    rewrite (bind_eq _ _ _ _ _ (get_policy_eq _ _ _ Hp)).
    rewrite (bind_eq _ _ _ _ _ (read_rules_eq _ _ _ Hrs)). cbn.
    by destruct P.
Qed.

(** *** The read-only steps *)

Lemma filter_rules_eq (keep : option string → bool) σ
    (rs : list loc) (Rs : list PolicyRule) :
  Forall2 (rep_rule σ) rs Rs →
  filter_rules keep rs σ = (inl (select keep rs Rs), σ).
Proof.
  induction 1 as [|r R rs Rs (c & Hr & Hc & _) Hrs IH]; [done|].
  cbn [filter_rules select].
  rewrite (bind_eq _ _ _ _ _ (get_rule_eq _ _ _ Hr)).
  rewrite (bind_eq _ _ _ _ _ IH). by rewrite Hc.
Qed.

Lemma select_rep (keep : option string → bool) σ
    (rs : list loc) (Rs : list PolicyRule) :
  Forall2 (rep_rule σ) rs Rs →
  Forall2 (rep_rule σ) (select keep rs Rs)
          (filter (λ R, keep (condition R) = true) Rs).
Proof.
  induction 1 as [|r R rs Rs Hr Hrs IH]; [constructor|].
  cbn [select]. rewrite filter_cons.
  destruct (keep (condition R)) eqn:E.
  - rewrite decide_True by done. by constructor.
  - rewrite decide_False by done. done.
Qed.

Lemma select_sublist (keep : option string → bool)
    (rs : list loc) (Rs : list PolicyRule) :
  select keep rs Rs `sublist_of` rs.
Proof.
  revert Rs. induction rs as [|r rs IH]; intros [|R Rs]; cbn [select];
    try apply sublist_nil_l.
  destruct (keep _); [by apply sublist_skip|by apply sublist_cons].
Qed.

Lemma existing_value_lists_eq σ (rs : list loc) (Rs : list PolicyRule) :
  Forall2 (rep_rule σ) rs Rs →
  existing_value_lists rs σ
  = (inl (omap (λ rule, allowedValues <$> values rule) Rs), σ).
Proof.
  induction 1 as [|r R rs Rs (c & Hr & _ & _ & _ & Hv) Hrs IH]; [done|].
  cbn [existing_value_lists omap list_omap].
  rewrite (bind_eq _ _ _ _ _ (get_rule_eq _ _ _ Hr)).
  destruct (r_values c) as [v|], (values R) as [sv|]; try done; cbn.
  rewrite (bind_eq _ _ _ _ _ (get_values_eq _ _ _ Hv)).
  by rewrite (bind_eq _ _ _ _ _ IH).
Qed.

End rep_facts.

Lemma scan_rules_eq (σ : Store.store) (rs : list Store.loc) (Rs : list PolicyRule) :
  Forall2 (Store.rep_rule σ) rs Rs →
  Store.scan_rules rs σ = (inl (scan_rules Rs), σ).
Proof.
  induction 1 as [|r R rs Rs (c & Hr & _ & Ha & Hd & _) Hrs IH]; [done|].
  cbn [Store.scan_rules scan_rules].
  rewrite (bind_eq _ _ _ _ _ (get_rule_eq _ _ _ Hr)). rewrite Ha, Hd.
  destruct (truthy (allowAll R)); [done|]. by destruct (truthy (denyAll R)).
Qed.

(** ** [copy.deepcopy] of a policy that is a tree *)

Section deepcopy_facts.
Import Store.
Implicit Types (σ : store) (r l : loc) (R : PolicyRule) (m : memo).

Lemma alloc_eq σ o : alloc o σ = (inl (length σ), σ ++ [o]).
Proof. done. Qed.

Lemma lookup_alloc σ o : (σ ++ [o]) !! length σ = Some o.
Proof. by rewrite list_lookup_middle. Qed.

Lemma rep_rule_prefix σ σ' r R :
  rep_rule σ r R → σ `prefix_of` σ' →
  rep_rule σ' r R ∧ parts σ' r = parts σ r.
Proof.
  intros Hr Hpre. eapply rep_rule_changes;
    [done|by apply changes_only_prefix|]. intros l _. apply not_elem_of_nil.
Qed.

Lemma rep_rules_prefix σ σ' (rs : list loc) (Rs : list PolicyRule) :
  Forall2 (rep_rule σ) rs Rs → σ `prefix_of` σ' →
  Forall2 (rep_rule σ') rs Rs ∧ parts σ' <$> rs = parts σ <$> rs.
Proof.
  intros Hrs Hpre. eapply rep_rules_changes;
    [done|by apply changes_only_prefix|]. intros l _. apply not_elem_of_nil.
Qed.

Lemma copy_rule_sim m σ r R :
  rep_rule σ r R → (∀ l, l ∈ parts σ r → m !! l = None) →
  ∃ r' m' σ', copy_rule m r σ = (inl (r', m'), σ') ∧
    σ `prefix_of` σ' ∧ rep_rule σ' r' R ∧
    (∀ l, l ∈ parts σ' r' → length σ ≤ l < length σ') ∧
    NoDup (parts σ' r') ∧
    (∀ l, l ∉ parts σ r → m' !! l = m !! l).
Proof.
  intros (c & Hr & Hc & Ha & Hd & Hv) Hm.
  rewrite (parts_eq _ _ _ Hr) in *.
  unfold copy_rule. rewrite (Hm r) by left.
  rewrite (bind_eq _ _ _ _ _ (get_rule_eq _ _ _ Hr)).
  destruct (r_values c) as [v|] eqn:Ev, (values R) as [sv|] eqn:ER; try done;
    cbn in Hv, Hm |- *.
  - (* the rule has a value message *)
    unfold copy_values. rewrite (Hm v) by (right; left).
    set (σ1 := σ ++ [ValuesObj sv]).
    set (c' := mkFields (r_condition c) (r_allowAll c) (r_denyAll c)
                        (Some (length σ))).
    exists (length σ1), (<[r:=length σ1]> (<[v:=length σ]> m)),
      (σ1 ++ [RuleObj c']).
    assert ((σ1 ++ [RuleObj c']) !! length σ1 = Some (RuleObj c')) as Hnew
      by apply lookup_alloc.
    assert ((σ1 ++ [RuleObj c']) !! length σ = Some (ValuesObj sv)) as Hval.
    { rewrite lookup_app_l by (unfold σ1; rewrite length_app; cbn; lia).
      apply lookup_alloc. }
    split; [|split; [|split; [|split; [|split]]]].
    + unfold mbind, M_bind. by rewrite (get_values_eq _ _ _ Hv).
    + unfold σ1. rewrite <- app_assoc. by apply prefix_app_r.
    + exists c'. rewrite ER. by repeat split.
    + rewrite (parts_eq _ _ _ Hnew). cbn. unfold σ1.
      intros l. rewrite !length_app. cbn.
      rewrite !elem_of_cons, elem_of_nil. lia.
    + rewrite (parts_eq _ _ _ Hnew). cbn. unfold σ1. rewrite length_app. cbn.
      apply NoDup_cons. split; [|apply NoDup_singleton].
      rewrite list_elem_of_singleton. lia.
    + intros l Hl. rewrite !not_elem_of_cons in Hl.
      destruct Hl as (? & ? & _). by rewrite !lookup_insert_ne by congruence.
  - (* the rule has none *)
    set (c' := mkFields (r_condition c) (r_allowAll c) (r_denyAll c) None).
    exists (length σ), (<[r:=length σ]> m), (σ ++ [RuleObj c']).
    assert ((σ ++ [RuleObj c']) !! length σ = Some (RuleObj c')) as Hnew
      by apply lookup_alloc.
    split; [|split; [|split; [|split; [|split]]]].
    + done.
    + by apply prefix_app_r.
    + exists c'. rewrite ER. by repeat split.
    + rewrite (parts_eq _ _ _ Hnew). cbn. intros l.
      rewrite list_elem_of_singleton, length_app. cbn. lia.
    + rewrite (parts_eq _ _ _ Hnew). cbn. apply NoDup_singleton.
    + intros l Hl. rewrite not_elem_of_cons in Hl.
      destruct Hl as (? & _). by rewrite lookup_insert_ne by congruence.
Qed.

Lemma copy_rules_sim m σ (rs : list loc) (Rs : list PolicyRule) :
  Forall2 (rep_rule σ) rs Rs →
  NoDup (concat (parts σ <$> rs)) →
  (∀ l, l ∈ concat (parts σ <$> rs) → m !! l = None) →
  ∃ rs' m' σ', copy_rules m rs σ = (inl (rs', m'), σ') ∧
    σ `prefix_of` σ' ∧ Forall2 (rep_rule σ') rs' Rs ∧
    (∀ l, l ∈ concat (parts σ' <$> rs') → length σ ≤ l < length σ') ∧
    NoDup (concat (parts σ' <$> rs')).
Proof.
  revert m σ Rs. induction rs as [|r rs IH]; intros m σ Rs Hrs Hnd Hm.
  - apply Forall2_nil_inv_l in Hrs as ->.
    exists [], m, σ. split; [done|]. split; [done|]. split; [constructor|].
    split; [by intros l ?%elem_of_nil|constructor].
  - apply Forall2_cons_inv_l in Hrs as (R & Rs' & Hr & Hrs & ->).
    cbn [fmap list_fmap concat] in Hnd, Hm.
    apply NoDup_app in Hnd as (Hnd_r & Hdisj & Hnd_rs).
    destruct (copy_rule_sim m σ r R) as
      (r' & m1 & σ1 & Heq & Hpre & Hr' & Hrange & Hnd' & Hm1); [done|..].
    { intros l Hl. apply Hm, elem_of_app. by left. }
    destruct (rep_rules_prefix σ σ1 rs Rs' Hrs Hpre) as [Hrs1 Hparts].
    destruct (IH m1 σ1 Rs') as
      (rs' & m2 & σ2 & Heq2 & Hpre2 & Hrs' & Hrange2 & Hnd2); [done|..].
    { by rewrite Hparts. }
    { rewrite Hparts. intros l Hl. rewrite Hm1.
      - apply Hm, elem_of_app. by right.
      - intros Hl'. by eapply Hdisj. }
    destruct (rep_rule_prefix σ1 σ2 r' R Hr' Hpre2) as [Hr2 Hparts2].
    exists (r' :: rs'), m2, σ2.
    split; [|split; [|split; [|split]]].
    + cbn [copy_rules]. rewrite (bind_eq _ _ _ _ _ Heq). cbn.
      by rewrite (bind_eq _ _ _ _ _ Heq2).
    + by etrans.
    + by constructor.
    + cbn [fmap list_fmap concat]. rewrite Hparts2.
      apply prefix_length in Hpre, Hpre2.
      intros l [Hl|Hl]%elem_of_app.
      * apply Hrange in Hl. lia.
      * apply Hrange2 in Hl. lia.
    + cbn [fmap list_fmap concat]. rewrite Hparts2.
      apply NoDup_app. split; [done|]. split; [|done].
      intros l Hl Hl'. apply Hrange in Hl. apply Hrange2 in Hl'. lia.
Qed.

Lemma deepcopy_sim σ policy (P : Policy) :
  rep σ policy P →
  ∃ q σ', deepcopy policy σ = (inl q, σ') ∧ σ `prefix_of` σ' ∧ rep σ' q P.
Proof.
  intros (rs & Hp & Hrs & Hnd). apply NoDup_cons in Hnd as [_ Hnd].
  destruct (copy_rules_sim ∅ σ rs (rules P)) as
    (rs' & m' & σ1 & Heq & Hpre & Hrs' & Hrange & Hnd'); [done..| |].
  { intros l _. apply lookup_empty. }
  exists (length σ1), (σ1 ++ [PolicyObj rs']).
  assert (σ1 `prefix_of` σ1 ++ [PolicyObj rs']) as Hpre1
    by by apply prefix_app_r.
  destruct (rep_rules_prefix _ _ _ _ Hrs' Hpre1) as [Hrs1 Hparts].
  split; [|split].
  - unfold deepcopy. rewrite (bind_eq _ _ _ _ _ (get_policy_eq _ _ _ Hp)).
    by rewrite (bind_eq _ _ _ _ _ Heq).
  - by etrans.
  - exists rs'. split; [apply lookup_alloc|]. split; [done|].
    rewrite Hparts. apply NoDup_cons. split; [|done].
    intros Hl. apply Hrange in Hl. lia.
Qed.
End deepcopy_facts.

(** ** The remove workflow on objects *)

Section remove_sim.
Import Store(loc, store, memo, object(..), exn(..), rule_fields(..), M, wp,
  r_condition, r_allowAll, r_denyAll, r_values,
  throw, alloc, get, put, get_policy, get_rule, get_values, deepcopy,
  read_rule, read_rules, filter_rules, remove_in_rule, remove_loop,
  existing_value_lists, append_missing, set_values, rep_values, rep_rule,
  parts, rep, changes_only, select, agrees).
Implicit Types (σ : store) (r l : loc) (R : PolicyRule).
Context (d : direction) (vs : list string) (cond : option string).

Lemma remove_in_rule_sim σ r R :
  rep_rule σ r R →
  let R' := if decide (condition R = cond)
            then remove_values_from_rule d vs R else R in
  let keep := if decide (condition R = cond)
              then negb (dead_rule R') else true in
  ∃ σ', remove_in_rule d vs cond r σ = (inl keep, σ') ∧
    rep_rule σ' r R' ∧ changes_only (parts σ r) σ σ' ∧
    parts σ' r = parts σ r.
Proof.
  intros Hrep. pose proof Hrep as (c & Hr & Hc & Ha & Hd & Hv).
  cbn zeta. unfold remove_in_rule.
  rewrite (bind_eq _ _ _ _ _ (get_rule_eq _ _ _ Hr)). rewrite Hc.
  destruct (decide (condition R = cond)) as [Hcond|Hcond].
  2:{ exists σ. split; [done|]. split; [done|]. split; [|done].
      apply changes_only_refl. }
  rewrite (bind_eq _ _ _ _ _ (read_rule_eq _ _ _ Hrep)).
  unfold remove_values_from_rule.
  destruct (r_values c) as [v|] eqn:Ev, (values R) as [sv|] eqn:ER; try done;
    cbn in Hv.
  - cbn [values].
    match goal with |- context [put v (ValuesObj ?x)] => set (sv' := x) end.
    assert (v < length σ) as Hlt by (by eapply lookup_lt_Some).
    assert (r ≠ v) as Hne by (intros ->; congruence).
    exists (<[v:=ValuesObj sv']> σ). split; [|split; [|split]].
    + by rewrite (bind_eq _ _ _ _ _ (put_eq _ _ _ Hlt)).
    + exists c. rewrite list_lookup_insert_ne by done.
      repeat split; try done. rewrite Ev. cbn.
      by rewrite list_lookup_insert_eq.
    + eapply changes_only_weaken; [apply changes_only_put|].
      intros l ->%list_elem_of_singleton. rewrite (parts_eq _ _ _ Hr), Ev.
      right. left.
    + unfold parts. by rewrite list_lookup_insert_ne.
  - exists σ. split; [done|]. split; [|split; [apply changes_only_refl|done]].
    exists c. rewrite Ev, ER. by repeat split.
Qed.

Lemma remove_loop_sim σ (rs : list loc) (Rs : list PolicyRule) :
  Forall2 (rep_rule σ) rs Rs →
  NoDup (concat (parts σ <$> rs)) →
  ∃ kept σ', remove_loop d vs cond rs σ = (inl kept, σ') ∧
    Forall2 (rep_rule σ') kept (remove_workflow d vs cond Rs) ∧
    changes_only (concat (parts σ <$> rs)) σ σ' ∧
    kept `sublist_of` rs ∧
    parts σ' <$> rs = parts σ <$> rs.
Proof.
  revert σ Rs. induction rs as [|r rs IH]; intros σ Rs Hrs Hnd.
  - apply Forall2_nil_inv_l in Hrs as ->. exists [], σ.
    split; [done|]. split; [constructor|].
    split; [apply changes_only_refl|done].
  - apply Forall2_cons_inv_l in Hrs as (R & Rs' & Hr & Hrs & ->).
    cbn [fmap list_fmap concat] in Hnd |- *.
    apply NoDup_app in Hnd as (Hnd_r & Hdisj & Hnd_rs).
    destruct (remove_in_rule_sim σ r R Hr) as (σ1 & Heq & Hr1 & Hch1 & Hp1).
    cbn zeta in Heq, Hr1.
    destruct (rep_rules_changes _ σ σ1 rs Rs' Hrs Hch1) as [Hrs1 Hps1].
    { intros l Hl Hl'. by eapply Hdisj. }
    destruct (IH σ1 Rs' Hrs1) as (kept & σ2 & Heq2 & Hkept & Hch2 & Hsub & Hps2).
    { by rewrite Hps1. }
    rewrite Hps1 in Hch2.
    destruct (rep_rule_changes _ σ1 σ2 r _ Hr1 Hch2) as [Hr2 Hp2].
    { rewrite Hp1. intros l Hl Hl'. by eapply Hdisj. }
    eexists _, σ2. split; [|split; [|split; [|split]]].
    + cbn [remove_loop]. rewrite (bind_eq _ _ _ _ _ Heq).
      by rewrite (bind_eq _ _ _ _ _ Heq2).
    + cbn [remove_workflow].
      destruct (decide (condition R = cond)); [|by constructor].
      destruct (dead_rule _); cbn; [done|by constructor].
    + eapply changes_only_trans.
      * eapply changes_only_weaken; [exact Hch1|].
        intros l Hl. apply elem_of_app. by left.
      * eapply changes_only_weaken; [exact Hch2|].
        intros l Hl. apply elem_of_app. by right.
    + destruct (if decide (condition R = cond) then _ else true);
        [by apply sublist_skip|by apply sublist_cons].
    + by rewrite Hp2, Hp1, Hps2, Hps1.
Qed.
End remove_sim.

Section policy_sim.
Import Store(loc, store, memo, object(..), exn(..), rule_fields(..), M, wp,
  r_condition, r_allowAll, r_denyAll, r_values,
  throw, alloc, get, put, get_policy, get_rule, get_values, deepcopy,
  read_rule, read_rules, filter_rules, remove_in_rule, remove_loop,
  existing_value_lists, append_missing, set_values, rep_values, rep_rule,
  parts, rep, changes_only, select, agrees).
Implicit Types (σ : store) (r l q : loc) (R : PolicyRule).

Lemma concat_fmap_sublist {A B} (f : A → list B) (k l : list A) :
  k `sublist_of` l → concat (f <$> k) `sublist_of` concat (f <$> l).
Proof.
  induction 1 as [|x k l _ IH|x k l _ IH]; cbn [fmap list_fmap concat].
  - done.
  - by apply sublist_app.
  - by apply sublist_inserts_l.
Qed.

(** Assigning a selection of its rules to the [rules] field of a policy. *)
Lemma rep_put_sublist σ q (rs kept : list loc) (Ks : list PolicyRule) :
  σ !! q = Some (PolicyObj rs) →
  NoDup (q :: concat (parts σ <$> rs)) →
  kept `sublist_of` rs →
  Forall2 (rep_rule σ) kept Ks →
  put q (PolicyObj kept) σ = (inl (), <[q:=PolicyObj kept]> σ) ∧
  rep (<[q:=PolicyObj kept]> σ) q (mkPolicy Ks).
Proof.
  intros Hq Hnd Hsub Hkept.
  assert (q < length σ) as Hlt by (by eapply lookup_lt_Some).
  split; [by apply put_eq|].
  apply NoDup_cons in Hnd as [Hq_out Hnd].
  pose proof (concat_fmap_sublist (parts σ) _ _ Hsub) as Hsub'.
  destruct (rep_rules_changes [q] σ (<[q:=PolicyObj kept]> σ) kept Ks)
    as [Hkept' Hps]; [done|apply changes_only_put| |].
  { intros l Hl ->%list_elem_of_singleton. apply Hq_out.
    by eapply (sublist_subseteq _ _ Hsub'). }
  exists kept. split; [by apply list_lookup_insert_eq|]. split; [done|].
  rewrite Hps. apply NoDup_cons. split.
  - intros Hl. apply Hq_out. by eapply (sublist_subseteq _ _ Hsub').
  - by eapply sublist_NoDup.
Qed.

Lemma remove_workflow_sim d vs cond σ policy (P : Policy) :
  rep σ policy P →
  ∃ q σ', Store.remove_workflow d vs cond policy σ = (inl q, σ') ∧
    rep σ' q (mkPolicy (remove_workflow d vs cond (rules P))).
Proof.
  intros Hrep.
  destruct (deepcopy_sim _ _ _ Hrep) as (q & σ1 & Hcopy & _ & rs & Hq & Hrs & Hnd).
  pose proof Hnd as [Hq_out Hnd_rs]%NoDup_cons.
  destruct (remove_loop_sim d vs cond σ1 rs (rules P) Hrs Hnd_rs)
    as (kept & σ2 & Hloop & Hkept & Hch & Hsub & Hps).
  assert (σ2 !! q = Some (PolicyObj rs)) as Hq2.
  { destruct Hch as [_ Hsame]. rewrite Hsame; [done| |done].
    by eapply lookup_lt_Some. }
  destruct (rep_put_sublist σ2 q rs kept
              (remove_workflow d vs cond (rules P)) Hq2) as [Hput Hrep'];
    [|done..|].
  { by rewrite Hps. }
  exists q, (<[q:=PolicyObj kept]> σ2). split; [|done].
  unfold Store.remove_workflow.
  rewrite (bind_eq _ _ _ _ _ Hcopy).
  rewrite (bind_eq _ _ _ _ _ (get_policy_eq _ _ _ Hq)).
  rewrite (bind_eq _ _ _ _ _ Hloop).
  by rewrite (bind_eq _ _ _ _ _ Hput).
Qed.
End policy_sim.

(** ** Assignments to a rule object *)

Section rule_updates.
Import Store(loc, store, memo, object(..), exn(..), rule_fields(..), M, wp,
  r_condition, r_allowAll, r_denyAll, r_values, M_ret, M_bind,
  throw, alloc, get, put, get_policy, get_rule, get_values, deepcopy,
  read_rule, read_rules, filter_rules, remove_in_rule, remove_loop,
  existing_value_lists, append_missing, set_values, rep_values, rep_rule,
  parts, rep, changes_only, select, agrees).
Implicit Types (σ : store) (r l q t : loc) (R T : PolicyRule).

(** Assigning to fields of a rule object other than [values]. *)
Lemma put_rule_sim σ t T (c' : rule_fields) :
  rep_rule σ t T →
  (∀ c, σ !! t = Some (RuleObj c) → r_values c' = r_values c) →
  let σ' := <[t:=RuleObj c']> σ in
  put t (RuleObj c') σ = (inl (), σ') ∧
  rep_rule σ' t (mkRule (r_condition c') (r_allowAll c') (r_denyAll c') (values T)) ∧
  changes_only (parts σ t) σ σ' ∧ parts σ' t = parts σ t.
Proof.
  intros (c & Ht & Hc & Ha & Hd & Hv) Hvals. specialize (Hvals c Ht). cbn zeta.
  assert (t < length σ) as Hlt by (by eapply lookup_lt_Some).
  assert (<[t:=RuleObj c']> σ !! t = Some (RuleObj c')) as Ht'
    by (by apply list_lookup_insert_eq).
  split; [by apply put_eq|]. split; [|split].
  - exists c'. split; [done|]. repeat split. rewrite Hvals.
    destruct (r_values c) as [v|], (values T) as [sv|]; try done. cbn in *.
    rewrite list_lookup_insert_ne; [done|]. intros ->. congruence.
  - eapply changes_only_weaken; [apply changes_only_put|].
    intros l ->%list_elem_of_singleton. rewrite (parts_eq _ _ _ Ht). left.
  - by rewrite (parts_eq _ _ _ Ht), (parts_eq _ _ _ Ht'), Hvals.
Qed.

Lemma set_allowAll_sim σ t T (a : option bool) :
  rep_rule σ t T →
  ∃ σ', Store.set_allowAll t a σ = (inl (), σ') ∧
    rep_rule σ' t (mkRule (condition T) a (denyAll T) (values T)) ∧
    changes_only (parts σ t) σ σ' ∧ parts σ' t = parts σ t.
Proof.
  intros Hrep. pose proof Hrep as (c & Ht & Hc & Ha & Hd & Hv).
  destruct (put_rule_sim σ t T
              (mkFields (r_condition c) a (r_denyAll c) (r_values c)) Hrep)
    as (Hput & Hrep' & Hch & Hp).
  { intros c0 Hc0. rewrite Ht in Hc0. by injection Hc0 as <-. }
  cbn zeta in *. refine (ex_intro _ _ (conj _ (conj _ (conj Hch Hp)))).
  - unfold Store.set_allowAll.
    rewrite (bind_eq _ _ _ _ _ (get_rule_eq _ _ _ Ht)). exact Hput.
  - rewrite <- Hc, <- Hd. exact Hrep'.
Qed.

Lemma set_denyAll_sim σ t T (a : option bool) :
  rep_rule σ t T →
  ∃ σ', Store.set_denyAll t a σ = (inl (), σ') ∧
    rep_rule σ' t (mkRule (condition T) (allowAll T) a (values T)) ∧
    changes_only (parts σ t) σ σ' ∧ parts σ' t = parts σ t.
Proof.
  intros Hrep. pose proof Hrep as (c & Ht & Hc & Ha & Hd & Hv).
  destruct (put_rule_sim σ t T
              (mkFields (r_condition c) (r_allowAll c) a (r_values c)) Hrep)
    as (Hput & Hrep' & Hch & Hp).
  { intros c0 Hc0. rewrite Ht in Hc0. by injection Hc0 as <-. }
  cbn zeta in *. refine (ex_intro _ _ (conj _ (conj _ (conj Hch Hp)))).
  - unfold Store.set_denyAll.
    rewrite (bind_eq _ _ _ _ _ (get_rule_eq _ _ _ Ht)). exact Hput.
  - rewrite <- Hc, <- Ha. exact Hrep'.
Qed.

Lemma append_missing_sim σ t T (missing : list string) :
  rep_rule σ t T →
  ∃ σ', append_missing t missing σ = (inl (), σ') ∧
    rep_rule σ' t (add_missing missing T) ∧
    changes_only (parts σ t) σ σ' ∧
    (∀ l, l ∈ parts σ' t → l ∈ parts σ t ∨ length σ ≤ l) ∧
    NoDup (parts σ' t).
Proof.
  intros (c & Ht & Hc & Ha & Hd & Hv).
  assert (t < length σ) as Hlt by (by eapply lookup_lt_Some).
  unfold append_missing, add_missing.
  rewrite (bind_eq _ _ _ _ _ (get_rule_eq _ _ _ Ht)).
  destruct (r_values c) as [v|] eqn:Ev, (values T) as [sv|] eqn:ET; try done;
    cbn in Hv; cbn [default].
  - (* the value message exists *)
    assert (v < length σ) as Hltv by (by eapply lookup_lt_Some).
    assert (t ≠ v) as Hne by (intros ->; congruence).
    set (sv' := mkValues (allowedValues sv ++ missing) (deniedValues sv)).
    exists (<[v:=ValuesObj sv']> σ).
    assert (<[v:=ValuesObj sv']> σ !! t = Some (RuleObj c)) as Ht'
      by (by rewrite list_lookup_insert_ne).
    split; [|split; [|split; [|split]]].
    + rewrite (bind_eq (mret v) _ σ v σ eq_refl).
      rewrite (bind_eq _ _ _ _ _ (get_values_eq _ _ _ Hv)).
      by apply put_eq.
    + exists c. split; [done|]. repeat split; try done. rewrite Ev. cbn.
      by apply list_lookup_insert_eq.
    + eapply changes_only_weaken; [apply changes_only_put|].
      intros l ->%list_elem_of_singleton. rewrite (parts_eq _ _ _ Ht), Ev.
      right. left.
    + rewrite (parts_eq _ _ _ Ht), (parts_eq _ _ _ Ht'). auto.
    + rewrite (parts_eq _ _ _ Ht'), Ev. cbn.
      apply NoDup_cons. split; [|apply NoDup_singleton].
      by intros ->%list_elem_of_singleton.
  - (* a value message is created *)
    set (v := length σ).
    set (σ1 := σ ++ [ValuesObj (mkValues [] [])]).
    set (c' := mkFields (r_condition c) (r_allowAll c) (r_denyAll c) (Some v)).
    set (σ2 := <[t:=RuleObj c']> σ1).
    set (sv' := mkValues ([] ++ missing) []).
    set (σ3 := <[v:=ValuesObj sv']> σ2).
    assert (t ≠ v) as Hne by (unfold v; lia).
    assert (length σ1 = S (length σ)) as Hlen1
      by (unfold σ1; rewrite length_app; cbn; lia).
    assert (σ1 !! t = Some (RuleObj c)) as Ht1
      by (unfold σ1; by rewrite lookup_app_l).
    assert (σ2 !! v = Some (ValuesObj (mkValues [] []))) as Hv2.
    { unfold σ2. rewrite list_lookup_insert_ne by done. apply lookup_alloc. }
    assert (σ3 !! t = Some (RuleObj c')) as Ht3.
    { unfold σ3, σ2. rewrite list_lookup_insert_ne by done.
      apply list_lookup_insert_eq. lia. }
    assert (σ3 !! v = Some (ValuesObj sv')) as Hv3.
    { unfold σ3. apply list_lookup_insert_eq. unfold σ2.
      rewrite length_insert. unfold v. lia. }
    exists σ3. split; [|split; [|split; [|split]]].
    + assert (set_values t (Some v) σ1 = (inl (), σ2)) as Hset.
      { unfold set_values.
        rewrite (bind_eq _ _ _ _ _ (get_rule_eq _ _ _ Ht1)). apply put_eq. lia. }
      assert ((alloc (ValuesObj (mkValues [] []))
               ≫= λ v0, set_values t (Some v0) ≫= λ _, mret v0) σ
              = (inl v, σ2)) as Hinner.
      { rewrite (bind_eq _ _ _ _ _ (alloc_eq _ _)). fold v σ1.
        by rewrite (bind_eq _ _ _ _ _ Hset). }
      rewrite (bind_eq _ _ _ _ _ Hinner).
      rewrite (bind_eq _ _ _ _ _ (get_values_eq _ _ _ Hv2)).
      apply put_eq. unfold σ2. rewrite length_insert. unfold v. lia.
    + exists c'. split; [done|]. by repeat split.
    + split.
      * unfold σ3, σ2. rewrite !length_insert. lia.
      * intros l Hl Hout. rewrite (parts_eq _ _ _ Ht), Ev in Hout.
        cbn in Hout. apply not_elem_of_cons in Hout as [Hlt' _].
        unfold σ3, σ2, σ1. rewrite !list_lookup_insert_ne by (unfold v; lia).
        by apply lookup_app_l.
    + rewrite (parts_eq _ _ _ Ht3). cbn.
      intros l [->|[->|?%elem_of_nil]%elem_of_cons]%elem_of_cons; [|by right|done].
      left. rewrite (parts_eq _ _ _ Ht). left.
    + rewrite (parts_eq _ _ _ Ht3). cbn.
      apply NoDup_cons. split; [|apply NoDup_singleton].
      by intros ->%list_elem_of_singleton.
Qed.
End rule_updates.

(** ** Assignments to a policy object *)

Section policy_updates.
Import Store(loc, store, memo, object(..), exn(..), rule_fields(..), M, wp,
  r_condition, r_allowAll, r_denyAll, r_values, M_ret, M_bind,
  throw, alloc, get, put, get_policy, get_rule, get_values, deepcopy,
  read_rule, read_rules, filter_rules, remove_in_rule, remove_loop,
  existing_value_lists, append_missing, set_values, rep_values, rep_rule,
  parts, rep, changes_only, select, agrees).
Implicit Types (σ : store) (r l q t : loc) (R T : PolicyRule).

(** One rule object of a policy changes, and what it takes in is new. *)
Lemma rep_update_rule σ σ' q (pre_l suf_l : list loc) t
    (pre suf : list PolicyRule) T T' :
  σ !! q = Some (PolicyObj (pre_l ++ t :: suf_l)) →
  NoDup (q :: concat (parts σ <$> (pre_l ++ t :: suf_l))) →
  Forall2 (rep_rule σ) pre_l pre → rep_rule σ t T →
  Forall2 (rep_rule σ) suf_l suf →
  changes_only (parts σ t) σ σ' →
  rep_rule σ' t T' →
  (∀ l, l ∈ parts σ' t → l ∈ parts σ t ∨ length σ ≤ l) →
  NoDup (parts σ' t) →
  rep σ' q (mkPolicy (pre ++ T' :: suf)).
Proof.
  intros Hq Hnd Hpre Ht Hsuf Hch Ht' Hnew Hnd'.
  rewrite fmap_app, fmap_cons, concat_app, concat_cons in Hnd.
  apply NoDup_cons in Hnd as [Hq_out Hnd].
  rewrite !not_elem_of_app in Hq_out. destruct Hq_out as (Hq1 & Hq2 & Hq3).
  apply NoDup_app in Hnd as (Hnd1 & Hd1 & Hnd).
  apply NoDup_app in Hnd as (Hnd2 & Hd2 & Hnd3).
  assert (q < length σ) as Hqlt by (by eapply lookup_lt_Some).
  destruct (rep_rules_changes _ σ σ' pre_l pre Hpre Hch) as [Hpre' Hp1].
  { intros l Hl Hl'. eapply Hd1; [done|]. apply elem_of_app. by left. }
  destruct (rep_rules_changes _ σ σ' suf_l suf Hsuf Hch) as [Hsuf' Hp3].
  { intros l Hl Hl'. by eapply Hd2. }
  exists (pre_l ++ t :: suf_l). split; [|split].
  - destruct Hch as [_ Hsame]. by rewrite Hsame.
  - cbn [rules]. apply Forall2_app; [done|]. by constructor.
  - rewrite fmap_app, fmap_cons, concat_app, concat_cons, Hp1, Hp3.
    assert (∀ l, l ∈ parts σ' t → l ∉ concat (parts σ <$> pre_l)) as Hout1.
    { intros l [Hl|Hl]%Hnew Hl'.
      - eapply Hd1; [done|]. apply elem_of_app. by left.
      - apply (rep_rules_lt _ _ _ _ Hpre) in Hl'. lia. }
    assert (∀ l, l ∈ parts σ' t → l ∉ concat (parts σ <$> suf_l)) as Hout3.
    { intros l [Hl|Hl]%Hnew Hl'.
      - by eapply Hd2.
      - apply (rep_rules_lt _ _ _ _ Hsuf) in Hl'. lia. }
    apply NoDup_cons. split.
    + rewrite !not_elem_of_app. split; [done|]. split; [|done].
      intros [Hl|Hl]%Hnew; [done|lia].
    + apply NoDup_app. split; [done|]. split.
      * intros l Hl [Hl'|Hl']%elem_of_app.
        -- by eapply Hout1.
        -- eapply Hd1; [done|]. apply elem_of_app. by right.
      * apply NoDup_app. split; [done|]. split; [|done].
        intros l Hl Hl'. by eapply Hout3.
Qed.

Lemma CreateRuleOnPolicy_sim σ q (P : Policy) (cond : option string) :
  rep σ q P →
  ∃ σ' rs, Store.CreateRuleOnPolicy q cond σ = (inl (length σ, q), σ') ∧
    σ' !! q = Some (PolicyObj (rs ++ [length σ])) ∧
    NoDup (q :: concat (parts σ' <$> (rs ++ [length σ]))) ∧
    Forall2 (rep_rule σ') rs (rules P) ∧
    rep_rule σ' (length σ) (new_rule cond).
Proof.
  intros (rs & Hq & Hrs & Hnd).
  set (r := length σ).
  set (c := mkFields cond None None None).
  set (σ1 := σ ++ [RuleObj c]).
  set (σ2 := <[q:=PolicyObj (rs ++ [r])]> σ1).
  assert (q < length σ) as Hqlt by (by eapply lookup_lt_Some).
  assert (σ1 !! q = Some (PolicyObj rs)) as Hq1
    by (unfold σ1; by rewrite lookup_app_l).
  assert (length σ1 = S (length σ)) as Hlen1
    by (unfold σ1; rewrite length_app; cbn; lia).
  assert (σ2 !! r = Some (RuleObj c)) as Hr2.
  { unfold σ2. rewrite list_lookup_insert_ne by (unfold r; lia).
    apply lookup_alloc. }
  apply NoDup_cons in Hnd as [Hq_out Hnd].
  assert (changes_only [q] σ σ2) as Hch.
  { eapply changes_only_trans; [apply (changes_only_alloc _ σ (RuleObj c))|].
    apply changes_only_put. }
  destruct (rep_rules_changes _ σ σ2 rs (rules P) Hrs Hch) as [Hrs2 Hps].
  { by intros l Hl ->%list_elem_of_singleton. }
  exists σ2, rs. split; [|split; [|split; [|split]]].
  - unfold Store.CreateRuleOnPolicy.
    rewrite (bind_eq _ _ _ _ _ (alloc_eq _ _)). fold r σ1.
    rewrite (bind_eq _ _ _ _ _ (get_policy_eq _ _ _ Hq1)).
    by rewrite (bind_eq _ _ _ _ _ (put_eq σ1 q _ ltac:(lia))).
  - unfold σ2. apply list_lookup_insert_eq. lia.
  - rewrite fmap_app, concat_app, Hps. cbn [fmap list_fmap concat].
    rewrite app_nil_r, (parts_eq _ _ _ Hr2). cbn.
    apply NoDup_cons. split.
    + rewrite not_elem_of_app, list_elem_of_singleton. split; [done|].
      unfold r. lia.
    + apply NoDup_app. split; [done|]. split; [|apply NoDup_singleton].
      intros l Hl ->%list_elem_of_singleton.
      apply (rep_rules_lt _ _ _ _ Hrs) in Hl. unfold r in Hl. lia.
  - done.
  - exists c. by repeat split.
Qed.

(** *** Selecting rule objects *)

Lemma select_app (keep : option string → bool) (pre_l l : list loc)
    (pre L : list PolicyRule) :
  length pre_l = length pre →
  select keep (pre_l ++ l) (pre ++ L)
  = select keep pre_l pre ++ select keep l L.
Proof.
  revert pre. induction pre_l as [|r pre_l IH]; intros [|R pre] Hlen;
    try done. cbn [app select]. injection Hlen as Hlen.
  destruct (keep _); cbn [app]; by rewrite IH.
Qed.

Lemma select_none (keep : option string → bool) (pre_l : list loc)
    (pre : list PolicyRule) :
  Forall (λ R, keep (condition R) = false) pre → select keep pre_l pre = [].
Proof.
  intros Hpre. revert pre_l.
  induction Hpre as [|R pre HR _ IH]; intros [|r pre_l]; try done.
  cbn [select]. by rewrite HR.
Qed.

Lemma GetMatchingRulesFromPolicy_eq σ q (rs : list loc) (Rs : list PolicyRule)
    (cond : option string) :
  σ !! q = Some (PolicyObj rs) → Forall2 (rep_rule σ) rs Rs →
  Store.GetMatchingRulesFromPolicy q cond σ
  = (inl (select (λ c, bool_decide (c = cond)) rs Rs), σ).
Proof.
  intros Hq Hrs. unfold Store.GetMatchingRulesFromPolicy.
  rewrite (bind_eq _ _ _ _ _ (get_policy_eq _ _ _ Hq)).
  by apply filter_rules_eq.
Qed.

Lemma GetNonMatchingRulesFromPolicy_eq σ q (rs : list loc)
    (Rs : list PolicyRule) (cond : option string) :
  σ !! q = Some (PolicyObj rs) → Forall2 (rep_rule σ) rs Rs →
  Store.GetNonMatchingRulesFromPolicy q cond σ
  = (inl (select (λ c, bool_decide (c ≠ cond)) rs Rs), σ).
Proof.
  intros Hq Hrs. unfold Store.GetNonMatchingRulesFromPolicy.
  rewrite (bind_eq _ _ _ _ _ (get_policy_eq _ _ _ Hq)).
  by apply filter_rules_eq.
Qed.

Lemma select_matching σ (rs : list loc) (Rs : list PolicyRule)
    (cond : option string) :
  Forall2 (rep_rule σ) rs Rs →
  Forall2 (rep_rule σ) (select (λ c, bool_decide (c = cond)) rs Rs)
          (filter (λ R, condition R = cond) Rs).
Proof.
  intros Hrs.
  rewrite (list_filter_iff _ (λ R, bool_decide (condition R = cond) = true)).
  - by apply (select_rep (λ c, bool_decide (c = cond))).
  - intros R. by rewrite bool_decide_eq_true.
Qed.

Lemma select_non_matching σ (rs : list loc) (Rs : list PolicyRule)
    (cond : option string) :
  Forall2 (rep_rule σ) rs Rs →
  Forall2 (rep_rule σ) (select (λ c, bool_decide (c ≠ cond)) rs Rs)
          (filter (λ R, condition R ≠ cond) Rs).
Proof.
  intros Hrs.
  rewrite (list_filter_iff _ (λ R, bool_decide (condition R ≠ cond) = true)).
  - by apply (select_rep (λ c, bool_decide (c ≠ cond))).
  - intros R. by rewrite bool_decide_eq_true.
Qed.
End policy_updates.

(** ** The workflows on objects follow the workflows on values *)

Section workflow_sim.
Import Store(loc, store, memo, object(..), exn(..), rule_fields(..), M, wp,
  r_condition, r_allowAll, r_denyAll, r_values, M_ret, M_bind,
  throw, alloc, get, put, get_policy, get_rule, get_values, deepcopy,
  read_rule, read_rules, filter_rules, remove_in_rule, remove_loop,
  existing_value_lists, append_missing, set_values, rep_values, rep_rule,
  parts, rep, changes_only, select, agrees).
Implicit Types (σ : store) (r l q t : loc) (R T : PolicyRule).

Lemma rep_rule_NoDup σ r R : rep_rule σ r R → NoDup (parts σ r).
Proof.
  intros (c & Hr & _ & _ & _ & Hv). rewrite (parts_eq _ _ _ Hr).
  destruct (r_values c) as [v|], (values R) as [sv|]; try done; cbn in *.
  - apply NoDup_cons. split; [|apply NoDup_singleton].
    intros ->%list_elem_of_singleton. congruence.
  - apply NoDup_singleton.
Qed.

Lemma _AllowAllValues_sim σ policy (P : Policy) (args : Args) :
  rep σ policy P →
  ∃ res σ', Store._AllowAllValues policy args σ = (res, σ') ∧
    agrees (_AllowAllValues P args) res σ'.
Proof.
  intros Hrep. rewrite _AllowAllValues_eq. cbn [agrees].
  set (cond := arg_condition args).
  destruct (deepcopy_sim _ _ _ Hrep) as (q & σ1 & Hcopy & _ & rs & Hq & Hrs & Hnd).
  pose proof (GetNonMatchingRulesFromPolicy_eq σ1 q rs (rules P) cond Hq Hrs)
    as Hget.
  set (kept := select (λ c, bool_decide (c ≠ cond)) rs (rules P)) in *.
  destruct (rep_put_sublist σ1 q rs kept
              (filter (λ R, condition R ≠ cond) (rules P)) Hq Hnd)
    as [Hput Hrep2].
  { apply select_sublist. }
  { by apply select_non_matching. }
  set (σ2 := <[q:=PolicyObj kept]> σ1) in *.
  destruct (CreateRuleOnPolicy_sim σ2 q _ cond Hrep2)
    as (σ3 & rs3 & Hcreate & Hq3 & Hnd3 & Hrs3 & Hr3).
  cbn [rules] in Hrs3.
  destruct (set_allowAll_sim σ3 (length σ2) _ (Some true) Hr3)
    as (σ4 & Hset & Hr4 & Hch & Hp).
  exists (inl q), σ4. split.
  - unfold Store._AllowAllValues. fold cond.
    rewrite (bind_eq _ _ _ _ _ Hcopy), (bind_eq _ _ _ _ _ Hget).
    rewrite (bind_eq _ _ _ _ _ Hput), (bind_eq _ _ _ _ _ Hcreate).
    by rewrite (bind_eq _ _ _ _ _ Hset).
  - exists q. split; [done|].
    eapply (rep_update_rule σ3 σ4 q rs3 [] (length σ2) _ []); try done.
    + rewrite Hp. auto.
    + rewrite Hp. by eapply rep_rule_NoDup.
Qed.

Lemma _AddValues_sim σ policy (P : Policy) (args : Args) :
  rep σ policy P →
  ∃ res σ', Store._AddValues policy args σ = (res, σ') ∧
    agrees (_AddValues P args) res σ'.
Proof.
  intros Hrep.
  set (cond := arg_condition args).
  set (NP := RemoveDeniedValuesFromPolicy P args).
  destruct (deepcopy_sim _ _ _ Hrep) as (q0 & σ1 & Hcopy & _ & Hrep1).
  destruct (remove_workflow_sim Denied (arg_value args) cond _ _ _ Hrep1)
    as (q & σ2 & Hremove & Hrep2).
  fold (RemoveDeniedValuesFromPolicy P args) in Hrep2. fold NP in Hrep2.
  pose proof Hrep2 as (rs & Hq & Hrs & Hnd).
  pose proof (GetMatchingRulesFromPolicy_eq σ2 q rs (rules NP) cond Hq Hrs)
    as Hget.
  pose proof (select_matching σ2 rs (rules NP) cond Hrs) as Hsel.
  fold (GetMatchingRulesFromPolicy NP cond) in Hsel.
  set (sel := select (λ c, bool_decide (c = cond)) rs (rules NP)) in *.
  pose proof (existing_value_lists_eq σ2 sel _ Hsel) as Hexist.
  assert (Store._GetMissingAllowedValuesFromRules sel (arg_value args) σ2
          = (inl (_GetMissingAllowedValuesFromRules
                    (GetMatchingRulesFromPolicy NP cond) (arg_value args)), σ2))
    as Hmiss.
  { unfold Store._GetMissingAllowedValuesFromRules.
    by rewrite (bind_eq _ _ _ _ _ Hexist). }
  set (missing := _GetMissingAllowedValuesFromRules
                    (GetMatchingRulesFromPolicy NP cond) (arg_value args)) in *.
  unfold Store._AddValues, Store.RemoveDeniedValuesFromPolicy. fold cond.
  rewrite (bind_eq _ _ _ _ _ Hcopy), (bind_eq _ _ _ _ _ Hremove).
  rewrite (bind_eq _ _ _ _ _ Hget), (bind_eq _ _ _ _ _ Hmiss).
  destruct (decide (missing = [])) as [Hm|Hm].
  { (* nothing is missing *)
    rewrite (_AddValues_nothing_missing P args Hm). rewrite Hm.
    exists (inl q), σ2. split; [done|]. by exists q. }
  destruct missing as [|v0 missing0] eqn:Emissing; [done|].
  rewrite <- Emissing in *. clear Emissing v0 missing0.
  destruct (GetMatchingRulesFromPolicy NP cond) as [|T rest] eqn:Ematch.
  { (* a rule is created *)
    apply Forall2_nil_inv_r in Hsel. rewrite Hsel.
    assert (GetMatchingRulesFromPolicy NP cond = []) as Ematch' by done.
    rewrite (_AddValues_no_rule P args) by (fold NP cond; by rewrite ?Ematch').
    fold NP cond. rewrite Ematch'. fold missing. cbn [agrees].
    destruct (CreateRuleOnPolicy_sim σ2 q NP cond Hrep2)
      as (σ3 & rs3 & Hcreate & Hq3 & Hnd3 & Hrs3 & Hr3).
    destruct (append_missing_sim σ3 (length σ2) _ missing Hr3)
      as (σ4 & Happ & Hr4 & Hch & Hnew & Hnd4).
    exists (inl q), σ4. split.
    - rewrite (bind_eq _ _ _ _ _ Hcreate).
      by rewrite (bind_eq _ _ _ _ _ Happ).
    - exists q. split; [done|].
      rewrite <- add_missing_new_rule.
      by eapply (rep_update_rule σ3 σ4 q rs3 [] (length σ2) _ []). }
  (* some rule matches *)
  assert (GetMatchingRulesFromPolicy NP cond = T :: rest) as Ematch' by done.
  assert (GetMatchingRulesFromPolicy NP cond ≠ []) as Hne by (by rewrite Ematch').
  pose proof (scan_rules_eq σ2 sel _ Hsel) as Hscan.
  pose proof Hsel as (t & sel_rest & Ht & Hsel_rest & Esel)%Forall2_cons_inv_r.
  rewrite Esel. rewrite Esel in Hscan. rewrite (bind_eq _ _ _ _ _ Hscan).
  pose proof (_AddValues_scan P args) as Hcases.
  fold NP cond in Hcases. rewrite Ematch' in Hcases.
  specialize (Hcases Hm ltac:(done)).
  destruct (scan_rules (T :: rest)) eqn:Eexit.
  { rewrite Hcases. exists (inl q), σ2. split; [done|]. by exists q. }
  { rewrite Hcases. by exists (inr (Command OperationNotSupportedError)), σ2. }
  (* the first matching rule is the target *)
  clear Hcases.
  pose proof (_AddValues_target P args T rest) as Htarget.
  fold NP cond in Htarget. rewrite Ematch' in Htarget.
  destruct (Htarget Hm eq_refl Eexit) as
    (pre & suf & (Hsplit & Hpre & HT) & Hsuf & Heq).
  rewrite Heq. cbn [agrees]. clear Htarget.
  assert (Forall2 (rep_rule σ2) rs (pre ++ T :: suf)) as Hrs_split
    by (rewrite <- Hsplit; exact Hrs).
  apply Forall2_app_inv_r in Hrs_split as (pre_l & rs' & Hpre_l & Hrs' & Ers).
  apply Forall2_cons_inv_r in Hrs' as (t' & suf_l & Ht' & Hsuf_l & Ers').
  subst rs rs'.
  assert (t' = t) as ->.
  { unfold sel in Esel. rewrite Hsplit in Esel.
    rewrite select_app in Esel by (by eapply Forall2_length).
    rewrite select_none in Esel.
    - cbn [select app] in Esel. rewrite bool_decide_eq_true_2 in Esel by done.
      by injection Esel.
    - eapply Forall_impl; [exact Hpre|]. intros R HR.
      by apply bool_decide_eq_false_2. }
  destruct (set_allowAll_sim σ2 t T None Ht) as (σ3 & Hset1 & Ht3 & Hch3 & Hp3).
  destruct (set_denyAll_sim σ3 t _ None Ht3) as (σ4 & Hset2 & Ht4 & Hch4 & Hp4).
  cbn [condition allowAll denyAll values] in Ht4.
  destruct (append_missing_sim σ4 t _ missing Ht4)
    as (σ5 & Happ & Ht5 & Hch5 & Hnew & Hnd5).
  rewrite Hp3 in Hch4. rewrite Hp4, Hp3 in Hch5, Hnew.
  exists (inl q), σ5. split.
  - rewrite (bind_eq _ _ _ _ _ Hset1), (bind_eq _ _ _ _ _ Hset2).
    by rewrite (bind_eq _ _ _ _ _ Happ).
  - exists q. split; [done|]. rewrite <- add_missing_unset_flags.
    eapply (rep_update_rule σ2 σ5 q pre_l suf_l t pre suf T); try done.
    + eapply changes_only_trans; [exact Hch3|].
      eapply changes_only_trans; [exact Hch4|exact Hch5].
    + intros l [Hl|Hl]%Hnew; [by left|right].
      destruct Hch3 as [? _], Hch4 as [? _]. lia.
Qed.

Lemma UpdatePolicy_sim σ policy (P : Policy) (args : Args) :
  rep σ policy P →
  ∃ res σ', Store.UpdatePolicy policy args σ = (res, σ') ∧
    agrees (UpdatePolicy P args) res σ'.
Proof.
  intros Hrep. unfold Store.UpdatePolicy, UpdatePolicy.
  destruct (arg_value args) as [|v vs] eqn:Ev.
  - by apply _AllowAllValues_sim.
  - destruct (arg_remove args).
    + destruct (remove_workflow_sim Allowed (arg_value args)
                  (arg_condition args) _ _ _ Hrep) as (q & σ' & Heq & Hrep').
      exists (inl q), σ'. split; [done|]. by exists q.
    + by apply _AddValues_sim.
Qed.

Lemma Run_sim σ policy (P : Policy) (args : Args) :
  rep σ policy P →
  ∃ res σ', Store.Run policy args σ = (res, σ') ∧
    agrees (Run P args) res σ'.
Proof.
  intros Hrep. unfold Store.Run, Run.
  destruct (bool_decide (arg_value args = []) && arg_remove args).
  - by exists (inr (Command InvalidInputError)), σ.
  - by apply UpdatePolicy_sim.
Qed.
End workflow_sim.

(** * The workflows, end to end *)

Lemma truthy_true (b : option bool) : truthy b = true ↔ b = Some true.
Proof. destruct b as [[]|]; cbn; split; congruence. Qed.

Lemma truthy_false (b : option bool) : truthy b = false ↔ b ≠ Some true.
Proof. destruct b as [[]|]; cbn; split; congruence. Qed.

(** What is read from a policy object does not change when objects are
    added to the store. *)
Lemma value_of_rules (σ : Store.store) (policy : Store.loc) (P : Policy) :
  Store.value_of σ policy = Some P ↔
  ∃ rs, σ !! policy = Some (Store.PolicyObj rs) ∧
    Forall2 (Store.rep_rule σ) rs (rules P).
Proof.
  unfold Store.value_of, Store.read_policy. split.
  - unfold Store.get_policy, Store.get, mbind, Store.M_bind.
    destruct (σ !! policy) as [[rs|c|sv]|] eqn:Hp; try done. cbn.
    destruct (Store.read_rules rs σ) as [[Rs|e] σ1] eqn:Hrs; [|done].
    apply read_rules_inv in Hrs as [-> Hrs]. cbn.
    intros [= <-]. by exists rs.
  - intros (rs & Hp & Hrs).
    rewrite (bind_eq _ _ _ _ _ (get_policy_eq _ _ _ Hp)).
    rewrite (bind_eq _ _ _ _ _ (read_rules_eq _ _ _ Hrs)). cbn.
    by destruct P.
Qed.

Lemma value_of_prefix (σ σ' : Store.store) (policy : Store.loc) (P : Policy) :
  σ `prefix_of` σ' →
  Store.value_of σ policy = Some P → Store.value_of σ' policy = Some P.
Proof.
  intros Hpre (rs & Hp & Hrs)%value_of_rules. apply value_of_rules.
  exists rs. split.
  - by eapply prefix_lookup_Some.
  - by eapply rep_rules_prefix.
Qed.

Lemma represents_prefix (σ σ' : Store.store) (policy : Store.loc) (P : Policy) :
  σ `prefix_of` σ' →
  Store.represents σ policy P → Store.represents σ' policy P.
Proof.
  intros Hpre (rs & Hp & Hrs & Hnd)%represents_rep. apply represents_rep.
  destruct (rep_rules_prefix _ _ _ _ Hrs Hpre) as [Hrs' Hps].
  exists rs. split; [by eapply prefix_lookup_Some|]. split; [done|].
  by rewrite Hps.
Qed.

(** A run of [Run] leaves every object of the store it starts from as it
    is; what it returns, and whatever that refers to, is new. *)
Lemma Run_frame (σ σ' : Store.store) (policy : Store.loc) (args : Args)
    (res : Store.loc + Store.exn) :
  Store.Run policy args σ = (res, σ') →
  Store.extends σ σ' ∧ ∀ q, res = inl q → length σ ≤ q.
Proof.
  unfold Store.Run.
  destruct (bool_decide (arg_value args = []) && arg_remove args).
  - intros [= <- <-]. split; [apply extends_refl|done].
  - intros Heq.
    pose proof (keeps_UpdatePolicy σ policy args σ (extends_refl σ)) as Hk.
    unfold Store.wp in Hk. rewrite Heq in Hk. cbn in Hk.
    destruct Hk as [Hext Hres]. split; [done|]. by intros q ->.
Qed.

Lemma UpdatePolicy_not_invalid (σ σ' : Store.store) (policy : Store.loc)
    (args : Args) :
  Store.UpdatePolicy policy args σ
  ≠ (inr (Store.Command InvalidInputError), σ').
Proof.
  intros Heq.
  pose proof (keeps_UpdatePolicy σ policy args σ (extends_refl σ)) as Hk.
  unfold Store.wp in Hk. rewrite Heq in Hk. cbn in Hk. by destruct Hk.
Qed.

(** The run on objects and the run on values, side by side. *)
Theorem Run_simulation (σ : Store.store) (policy : Store.loc) (P : Policy)
    (args : Args) :
  Store.represents σ policy P →
  ∃ res σ', Store.Run policy args σ = (res, σ') ∧
    σ `prefix_of` σ' ∧ Store.represents σ' policy P ∧
    match Run P args with
    | Ok P' => ∃ q, res = inl q ∧ Store.represents σ' q P' ∧ length σ ≤ q
    | Raise e => res = inr (Store.Command e)
    end.
Proof.
  intros Hrep. pose proof Hrep as Hrep'%represents_rep.
  destruct (Run_sim σ policy P args Hrep') as (res & σ' & Heq & Hag).
  destruct (Run_frame _ _ _ _ _ Heq) as [[Hpre _] Hfresh].
  exists res, σ'. split; [done|]. split; [done|].
  split; [by eapply represents_prefix|].
  destruct (Run P args) as [P'|e]; [|done].
  destruct Hag as (q & -> & Hq). exists q. split; [done|].
  split; [by apply represents_rep|by apply Hfresh].
Qed.

(** * The claims *)

(** Decidable facts about concrete stores and lists, by evaluation. *)
Ltac by_computation :=
  match goal with
  | |- ?P => apply (bool_decide_unpack P); vm_compute; exact I
  end.

Lemma Run_add (policy : Policy) (args : Args) :
  arg_value args ≠ [] → arg_remove args = false →
  Run policy args = _AddValues policy args.
Proof.
  intros Hv Hr. unfold Run, UpdatePolicy. rewrite Hr, andb_false_r.
  by destruct (arg_value args).
Qed.

(** ** Rejections *)

(** The removal of values leaves the flags of the rules as they are: a
    rule it returns has the flags of a rule of the policy. *)
Lemma remove_workflow_flags (d : direction) (vs : list string)
    (cond : option string) (rs : list PolicyRule) (r : PolicyRule) :
  r ∈ remove_workflow d vs cond rs →
  ∃ r0, r0 ∈ rs ∧ allowAll r = allowAll r0 ∧ denyAll r = denyAll r0.
Proof.
  induction rs as [|x rs IH]; cbn [remove_workflow].
  - by intros ?%elem_of_nil.
  - assert (r ∈ remove_workflow d vs cond rs →
            ∃ r0, r0 ∈ x :: rs ∧ allowAll r = allowAll r0 ∧
                  denyAll r = denyAll r0) as Hrest.
    { intros (r0 & Hr0 & Hflags)%IH. exists r0. split; [by right|done]. }
    destruct (decide (condition x = cond)).
    + destruct (dead_rule (remove_values_from_rule d vs x)); [done|].
      intros [->|Hr]%elem_of_cons; [|by apply Hrest].
      exists x. split; [left|].
      by rewrite remove_values_from_rule_allowAll,
        remove_values_from_rule_denyAll.
    + intros [->|Hr]%elem_of_cons; [|by apply Hrest].
      exists x. split; [left|done].
Qed.

(** A rule with [denyAll = true] that the scan gets to ends the run with
    the exception, unless the rule has [allowAll = true] as well. *)
Lemma deny_all_reached_raises (policy : Policy) (args : Args) (r : PolicyRule) :
  arg_value args ≠ [] → arg_remove args = false →
  scan_reaches policy args r →
  denyAll r = Some true → allowAll r ≠ Some true →
  Run policy args = Raise OperationNotSupportedError.
Proof.
  intros Hv Hrem (Hm & pre & suf & Hmatch & Hpre) Hdeny Hallow.
  rewrite Run_add by done.
  rewrite _AddValues_scan; [|exact Hm|by rewrite Hmatch; destruct pre].
  rewrite Hmatch, scan_rules_app, Hpre. cbn [scan_rules].
  apply truthy_false in Hallow. apply truthy_true in Hdeny.
  by rewrite Hallow, Hdeny.
Qed.

(** C1.  On a policy of the data model, in which no rule has both
    [allowAll] and [denyAll] set to true, an add request whose scan over the
    matching rules gets as far as a rule with [denyAll = true] makes [Run]
    fail with [OperationNotSupportedError]; the run on objects raises the
    same exception, returns no policy, and the caller's policy object and
    everything in the caller's store are as they were. *)
Theorem deny_all_conflict_rejected (policy : Policy) (args : Args)
    (r : PolicyRule) :
  flags_exclusive policy →
  arg_value args ≠ [] → arg_remove args = false →
  scan_reaches policy args r →
  denyAll r = Some true →
  Run policy args = Raise OperationNotSupportedError ∧
  ∀ (σ : Store.store) (p : Store.loc),
    Store.represents σ p policy →
    ∃ σ', Store.Run p args σ
          = (inr (Store.Command OperationNotSupportedError), σ') ∧
      σ `prefix_of` σ' ∧ Store.represents σ' p policy ∧
      ∀ (l : Store.loc) (o : Store.object),
        σ !! l = Some o → σ' !! l = Some o.
Proof.
  intros Hexclusive Hv Hrem Hreach Hdeny.
  assert (allowAll r ≠ Some true) as Hallow.
  { destruct Hreach as (_ & pre & suf & Hmatch & _).
    assert (r ∈ GetMatchingRulesFromPolicy
                  (RemoveDeniedValuesFromPolicy policy args)
                  (arg_condition args)) as Hr
      by (rewrite Hmatch; apply elem_of_app; right; left).
    apply list_elem_of_filter in Hr as [_ Hr].
    apply remove_workflow_flags in Hr as (r0 & Hr0 & Ha & Hd).
    unfold flags_exclusive in Hexclusive. rewrite Forall_forall in Hexclusive.
    intros Hall. apply (Hexclusive r0 Hr0). split; congruence. }
  assert (Run policy args = Raise OperationNotSupportedError) as Hrun
    by (by apply (deny_all_reached_raises policy args r)).
  split; [done|]. intros σ p Hrep.
  destruct (Run_simulation σ p policy args Hrep)
    as (res & σ' & Heq & Hpre' & Hrep' & Hres).
  rewrite Hrun in Hres. subst res. exists σ'.
  split; [done|]. split; [done|]. split; [done|].
  intros l o Hl. by eapply prefix_lookup_Some.
Qed.

Lemma deny_all_conflict_rejected_witness :
  Run deny_policy add_A = Raise OperationNotSupportedError ∧
  ∃ σ', Store.Run 1 add_A deny_store
        = (inr (Store.Command OperationNotSupportedError), σ') ∧
    deny_store `prefix_of` σ' ∧ Store.represents σ' 1 deny_policy.
Proof.
  destruct (deny_all_conflict_rejected deny_policy add_A deny_all_rule)
    as [Hrun Hstore].
  - by_computation.
  - vm_compute. discriminate.
  - reflexivity.
  - split; [vm_compute; discriminate|]. exists [], []. split; reflexivity.
  - reflexivity.
  - split; [exact Hrun|].
    destruct (Hstore deny_store 1) as (σ' & Heq & Hpre & Hrep & _).
    + split; [reflexivity|by_computation].
    + by exists σ'.
Defined.

(** The exclusion of the flags is what the statement rests on: a rule with
    both flags set to true, which the data model leaves out, has
    [denyAll = true], is reached by the scan, and the policy is returned,
    because the scan looks at [allowAll] first. *)
Lemma deny_all_reached_but_returned :
  arg_value add_A ≠ [] ∧ arg_remove add_A = false ∧
  scan_reaches both_flags_policy add_A both_flags_rule ∧
  denyAll both_flags_rule = Some true ∧
  ¬ flags_exclusive both_flags_policy ∧
  Run both_flags_policy add_A = Ok both_flags_policy.
Proof.
  split; [vm_compute; discriminate|]. split; [reflexivity|].
  split; [|split; [reflexivity|split; [by_computation|reflexivity]]].
  split; [vm_compute; discriminate|]. exists [], []. split; reflexivity.
Qed.

(** C2.  [Run] fails with [InvalidInputError] exactly when [remove] is set
    and no value is given; on objects the exception is raised with the
    store as it was, and no other run raises it. *)
Theorem invalid_request_rejected (policy : Policy) (args : Args) :
  (Run policy args = Raise InvalidInputError ↔
   arg_remove args = true ∧ arg_value args = []) ∧
  (∀ (σ : Store.store) (p : Store.loc),
     arg_remove args = true → arg_value args = [] →
     Store.Run p args σ = (inr (Store.Command InvalidInputError), σ)) ∧
  (∀ (σ σ' : Store.store) (p : Store.loc),
     Store.Run p args σ = (inr (Store.Command InvalidInputError), σ') →
     arg_remove args = true ∧ arg_value args = [] ∧ σ' = σ).
Proof.
  split; [apply Run_raises_invalid|]. split.
  - intros σ p Hr Hv. unfold Store.Run. by rewrite Hr, Hv.
  - intros σ σ' p. unfold Store.Run.
    destruct (arg_value args) as [|v vs], (arg_remove args); cbn;
      try (by intros ?%UpdatePolicy_not_invalid).
    by intros [= <-].
Qed.

Lemma invalid_request_rejected_witness :
  Run values_policy remove_nothing = Raise InvalidInputError ∧
  Store.Run 3 remove_nothing values_store
  = (inr (Store.Command InvalidInputError), values_store).
Proof.
  destruct (invalid_request_rejected values_policy remove_nothing)
    as (Hiff & Hstore & _).
  split.
  - apply Hiff. split; reflexivity.
  - apply Hstore; reflexivity.
Defined.

(** ** The allow-all workflow *)

(** C3.  With no values requested, the policy that comes back holds the
    rules whose condition differs from the requested one, in their order,
    followed by one new rule with the requested condition and
    [allowAll = true]; that rule is the only one with the condition and it
    has no value lists. *)
Theorem allow_all_result (policy : Policy) (args : Args) :
  arg_value args = [] →
  let cond := arg_condition args in
  let result :=
    mkPolicy (filter (λ r, condition r ≠ cond) (rules policy)
              ++ [allow_all_rule cond]) in
  UpdatePolicy policy args = Ok result ∧
  (arg_remove args = false → Run policy args = Ok result) ∧
  filter (λ r, condition r = cond) (rules result) = [allow_all_rule cond] ∧
  values (allow_all_rule cond) = None.
Proof.
  intros Hv cond result.
  assert (UpdatePolicy policy args = Ok result) as Hupdate.
  { unfold UpdatePolicy. rewrite Hv. apply _AllowAllValues_eq. }
  split; [done|]. split; [|split; [apply matching_after_allow_all|done]].
  intros Hr. unfold Run. by rewrite Hv, Hr.
Qed.

Lemma allow_all_result_witness :
  Run values_policy allow_all_C
  = Ok (mkPolicy [mkRule None None None None; allow_all_rule cond_C]).
Proof.
  destruct (allow_all_result values_policy allow_all_C) as (_ & Hrun & _).
  - reflexivity.
  - apply Hrun. reflexivity.
Defined.

(** C8.  Allowing all twice for the same condition gives the policy that
    allowing all once gives, and in it exactly one rule has the condition:
    the allow-all rule. *)
Theorem allow_all_twice (policy : Policy) (args : Args) :
  ∃ once twice,
    _AllowAllValues policy args = Ok once ∧
    _AllowAllValues once args = Ok twice ∧
    twice = once ∧
    filter (λ r, condition r = arg_condition args) (rules twice)
    = [allow_all_rule (arg_condition args)].
Proof.
  eexists _, _. split; [apply _AllowAllValues_eq|].
  split; [apply _AllowAllValues_eq|]. cbn [rules].
  split; [|apply matching_after_allow_all].
  by rewrite non_matching_after_allow_all.
Qed.

(** ** Adding values *)

(** C5.  Adding the same values under the same condition a second time
    changes nothing: the second run returns the policy of the first (and
    where the first run raises, so does the pair). *)
Theorem add_values_idempotent (policy : Policy) (args : Args) :
  and_then (_AddValues policy args) (λ once, _AddValues once args)
  = _AddValues policy args.
Proof. apply _AddValues_twice. Qed.

Lemma remove_created_rule (vs m : list string) (C : option string) :
  (∀ v, v ∈ m → v ∈ vs) →
  remove_workflow Allowed vs C [with_missing (new_rule C) m] = [].
Proof.
  intros Hsub. cbn [remove_workflow]. rewrite decide_True by done.
  assert (remove_from vs ([] ++ m) = []) as Hnil.
  { apply filter_none. intros v Hv Hout. apply Hout, Hsub. by rewrite app_nil_l in Hv. }
  unfold dead_rule, remove_values_from_rule, with_missing.
  cbn [values allowAll denyAll allowedValues deniedValues new_rule
       allowed_of denied_of from_option].
  by rewrite Hnil.
Qed.

Lemma elem_of_concat_allowed (rs : list PolicyRule) (v : string) :
  v ∈ concat (allowed_of <$> rs) ↔ ∃ r, r ∈ rs ∧ v ∈ allowed_of r.
Proof.
  induction rs as [|r rs IH]; cbn [fmap list_fmap concat].
  - split; [by intros ?%elem_of_nil|]. by intros (r & ?%elem_of_nil & _).
  - rewrite elem_of_app, IH. split.
    + intros [Hv|(r' & Hr' & Hv)]; [exists r|exists r']; split; auto;
        [left|by right].
    + intros (r' & [->|Hr']%elem_of_cons & Hv); [by left|right; by exists r'].
Qed.

Lemma add_values_example (A B : string) :
  A ≠ B →
  _AddValues (mkPolicy [mkRule None None None (Some (mkValues [B] []))])
             (mkArgs [A; B; A] false None)
  = Ok (mkPolicy [mkRule None None None (Some (mkValues [B; A] []))]).
Proof.
  intros Hne.
  set (rule := mkRule None None None (Some (mkValues [B] []))).
  set (policy := mkPolicy [rule]). set (args := mkArgs [A; B; A] false None).
  assert (RemoveDeniedValuesFromPolicy policy args = policy) as Hnp.
  { apply RemoveDeniedValuesFromPolicy_fixed. constructor; [|constructor].
    intros _. by split. }
  assert (GetMatchingRulesFromPolicy policy None = [rule]) as Hmatch by done.
  assert (_GetMissingAllowedValuesFromRules [rule] [A; B; A] = [A]) as Hmiss.
  { rewrite _GetMissingAllowedValuesFromRules_spec. unfold missing_spec.
    cbn [fmap list_fmap concat allowed_of from_option values rule
         allowedValues app].
    rewrite filter_cons_True by (by intros ->%list_elem_of_singleton).
    rewrite filter_cons_False by (intros Hn; apply Hn; left).
    rewrite filter_cons_True by (by intros ->%list_elem_of_singleton).
    cbn [dedup_first]. rewrite (filter_nil (λ v, v ∉ [B])). cbn [dedup_first].
    rewrite (filter_nil (λ y, y ≠ A)).
    by rewrite filter_cons_False by (by intros Hn). }
  destruct (_AddValues_target policy args rule []) as
    (pre & suf & (Hsplit & Hpre & _) & _ & Heq).
  - cbn [arg_condition arg_value args]. rewrite Hnp, Hmatch, Hmiss. done.
  - cbn [arg_condition args]. by rewrite Hnp.
  - cbn [arg_condition args]. by rewrite Hnp, Hmatch.
  - rewrite Heq. cbn [arg_condition arg_value args] in *.
    rewrite Hnp in *. rewrite Hmatch, Hmiss.
    destruct pre as [|x pre].
    + cbn in Hsplit. injection Hsplit as <-. done.
    + cbn in Hsplit. injection Hsplit as <- Hrest.
      apply Forall_cons in Hpre as [Hx _]. done.
Qed.

(** C4.  The values that the add workflow appends are the requested values
    that no rule matching the condition allows after the removal of the
    denied values, in request order and each once, at its first occurrence;
    they go after the allowed values that the target rule has.  Adding
    [A; B; A] to a rule that allows [B] gives [B; A]. *)
Theorem add_values_appends_missing :
  (∀ (policy : Policy) (args : Args),
     let cond := arg_condition args in
     let new_policy := RemoveDeniedValuesFromPolicy policy args in
     let matching := filter (λ r, condition r = cond) (rules new_policy) in
     let missing :=
       _GetMissingAllowedValuesFromRules matching (arg_value args) in
     missing = missing_spec matching (arg_value args) ∧
     NoDup missing ∧
     missing `sublist_of` arg_value args ∧
     (∀ v, v ∈ missing ↔
           v ∈ arg_value args ∧ ∀ r, r ∈ matching → v ∉ allowed_of r) ∧
     (missing ≠ [] → matching = [] →
      _AddValues policy args =
      Ok (mkPolicy (rules new_policy
                    ++ [mkRule cond None None (Some (mkValues missing []))]))) ∧
     (missing ≠ [] → scan_rules matching = FallThrough →
      ∀ target rest, matching = target :: rest →
      ∃ pre suf, first_match_at cond (rules new_policy) pre target suf ∧
        _AddValues policy args =
        Ok (mkPolicy
              (pre ++ mkRule cond None None
                        (Some (mkValues (allowed_of target ++ missing)
                                        (denied_of target))) :: suf)))) ∧
  (∀ A B : string, A ≠ B →
     _AddValues (mkPolicy [mkRule None None None (Some (mkValues [B] []))])
                (mkArgs [A; B; A] false None)
     = Ok (mkPolicy [mkRule None None None (Some (mkValues [B; A] []))])).
Proof.
  split; [|apply add_values_example].
  intros policy args cond new_policy matching missing.
  assert (missing = missing_spec matching (arg_value args)) as Hspec
    by apply _GetMissingAllowedValuesFromRules_spec.
  split; [done|]. split; [|split; [|split; [|split]]].
  - rewrite Hspec. apply NoDup_dedup_first.
  - rewrite Hspec. unfold missing_spec.
    etrans; [apply dedup_first_sublist|apply sublist_filter].
  - intros v. unfold missing. rewrite elem_of_missing, elem_of_concat_allowed.
    split; intros [Hv Hout]; (split; [done|]).
    + intros r Hr Hin. apply Hout. by exists r.
    + intros (r & Hr & Hin). by eapply Hout.
  - intros Hm Hnone. by apply (_AddValues_no_rule policy args).
  - intros Hm Hscan target rest Hmatch.
    destruct (_AddValues_target policy args target rest Hm Hmatch)
      as (pre & suf & Hat & _ & Heq).
    { exact Hscan. }
    exists pre, suf. split; [done|]. rewrite Heq. unfold with_missing.
    destruct Hat as (_ & _ & ->). done.
Qed.

Lemma add_values_appends_missing_witness :
  ∃ pre suf,
    first_match_at cond_C
      (rules (RemoveDeniedValuesFromPolicy values_policy add_A))
      pre (mkRule cond_C (Some false) None (Some (mkValues ["B"] ["Z"]))) suf ∧
    _AddValues values_policy add_A =
    Ok (mkPolicy
          (pre ++ mkRule cond_C None None
                    (Some (mkValues (["B"] ++ ["A"]) ["Z"])) :: suf)).
Proof.
  destruct add_values_appends_missing as [Hgeneral _].
  destruct (Hgeneral values_policy add_A) as (_ & _ & _ & _ & _ & Htarget).
  apply (Htarget ltac:(vm_compute; discriminate) eq_refl _ [] eq_refl).
Defined.

(** ** The scan over the matching rules *)

Lemma scan_rules_no_flags (rs : list PolicyRule) :
  Forall (λ x, allowAll x ≠ Some true ∧ denyAll x ≠ Some true) rs ↔
  scan_rules rs = FallThrough.
Proof.
  rewrite scan_rules_FallThrough. apply Forall_proper; [|done].
  intros x. by rewrite !truthy_false.
Qed.

Lemma scan_rules_allow_all_first (pre suf : list PolicyRule) (r : PolicyRule) :
  Forall (λ x, denyAll x ≠ Some true) pre → allowAll r = Some true →
  scan_rules (pre ++ r :: suf) = ReturnAsIs.
Proof.
  intros Hpre Hr. induction Hpre as [|x pre Hx _ IH]; cbn [app scan_rules].
  - apply truthy_true in Hr. by rewrite Hr.
  - destruct (truthy (allowAll x)); [done|].
    apply truthy_false in Hx. by rewrite Hx.
Qed.

(** C6 (amended).  When some value is missing and some rule matches: if a
    matching rule has [allowAll = true] and no matching rule before it has
    [denyAll = true], the policy left by the removal of the denied values is
    returned as it is; if no matching rule has [allowAll = true] or
    [denyAll = true], the first matching rule is the target, and it comes
    back with both flags unset and the missing values after its allowed
    values. *)
Theorem add_values_target_choice (policy : Policy) (args : Args) :
  let cond := arg_condition args in
  let new_policy := RemoveDeniedValuesFromPolicy policy args in
  let matching := GetMatchingRulesFromPolicy new_policy cond in
  let missing := _GetMissingAllowedValuesFromRules matching (arg_value args) in
  missing ≠ [] → matching ≠ [] →
  (∀ pre r suf,
     matching = pre ++ r :: suf →
     Forall (λ x, denyAll x ≠ Some true) pre → allowAll r = Some true →
     _AddValues policy args = Ok new_policy) ∧
  (Forall (λ x, allowAll x ≠ Some true ∧ denyAll x ≠ Some true) matching →
   ∃ pre target suf rest,
     matching = target :: rest ∧
     first_match_at cond (rules new_policy) pre target suf ∧
     _AddValues policy args =
     Ok (mkPolicy
           (pre ++ mkRule cond None None
                     (Some (mkValues (allowed_of target ++ missing)
                                     (denied_of target))) :: suf))).
Proof.
  intros cond new_policy matching missing Hm Hne. split.
  - intros pre r suf Hmatch Hpre Hr.
    assert (_AddValues policy args =
            match scan_rules matching with
            | ReturnAsIs => Ok new_policy
            | RaiseNotSupported => Raise OperationNotSupportedError
            | FallThrough =>
                let rule_to_update :=
                  first_matching cond (rules new_policy) in
                Ok (assign rule_to_update (add_missing missing)
                      (assign rule_to_update unset_flags new_policy))
            end) as -> by (by apply _AddValues_scan).
    by rewrite Hmatch, scan_rules_allow_all_first.
  - intros Hnone%scan_rules_no_flags.
    assert (∃ target rest, matching = target :: rest)
      as (target & rest & Hmatch).
    { clear Hm Hnone. destruct matching as [|target rest]; [done|].
      by exists target, rest. }
    destruct (_AddValues_target policy args target rest Hm Hmatch Hnone)
      as (pre & suf & Hat & _ & Heq).
    exists pre, target, suf, rest. split; [done|]. split; [done|].
    rewrite Heq. unfold with_missing. destruct Hat as (_ & _ & ->). done.
Qed.

Lemma add_values_target_choice_witness :
  _AddValues allow_then_deny add_A
  = Ok (RemoveDeniedValuesFromPolicy allow_then_deny add_A) ∧
  ∃ pre target suf rest,
    GetMatchingRulesFromPolicy
      (RemoveDeniedValuesFromPolicy values_policy add_A) cond_C
    = target :: rest ∧
    first_match_at cond_C
      (rules (RemoveDeniedValuesFromPolicy values_policy add_A)) pre target suf ∧
    _AddValues values_policy add_A =
    Ok (mkPolicy
          (pre ++ mkRule cond_C None None
                    (Some (mkValues (allowed_of target ++ ["A"])
                                    (denied_of target))) :: suf)).
Proof.
  split.
  - destruct (add_values_target_choice allow_then_deny add_A) as [Hret _].
    + vm_compute. discriminate.
    + vm_compute. discriminate.
    + apply (Hret [] (allow_all_rule cond_C) [deny_all_rule]).
      * reflexivity.
      * constructor.
      * reflexivity.
  - destruct (add_values_target_choice values_policy add_A) as [_ Htarget].
    + vm_compute. discriminate.
    + vm_compute. discriminate.
    + apply Htarget. by_computation.
Defined.

(** C6 as it is stated fails in both halves.  With a deny-all rule before
    an allow-all rule for the condition, a matching rule has
    [allowAll = true] and the run raises instead of returning the policy;
    with a deny-all rule alone, no matching rule has [allowAll = true] and
    the run raises instead of taking the first matching rule as its
    target.  And where the policy is returned it need not be unchanged:
    with a rule that denies [A] before the allow-all rule, adding [A]
    returns the policy without the rule that denied [A], which the removal
    of the denied values has emptied and deleted. *)
Lemma allow_all_present_but_raised :
  (_GetMissingAllowedValuesFromRules
     (GetMatchingRulesFromPolicy
        (RemoveDeniedValuesFromPolicy deny_then_allow add_A) cond_C)
     (arg_value add_A) ≠ [] ∧
   allow_all_rule cond_C
   ∈ GetMatchingRulesFromPolicy
       (RemoveDeniedValuesFromPolicy deny_then_allow add_A) cond_C ∧
   allowAll (allow_all_rule cond_C) = Some true ∧
   _AddValues deny_then_allow add_A = Raise OperationNotSupportedError) ∧
  (_GetMissingAllowedValuesFromRules
     (GetMatchingRulesFromPolicy
        (RemoveDeniedValuesFromPolicy deny_policy add_A) cond_C)
     (arg_value add_A) ≠ [] ∧
   GetMatchingRulesFromPolicy
     (RemoveDeniedValuesFromPolicy deny_policy add_A) cond_C
   = [deny_all_rule] ∧
   allowAll deny_all_rule ≠ Some true ∧
   _AddValues deny_policy add_A = Raise OperationNotSupportedError) ∧
  (_GetMissingAllowedValuesFromRules
     (GetMatchingRulesFromPolicy denied_then_allow cond_C) (arg_value add_A)
   ≠ [] ∧
   _GetMissingAllowedValuesFromRules
     (GetMatchingRulesFromPolicy
        (RemoveDeniedValuesFromPolicy denied_then_allow add_A) cond_C)
     (arg_value add_A) ≠ [] ∧
   allow_all_rule cond_C ∈ GetMatchingRulesFromPolicy denied_then_allow cond_C ∧
   allow_all_rule cond_C
   ∈ GetMatchingRulesFromPolicy
       (RemoveDeniedValuesFromPolicy denied_then_allow add_A) cond_C ∧
   Forall (λ r, denyAll r ≠ Some true)
          (GetMatchingRulesFromPolicy denied_then_allow cond_C) ∧
   _AddValues denied_then_allow add_A = Ok (mkPolicy [allow_all_rule cond_C]) ∧
   mkPolicy [allow_all_rule cond_C] ≠ denied_then_allow).
Proof.
  split; [|split].
  - split; [vm_compute; discriminate|]. split; [by_computation|].
    split; reflexivity.
  - split; [vm_compute; discriminate|]. split; [reflexivity|].
    split; [discriminate|reflexivity].
  - split; [vm_compute; discriminate|]. split; [vm_compute; discriminate|].
    split; [by_computation|]. split; [by_computation|].
    split; [by_computation|]. split; [reflexivity|discriminate].
Qed.

(** C10.  The exit of the add workflow depends on the order of the matching
    rules.  The scan takes them in policy order and, at a rule, returns the
    policy when the rule has [allowAll = true] before it looks at
    [denyAll]; a rule with [denyAll = true] raises only when the scan gets
    to it and it has no [allowAll = true], so a raise means that no rule up
    to the raising one has [allowAll = true], and a deny-all rule after an
    allow-all rule is not looked at.  When nothing is missing there is no
    scan and no error, whatever the flags of the matching rules. *)
Theorem add_values_scan_order (policy : Policy) (args : Args) :
  let cond := arg_condition args in
  let new_policy := RemoveDeniedValuesFromPolicy policy args in
  let matching := GetMatchingRulesFromPolicy new_policy cond in
  let missing := _GetMissingAllowedValuesFromRules matching (arg_value args) in
  (missing = [] → _AddValues policy args = Ok new_policy) ∧
  (missing ≠ [] →
   (∀ pre r suf,
      matching = pre ++ r :: suf →
      Forall (λ x, allowAll x ≠ Some true ∧ denyAll x ≠ Some true) pre →
      (allowAll r = Some true → _AddValues policy args = Ok new_policy) ∧
      (allowAll r ≠ Some true → denyAll r = Some true →
       _AddValues policy args = Raise OperationNotSupportedError)) ∧
   (_AddValues policy args = Raise OperationNotSupportedError →
    ∃ pre r suf,
      matching = pre ++ r :: suf ∧ denyAll r = Some true ∧
      Forall (λ x, allowAll x ≠ Some true) (pre ++ [r])) ∧
   (∀ pre a mid r suf,
      matching = pre ++ a :: mid ++ r :: suf →
      Forall (λ x, allowAll x ≠ Some true ∧ denyAll x ≠ Some true) pre →
      allowAll a = Some true → denyAll r = Some true →
      _AddValues policy args = Ok new_policy)).
Proof.
  intros cond new_policy matching missing.
  split; [apply _AddValues_nothing_missing|]. intros Hm.
  assert (∀ pre r suf, matching = pre ++ r :: suf →
            _AddValues policy args =
            match scan_rules matching with
            | ReturnAsIs => Ok new_policy
            | RaiseNotSupported => Raise OperationNotSupportedError
            | FallThrough =>
                let rule_to_update :=
                  first_matching cond (rules new_policy) in
                Ok (assign rule_to_update (add_missing missing)
                      (assign rule_to_update unset_flags new_policy))
            end) as Hcases.
  { intros pre r suf Hmatch. apply _AddValues_scan; [done|].
    fold cond new_policy matching. rewrite Hmatch. by destruct pre. }
  split; [|split].
  - intros pre r suf Hmatch Hpre%scan_rules_no_flags.
    rewrite (Hcases _ _ _ Hmatch), Hmatch, scan_rules_app, Hpre.
    cbn [scan_rules]. split.
    + intros Ha%truthy_true. by rewrite Ha.
    + intros Ha%truthy_false Hd%truthy_true. by rewrite Ha, Hd.
  - intros Hraise.
    destruct (decide (matching = [])) as [Hnil|Hnil].
    { by rewrite (_AddValues_no_rule policy args Hm Hnil) in Hraise. }
    assert (∃ r0 rest, matching = r0 :: rest) as (r0 & rest & Hmatch).
    { clear Hm Hcases Hraise. destruct matching as [|r0 rest]; [done|].
      by exists r0, rest. }
    rewrite (Hcases [] r0 rest Hmatch) in Hraise.
    destruct (scan_rules matching) eqn:Hscan; try done.
    apply scan_rules_RaiseNotSupported in Hscan
      as (pre & r & suf & Hsplit & Hpre & Ha & Hd).
    exists pre, r, suf. split; [done|]. split; [by apply truthy_true|].
    apply Forall_app. split.
    + apply scan_rules_FallThrough in Hpre.
      eapply Forall_impl; [exact Hpre|]. intros x [Hx _]. by apply truthy_false.
    + constructor; [by apply truthy_false|constructor].
  - intros pre a mid r suf Hmatch Hpre%scan_rules_no_flags Ha%truthy_true _.
    rewrite (Hcases _ _ _ Hmatch), Hmatch, scan_rules_app, Hpre.
    cbn [scan_rules]. by rewrite Ha.
Qed.

Lemma add_values_scan_order_witness :
  _AddValues covered_deny add_A
  = Ok (RemoveDeniedValuesFromPolicy covered_deny add_A) ∧
  _AddValues allow_then_deny add_A
  = Ok (RemoveDeniedValuesFromPolicy allow_then_deny add_A) ∧
  _AddValues deny_then_allow add_A = Raise OperationNotSupportedError.
Proof.
  split; [|split].
  - destruct (add_values_scan_order covered_deny add_A) as [Hnone _].
    apply Hnone. reflexivity.
  - destruct (add_values_scan_order allow_then_deny add_A) as [_ Hscan].
    destruct Hscan as (_ & _ & Hlater); [vm_compute; discriminate|].
    apply (Hlater [] (allow_all_rule cond_C) [] deny_all_rule []);
      [reflexivity|constructor|reflexivity|reflexivity].
  - destruct (add_values_scan_order deny_then_allow add_A) as [_ Hscan].
    destruct Hscan as (Hat & _ & _); [vm_compute; discriminate|].
    destruct (Hat [] deny_all_rule [allow_all_rule cond_C]) as [_ Hraise];
      [reflexivity|constructor|].
    apply Hraise; [discriminate|reflexivity].
Defined.

(** ** The caller's policy object *)

(** C7.  Whatever the store, the policy object and the request, and whether
    the run returns or raises, [Run] leaves every object that was in the
    store as it was, so the caller's policy reads as it did before; and the
    policy returned, with every object reachable from it, is an object
    allocated by the run: none of them was in the caller's store. *)
Theorem Run_keeps_input (σ σ' : Store.store) (policy : Store.loc)
    (args : Args) (res : Store.loc + Store.exn) :
  Store.Run policy args σ = (res, σ') →
  σ `prefix_of` σ' ∧
  (∀ (l : Store.loc) (o : Store.object), σ !! l = Some o → σ' !! l = Some o) ∧
  (∀ P, Store.value_of σ policy = Some P → Store.value_of σ' policy = Some P) ∧
  (∀ q, res = inl q →
     ∀ l, Store.reachable σ' q l → length σ ≤ l ∧ σ !! l = None).
Proof.
  intros Heq. destruct (Run_frame _ _ _ _ _ Heq) as [[Hpre Hclosed] Hfresh].
  split; [done|]. split; [|split].
  - intros l o Hl. by eapply prefix_lookup_Some.
  - intros P. by apply value_of_prefix.
  - intros q Hq l Hreach.
    assert (length σ ≤ l) as Hl
      by (eapply reachable_from; [exact Hclosed|exact Hreach|by apply Hfresh]).
    split; [done|]. by apply lookup_ge_None.
Qed.

Lemma Run_keeps_input_witness :
  ∃ q σ',
    Store.Run 3 add_A values_store = (inl q, σ') ∧
    values_store `prefix_of` σ' ∧
    Store.value_of σ' 3 = Some values_policy ∧
    length values_store ≤ q.
Proof.
  eexists _, _. split; [vm_compute; reflexivity|].
  match goal with
  | |- _ `prefix_of` ?s ∧ _ ∧ _ ≤ ?q =>
      destruct (Run_keeps_input values_store s 3 add_A (inl q)
                  ltac:(vm_compute; reflexivity))
        as (Hpre & _ & Hvalue & Hfresh)
  end.
  split; [exact Hpre|]. split; [apply Hvalue; reflexivity|].
  apply (Hfresh _ eq_refl), Store.reachable_here.
Defined.

(** * More on the workflows *)

(** ** The missing values *)

Lemma dedup_first_idemp (l : list string) :
  dedup_first (dedup_first l) = dedup_first l.
Proof. apply dedup_first_NoDup_id, NoDup_dedup_first. Qed.

Lemma missing_spec_app (rs1 rs2 : list PolicyRule) (vs : list string) :
  missing_spec (rs1 ++ rs2) vs = missing_spec rs2 (missing_spec rs1 vs).
Proof.
  unfold missing_spec. rewrite fmap_app, concat_app.
  rewrite <- dedup_first_filter, dedup_first_idemp, list_filter_filter.
  f_equal. apply list_filter_iff. intros v. rewrite not_elem_of_app. tauto.
Qed.

(** X1.  Without rules, whether [rules] is [None] or the empty list, the
    missing values are the requested values, each once and where it comes
    first: the same values, none twice, in request order; a request without
    repetitions comes back as it is, and an empty request gives nothing
    whatever the rules. *)
Theorem missing_values_without_rules (vs : list string) :
  let missing := _GetMissingAllowedValuesFromRules_or_None None vs in
  _GetMissingAllowedValuesFromRules_or_None (Some []) vs = missing ∧
  missing = dedup_first vs ∧
  NoDup missing ∧
  missing `sublist_of` vs ∧
  (∀ v, v ∈ missing ↔ v ∈ vs) ∧
  (NoDup vs → missing = vs) ∧
  (∀ rules, _GetMissingAllowedValuesFromRules_or_None rules [] = []).
Proof.
  intros missing.
  assert (missing = dedup_first vs) as Heq.
  { unfold missing, _GetMissingAllowedValuesFromRules_or_None.
    rewrite _GetMissingAllowedValuesFromRules_spec. unfold missing_spec.
    cbn [fmap list_fmap concat]. f_equal.
    apply filter_all. intros v _. apply not_elem_of_nil. }
  split; [done|]. split; [done|]. rewrite Heq.
  split; [apply NoDup_dedup_first|]. split; [apply dedup_first_sublist|].
  split; [intros v; apply elem_of_dedup_first|].
  split; [apply dedup_first_NoDup_id|].
  by intros [rs|].
Qed.

Lemma missing_values_without_rules_witness :
  _GetMissingAllowedValuesFromRules_or_None None ["A"; "B"] = ["A"; "B"] ∧
  _GetMissingAllowedValuesFromRules_or_None None ["A"; "B"; "A"] = ["A"; "B"].
Proof.
  split.
  - apply (missing_values_without_rules ["A"; "B"]).
    apply (bool_decide_unpack (NoDup ["A"; "B"])). vm_compute. exact I.
  - rewrite (proj1 (proj2 (missing_values_without_rules ["A"; "B"; "A"]))).
    reflexivity.
Defined.

(** X2.  Looking for the missing values in the rules [rs1 ++ rs2] is
    looking in [rs1] and then, for what is still missing, in [rs2]; so the
    order of the rules does not matter, and what is missing from some
    rules is still missing from them. *)
Theorem missing_values_rule_by_rule (rs1 rs2 : list PolicyRule)
    (vs : list string) :
  _GetMissingAllowedValuesFromRules (rs1 ++ rs2) vs
  = _GetMissingAllowedValuesFromRules rs2
      (_GetMissingAllowedValuesFromRules rs1 vs) ∧
  _GetMissingAllowedValuesFromRules (rs1 ++ rs2) vs
  = _GetMissingAllowedValuesFromRules (rs2 ++ rs1) vs ∧
  _GetMissingAllowedValuesFromRules rs1
    (_GetMissingAllowedValuesFromRules rs1 vs)
  = _GetMissingAllowedValuesFromRules rs1 vs.
Proof.
  rewrite !_GetMissingAllowedValuesFromRules_spec.
  split; [apply missing_spec_app|]. split.
  - unfold missing_spec. f_equal. apply list_filter_iff. intros v.
    rewrite !fmap_app, !concat_app, !not_elem_of_app. tauto.
  - unfold missing_spec.
    rewrite <- dedup_first_filter, dedup_first_idemp, list_filter_filter.
    f_equal. apply list_filter_iff. tauto.
Qed.

(** X3.  The rules are read through the values they allow and nothing
    else: two lists of rules that allow the same values leave the same
    values missing, whatever their order, their flags, their denied values
    and the repetitions among them. *)
Theorem missing_values_by_allowed_set (rs rs' : list PolicyRule)
    (vs : list string) :
  (∀ v, v ∈ concat (allowed_of <$> rs) ↔ v ∈ concat (allowed_of <$> rs')) →
  _GetMissingAllowedValuesFromRules rs vs
  = _GetMissingAllowedValuesFromRules rs' vs.
Proof.
  intros Hsame. rewrite !_GetMissingAllowedValuesFromRules_spec.
  unfold missing_spec. f_equal. apply list_filter_iff. intros v.
  by rewrite Hsame.
Qed.

Lemma missing_values_by_allowed_set_witness :
  _GetMissingAllowedValuesFromRules allows_AB ["Z"; "A"; "Z"; "B"]
  = _GetMissingAllowedValuesFromRules allows_B_then_A ["Z"; "A"; "Z"; "B"].
Proof.
  apply (missing_values_by_allowed_set allows_AB allows_B_then_A).
  intros v. simpl. rewrite !elem_of_cons, !elem_of_nil. tauto.
Defined.

(** ** The outcomes of [_AddValues] *)

Section add_values_outcome.
Context (policy : Policy) (args : Args).

Local Abbreviation cond := (arg_condition args).
Local Abbreviation new_policy := (RemoveDeniedValuesFromPolicy policy args).
Local Abbreviation matching := (GetMatchingRulesFromPolicy new_policy cond).
Local Abbreviation missing :=
  (_GetMissingAllowedValuesFromRules matching (arg_value args)).

(** The four ways out of [_AddValues]: the policy as the removal of the
    denied values left it, a new rule at the end, the exception, or the
    first matching rule rewritten. *)
Lemma _AddValues_outcome :
  (_AddValues policy args = Ok new_policy ∧
   (missing = [] ∨ scan_rules matching = ReturnAsIs)) ∨
  (missing ≠ [] ∧ matching = [] ∧
   _AddValues policy args =
   Ok (mkPolicy (rules new_policy ++ [with_missing (new_rule cond) missing]))) ∨
  (missing ≠ [] ∧ scan_rules matching = RaiseNotSupported ∧
   _AddValues policy args = Raise OperationNotSupportedError) ∨
  (missing ≠ [] ∧ ∃ pre target suf,
     first_match_at cond (rules new_policy) pre target suf ∧
     matching = target :: filter (λ r, condition r = cond) suf ∧
     scan_rules matching = FallThrough ∧
     _AddValues policy args =
     Ok (mkPolicy (pre ++ with_missing target missing :: suf))).
Proof.
  destruct (decide (missing = [])) as [Hm|Hm].
  { left. split; [by apply _AddValues_nothing_missing|by left]. }
  assert (matching = [] ∨ ∃ target rest, matching = target :: rest)
    as [Hnil|(target & rest & Hmatching)].
  { destruct matching as [|t r]; [by left|right; by exists t, r]. }
  { right. left. split; [done|]. split; [done|]. by apply _AddValues_no_rule. }
  assert (matching ≠ []) as Hne by (by rewrite Hmatching).
  pose proof (_AddValues_scan policy args Hm Hne) as Hcases.
  destruct (scan_rules matching) eqn:Hscan.
  - left. split; [done|by right].
  - right. right. left. done.
  - right. right. right. split; [done|].
    destruct (_AddValues_target policy args target rest Hm Hmatching Hscan)
      as (pre & suf & Hfirst & Hsuf & Heq).
    exists pre, target, suf. rewrite Hsuf. done.
Qed.

End add_values_outcome.

Lemma elem_of_matching (policy : Policy) (cond : option string) (r : PolicyRule) :
  r ∈ GetMatchingRulesFromPolicy policy cond ↔
  r ∈ rules policy ∧ condition r = cond.
Proof.
  unfold GetMatchingRulesFromPolicy. rewrite list_elem_of_filter. tauto.
Qed.

Lemma scan_rules_ReturnAsIs_elem (rs : list PolicyRule) :
  scan_rules rs = ReturnAsIs → ∃ r, r ∈ rs ∧ allowAll r = Some true.
Proof.
  intros (pre & r & suf & -> & _ & Hr)%scan_rules_ReturnAsIs.
  exists r. split; [|by apply truthy_true].
  apply elem_of_app. right. left.
Qed.

Lemma scan_rules_RaiseNotSupported_elem (rs : list PolicyRule) :
  scan_rules rs = RaiseNotSupported → ∃ r, r ∈ rs ∧ denyAll r = Some true.
Proof.
  intros (pre & r & suf & -> & _ & _ & Hr)%scan_rules_RaiseNotSupported.
  exists r. split; [|by apply truthy_true].
  apply elem_of_app. right. left.
Qed.

(** X4.  When [_AddValues] returns a policy, the request is met in it under
    the condition: either every requested value is listed as allowed by a
    rule for the condition, or a rule for the condition allows all
    values. *)
Theorem add_values_meets_request (policy result : Policy) (args : Args) :
  _AddValues policy args = Ok result →
  (∀ v, v ∈ arg_value args → allowed_under (arg_condition args) result v) ∨
  allow_all_under (arg_condition args) result.
Proof.
  intros Hok.
  set (cond := arg_condition args).
  set (new_policy := RemoveDeniedValuesFromPolicy policy args).
  set (matching := GetMatchingRulesFromPolicy new_policy cond).
  set (missing := _GetMissingAllowedValuesFromRules matching (arg_value args)).
  assert (∀ v, v ∈ arg_value args →
               v ∈ missing ∨ ∃ r, r ∈ matching ∧ v ∈ allowed_of r) as Hsplit.
  { intros v Hv.
    destruct (decide (v ∈ concat (allowed_of <$> matching))) as [Hin|Hout].
    - right. by apply elem_of_concat_allowed.
    - left. by apply elem_of_missing. }
  destruct (_AddValues_outcome policy args)
    as [[Heq [Hm|Hscan]]|[(Hm & Hnil & Heq)|[(_ & _ & Heq)|
        (Hm & pre & target & suf & (Hrs & Hpre & Htc) & Hmatching & _ & Heq)]]];
    rewrite Heq in Hok; try discriminate; injection Hok as <-.
  - left. intros v Hv. destruct (Hsplit v Hv) as [Hin|(r & Hr & Hin)].
    + fold cond new_policy matching missing in Hm. rewrite Hm in Hin.
      by apply elem_of_nil in Hin.
    + apply elem_of_matching in Hr as [Hr Hc]. by exists r.
  - right. apply scan_rules_ReturnAsIs_elem in Hscan as (r & Hr & Hall).
    apply elem_of_matching in Hr as [Hr Hc]. by exists r.
  - left. intros v Hv. destruct (Hsplit v Hv) as [Hin|(r & Hr & Hin)].
    + exists (with_missing (new_rule cond) missing). cbn [rules].
      split; [apply elem_of_app; right; left|]. split; [done|].
      rewrite allowed_of_with_missing. apply elem_of_app. by right.
    + fold cond new_policy matching in Hnil. rewrite Hnil in Hr.
      by apply elem_of_nil in Hr.
  - left. intros v Hv.
    assert (with_missing target missing ∈
            pre ++ with_missing target missing :: suf) as Htarget
      by (apply elem_of_app; right; left).
    destruct (Hsplit v Hv) as [Hin|(r & Hr & Hin)].
    + exists (with_missing target missing). cbn [rules].
      split; [done|]. split; [done|].
      rewrite allowed_of_with_missing. apply elem_of_app. by right.
    + fold cond new_policy matching in Hmatching. rewrite Hmatching in Hr.
      apply elem_of_cons in Hr as [->|Hr].
      * exists (with_missing target missing). cbn [rules].
        split; [done|]. split; [done|].
        rewrite allowed_of_with_missing. apply elem_of_app. by left.
      * apply list_elem_of_filter in Hr as [Hc Hr]. exists r. cbn [rules].
        split; [|done]. apply elem_of_app. right. by right.
Qed.

Lemma add_values_meets_request_witness :
  (∀ v, v ∈ arg_value add_A → allowed_under cond_C
          (mkPolicy [mkRule None None None None;
                     mkRule cond_C None None (Some (mkValues ["B"; "A"] ["Z"]))])
          v) ∨
  allow_all_under cond_C
    (mkPolicy [mkRule None None None None;
               mkRule cond_C None None (Some (mkValues ["B"; "A"] ["Z"]))]).
Proof.
  apply (add_values_meets_request values_policy _ add_A). vm_compute.
  reflexivity.
Defined.

(** ** What a request leaves alone *)

Section remove_origin.
Context (d : direction) (vs : list string) (cond : option string).

(** Where a rule left by the remove workflow comes from. *)
Lemma remove_workflow_origin (rs : list PolicyRule) (r : PolicyRule) :
  r ∈ remove_workflow d vs cond rs →
  ∃ r0, r0 ∈ rs ∧
    (r = r0 ∧ condition r0 ≠ cond ∨
     r = remove_values_from_rule d vs r0 ∧ condition r0 = cond).
Proof.
  induction rs as [|x rs IH]; cbn [remove_workflow].
  - by intros ?%elem_of_nil.
  - destruct (decide (condition x = cond)) as [Hc|Hc].
    + destruct (dead_rule (remove_values_from_rule d vs x)).
      * intros (r0 & Hr0 & H)%IH. exists r0. split; [by right|done].
      * intros [->|(r0 & Hr0 & H)%IH]%elem_of_cons.
        -- exists x. split; [left|by right].
        -- exists r0. split; [by right|done].
    + intros [->|(r0 & Hr0 & H)%IH]%elem_of_cons.
      * exists x. split; [left|by left].
      * exists r0. split; [by right|done].
Qed.

(** A rule that is not dead after the removal stays, in its new form. *)
Lemma remove_workflow_keeps (rs : list PolicyRule) (r : PolicyRule) :
  r ∈ rs → condition r = cond →
  dead_rule (remove_values_from_rule d vs r) = false →
  remove_values_from_rule d vs r ∈ remove_workflow d vs cond rs.
Proof.
  intros Hr Hc Hdead. induction rs as [|x rs IH]; [by apply elem_of_nil in Hr|].
  cbn [remove_workflow]. apply elem_of_cons in Hr as [<-|Hr].
  - rewrite decide_True by done. rewrite Hdead. left.
  - destruct (decide (condition x = cond)).
    + destruct (dead_rule (remove_values_from_rule d vs x)); [by apply IH|].
      right. by apply IH.
    + right. by apply IH.
Qed.

Lemma remove_workflow_keeps_other (rs : list PolicyRule) (r : PolicyRule) :
  r ∈ rs → condition r ≠ cond → r ∈ remove_workflow d vs cond rs.
Proof.
  intros Hr Hc.
  assert (r ∈ filter (λ x, condition x ≠ cond) (remove_workflow d vs cond rs))
    as Hin.
  { rewrite remove_workflow_other. by apply list_elem_of_filter. }
  by apply list_elem_of_filter in Hin as [_ Hin].
Qed.

Lemma remove_workflow_matching_length (rs : list PolicyRule) :
  length (filter (λ r, condition r = cond) (remove_workflow d vs cond rs))
  ≤ length (filter (λ r, condition r = cond) rs).
Proof.
  induction rs as [|x rs IH]; [done|]. cbn [remove_workflow].
  destruct (decide (condition x = cond)) as [Hc|Hc].
  - rewrite (filter_cons_True _ x) by done. cbn [length].
    destruct (dead_rule (remove_values_from_rule d vs x)); [lia|].
    rewrite filter_cons_True by (by rewrite remove_values_from_rule_condition).
    cbn [length]. lia.
  - by rewrite !filter_cons_False by done.
Qed.

End remove_origin.

Lemma allowed_of_remove_denied (vs : list string) (r : PolicyRule) :
  allowed_of (remove_values_from_rule Denied vs r) = allowed_of r.
Proof. unfold remove_values_from_rule. by destruct (values r) eqn:E; unfold allowed_of; cbn; rewrite ?E. Qed.

Lemma denied_of_remove_denied (vs : list string) (r : PolicyRule) :
  denied_of (remove_values_from_rule Denied vs r) = remove_from vs (denied_of r).
Proof. unfold remove_values_from_rule. by destruct (values r) eqn:E; unfold denied_of; cbn; rewrite ?E. Qed.

Lemma allowed_of_remove_allowed (vs : list string) (r : PolicyRule) :
  allowed_of (remove_values_from_rule Allowed vs r) = remove_from vs (allowed_of r).
Proof. unfold remove_values_from_rule. by destruct (values r) eqn:E; unfold allowed_of; cbn; rewrite ?E. Qed.

Lemma denied_of_remove_allowed (vs : list string) (r : PolicyRule) :
  denied_of (remove_values_from_rule Allowed vs r) = denied_of r.
Proof. unfold remove_values_from_rule. by destruct (values r) eqn:E; unfold denied_of; cbn; rewrite ?E. Qed.

Lemma elem_of_remove_from (vs l : list string) (v : string) :
  v ∈ remove_from vs l ↔ v ∈ l ∧ v ∉ vs.
Proof. unfold remove_from. rewrite list_elem_of_filter. tauto. Qed.

Lemma filter_partition_length {A} (P : A → Prop) `{!∀ x, Decision (P x)}
    (l : list A) :
  length l = length (filter P l) + length (filter (λ x, ¬ P x) l).
Proof.
  induction l as [|x l IH]; [done|]. rewrite !filter_cons.
  destruct (decide (P x)) as [HP|HP].
  - rewrite decide_False by tauto. cbn [length]. lia.
  - rewrite decide_True by done. cbn [length]. lia.
Qed.

(** The rules for other conditions, and the number of rules for the
    condition, through [_AddValues]. *)
Lemma _AddValues_rules (policy result : Policy) (args : Args) :
  _AddValues policy args = Ok result →
  rules_not_for (arg_condition args) result
  = rules_not_for (arg_condition args)
      (RemoveDeniedValuesFromPolicy policy args) ∧
  length (rules_for (arg_condition args) result)
  = (if decide (rules_for (arg_condition args)
                  (RemoveDeniedValuesFromPolicy policy args) = []) then
       if decide (rules_for (arg_condition args) result = []) then 0 else 1
     else length (rules_for (arg_condition args)
                    (RemoveDeniedValuesFromPolicy policy args))).
Proof.
  intros Hok. unfold rules_not_for, rules_for.
  destruct (_AddValues_outcome policy args)
    as [[Heq _]|[(Hm & Hnil & Heq)|[(_ & _ & Heq)|
        (Hm & pre & target & suf & (Hrs & Hpre & Htc) & Hmatching & _ & Heq)]]];
    rewrite Heq in Hok; try discriminate; injection Hok as <-.
  - split; [done|].
    destruct (decide (filter _ (rules (RemoveDeniedValuesFromPolicy _ _)) = []))
      as [Hnil|]; [|done].
    by rewrite Hnil.
  - unfold GetMatchingRulesFromPolicy in Hnil.
    unfold RemoveDeniedValuesFromPolicy in Hnil |- *.
    cbn [rules] in Hnil |- *. rewrite !filter_app, Hnil.
    rewrite filter_cons_False by (intros H; by apply H).
    rewrite filter_cons_True by done.
    split; [by rewrite app_nil_r|].
    rewrite decide_True by done. by rewrite decide_False.
  - unfold GetMatchingRulesFromPolicy in Hmatching.
    unfold RemoveDeniedValuesFromPolicy in Hrs, Hmatching |- *.
    cbn [rules] in Hrs, Hmatching |- *. rewrite Hrs.
    rewrite !filter_app.
    rewrite !(filter_cons_False (λ r, condition r ≠ arg_condition args))
      by (intros H; by apply H).
    split; [done|].
    rewrite Hrs, filter_app in Hmatching.
    rewrite !(filter_cons_True (λ r, condition r = arg_condition args)) by done.
    rewrite decide_False; [by rewrite !length_app|].
    intros [_ ?]%app_eq_nil. done.
Qed.

(** The same through [UpdatePolicy], from the policy it is given. *)
Lemma UpdatePolicy_rules (policy result : Policy) (args : Args) :
  UpdatePolicy policy args = Ok result →
  filter (λ r, condition r ≠ arg_condition args) (rules result)
  = filter (λ r, condition r ≠ arg_condition args) (rules policy) ∧
  length (filter (λ r, condition r = arg_condition args) (rules result))
  ≤ max 1 (length (filter (λ r, condition r = arg_condition args)
                     (rules policy))).
Proof.
  unfold UpdatePolicy. destruct (arg_value args) as [|v vs] eqn:Hv.
  - rewrite _AllowAllValues_eq. intros [= <-]. cbn [rules].
    rewrite matching_after_allow_all, non_matching_after_allow_all.
    split; [done|]. cbn [length]. lia.
  - destruct (arg_remove args).
    + intros [= <-]. cbn [rules RemoveAllowedValuesFromPolicy].
      split; [apply remove_workflow_other|].
      pose proof (remove_workflow_matching_length Allowed (arg_value args)
                    (arg_condition args) (rules policy)). lia.
    + intros Hok. apply _AddValues_rules in Hok as [Hother Hlen].
      unfold rules_for, rules_not_for in Hother, Hlen.
      rewrite Hother, Hlen. cbn [rules RemoveDeniedValuesFromPolicy].
      split; [apply remove_workflow_other|].
      pose proof (remove_workflow_matching_length Denied (arg_value args)
                    (arg_condition args) (rules policy)) as Hle.
      repeat case_decide; lia.
Qed.

(** X5.  A request changes nothing outside its condition: the rules that
    [UpdatePolicy] returns for other conditions are the ones the policy had,
    as they were and in their order, and each of them is in the result. *)
Theorem other_conditions_untouched (policy result : Policy) (args : Args) :
  UpdatePolicy policy args = Ok result →
  rules_not_for (arg_condition args) result
  = rules_not_for (arg_condition args) policy ∧
  ∀ r, r ∈ rules policy → condition r ≠ arg_condition args →
       r ∈ rules result.
Proof.
  intros [Hother _]%UpdatePolicy_rules. split; [done|].
  intros r Hr Hc.
  assert (r ∈ filter (λ r, condition r ≠ arg_condition args) (rules result))
    as Hin by (rewrite Hother; by apply list_elem_of_filter).
  by apply list_elem_of_filter in Hin as [_ Hin].
Qed.

Lemma other_conditions_untouched_witness :
  rules_not_for cond_C
    (mkPolicy [mkRule None None None None;
               mkRule cond_C None None (Some (mkValues ["B"; "A"] ["Z"]))])
  = rules_not_for cond_C values_policy.
Proof.
  apply (other_conditions_untouched values_policy _ add_A). vm_compute.
  reflexivity.
Defined.

(** X6.  A request creates at most one rule, and only the first rule for
    its condition: the policy that [UpdatePolicy] returns has as many rules
    for the condition as the policy had, or fewer, or one when it had none;
    so it has at most one rule more in all. *)
Theorem at_most_one_rule_created (policy result : Policy) (args : Args) :
  UpdatePolicy policy args = Ok result →
  length (rules_for (arg_condition args) result)
  ≤ max 1 (length (rules_for (arg_condition args) policy)) ∧
  length (rules result) ≤ S (length (rules policy)).
Proof.
  intros [Hother Hfor]%UpdatePolicy_rules. split; [done|].
  rewrite (filter_partition_length (λ r, condition r = arg_condition args)
             (rules result)).
  rewrite (filter_partition_length (λ r, condition r = arg_condition args)
             (rules policy)).
  rewrite Hother. lia.
Qed.

Lemma at_most_one_rule_created_witness :
  length (rules_for cond_D
            (mkPolicy [mkRule None None None None; values_rule;
                       allow_all_rule cond_D]))
  ≤ max 1 (length (rules_for cond_D values_policy)) ∧
  length (rules (mkPolicy [mkRule None None None None; values_rule;
                           allow_all_rule cond_D]))
  ≤ S (length (rules values_policy)).
Proof.
  apply (at_most_one_rule_created values_policy _ allow_all_D). vm_compute.
  reflexivity.
Defined.

(** ** What adding keeps *)

(** A rule left by the removal of the denied values, and the rule of the
    policy it comes from. *)
Lemma RemoveDeniedValuesFromPolicy_origin (policy : Policy) (args : Args)
    (r : PolicyRule) :
  r ∈ rules (RemoveDeniedValuesFromPolicy policy args) →
  ∃ r0, r0 ∈ rules policy ∧
    condition r = condition r0 ∧ allowAll r = allowAll r0 ∧
    denyAll r = denyAll r0 ∧ allowed_of r = allowed_of r0 ∧
    (∀ v, v ∈ denied_of r → v ∈ denied_of r0) ∧
    (condition r = arg_condition args →
     ∀ v, v ∈ denied_of r → v ∉ arg_value args).
Proof.
  intros (r0 & Hr0 & [[-> Hc]|[-> Hc]])%remove_workflow_origin;
    exists r0; (split; [done|]).
  - by repeat split.
  - rewrite remove_values_from_rule_condition, remove_values_from_rule_allowAll,
      remove_values_from_rule_denyAll, allowed_of_remove_denied,
      denied_of_remove_denied.
    repeat split; intros; by eapply elem_of_remove_from.
Qed.

Lemma dead_rule_allowed (r : PolicyRule) :
  dead_rule r = true → allowed_of r = [].
Proof.
  unfold dead_rule, allowed_of. destruct (values r) as [sv|]; [|done]. cbn.
  rewrite !andb_true_iff, !bool_decide_eq_true. tauto.
Qed.

Lemma dead_rule_flags (r : PolicyRule) :
  dead_rule r = true → allowAll r = None ∧ denyAll r = None.
Proof.
  unfold dead_rule. rewrite !andb_true_iff, !bool_decide_eq_true. tauto.
Qed.

(** The removal of the denied values keeps every allowed value. *)
Lemma RemoveDeniedValuesFromPolicy_allowed (policy : Policy) (args : Args)
    (r : PolicyRule) (v : string) :
  r ∈ rules policy → v ∈ allowed_of r →
  allowed_under (condition r) (RemoveDeniedValuesFromPolicy policy args) v.
Proof.
  intros Hr Hv.
  destruct (decide (condition r = arg_condition args)) as [Hc|Hc].
  - exists (remove_values_from_rule Denied (arg_value args) r).
    rewrite remove_values_from_rule_condition, allowed_of_remove_denied.
    split; [|done]. apply remove_workflow_keeps; [done..|].
    destruct (dead_rule _) eqn:Hdead; [|done].
    apply dead_rule_allowed in Hdead.
    rewrite allowed_of_remove_denied in Hdead. rewrite Hdead in Hv.
    by apply elem_of_nil in Hv.
  - exists r. split; [|done]. by apply remove_workflow_keeps_other.
Qed.

(** X7.  Adding values takes no allowed value away: a value that a rule of
    the policy lists as allowed is listed as allowed, under the same
    condition, in the policy that [_AddValues] returns. *)
Theorem add_values_keeps_allowed (policy result : Policy) (args : Args)
    (r : PolicyRule) (v : string) :
  _AddValues policy args = Ok result →
  r ∈ rules policy → v ∈ allowed_of r →
  allowed_under (condition r) result v.
Proof.
  intros Hok Hr Hv.
  destruct (RemoveDeniedValuesFromPolicy_allowed policy args r v Hr Hv)
    as (r1 & Hr1 & Hc1 & Hv1).
  destruct (_AddValues_outcome policy args)
    as [[Heq _]|[(Hm & Hnil & Heq)|[(_ & _ & Heq)|
        (Hm & pre & target & suf & (Hrs & Hpre & Htc) & Hmatching & _ & Heq)]]];
    rewrite Heq in Hok; try discriminate; injection Hok as <-.
  - by exists r1.
  - exists r1. split; [|done]. cbn [rules]. apply elem_of_app. by left.
  - rewrite Hrs in Hr1.
    apply elem_of_app in Hr1 as [Hr1|[->|Hr1]%elem_of_cons].
    + exists r1. split; [|done]. cbn [rules]. apply elem_of_app. by left.
    + eexists. split; [cbn [rules]; apply elem_of_app; right; left|].
      split; [done|]. rewrite allowed_of_with_missing. apply elem_of_app.
      by left.
    + exists r1. split; [|done]. cbn [rules]. apply elem_of_app. right.
      by right.
Qed.

Lemma add_values_keeps_allowed_witness :
  allowed_under cond_C
    (mkPolicy [mkRule None None None None;
               mkRule cond_C None None (Some (mkValues ["B"; "A"] ["Z"]))])
    "B".
Proof.
  apply (add_values_keeps_allowed values_policy _ add_A values_rule "B").
  - vm_compute. reflexivity.
  - right. left.
  - left.
Defined.

(** The rules of the policy that [UpdatePolicy] returns: each is a rule of
    the policy with some of its values removed, or the rule that allows
    all, or a rule whose allowed values are those of a rule of the policy
    followed by new values, all requested, none denied in it and none
    twice. *)
Lemma UpdatePolicy_rule (policy result : Policy) (args : Args) (r : PolicyRule) :
  UpdatePolicy policy args = Ok result → r ∈ rules result →
  values r = None ∨
  ∃ r0 added,
    (r0 ∈ rules policy ∨ values r0 = None) ∧
    (∃ kept, kept `sublist_of` allowed_of r0 ∧ allowed_of r = kept ++ added) ∧
    (∀ v, v ∈ denied_of r → v ∈ denied_of r0) ∧
    NoDup added ∧
    (∀ v, v ∈ added → (v ∉ allowed_of r0) ∧ (v ∉ denied_of r)).
Proof.
  unfold UpdatePolicy. destruct (arg_value args) as [|x xs] eqn:Hvalue.
  { rewrite _AllowAllValues_eq. intros [= <-]. cbn [rules].
    intros Hr. apply elem_of_app in Hr as [Hr|Hr];
      [apply list_elem_of_filter in Hr as [_ Hr]
      |apply list_elem_of_singleton in Hr; left; by subst r].
    right. exists r, []. split; [by left|]. split.
    - exists (allowed_of r). by rewrite app_nil_r.
    - split; [done|]. split; [constructor|]. by intros v ?%elem_of_nil. }
  destruct (arg_remove args).
  { intros [= <-]. cbn [rules RemoveAllowedValuesFromPolicy].
    intros (r0 & Hr0 & [[-> Hc]|[-> Hc]])%remove_workflow_origin; right;
      exists r0, []; (split; [by left|]).
    - split; [exists (allowed_of r0); by rewrite app_nil_r|].
      split; [done|]. split; [constructor|]. by intros v ?%elem_of_nil.
    - rewrite allowed_of_remove_allowed, denied_of_remove_allowed.
      split; [exists (remove_from (arg_value args) (allowed_of r0)); split;
                [apply sublist_filter|by rewrite app_nil_r]|].
      split; [done|]. split; [constructor|]. by intros v ?%elem_of_nil. }
  intros Hok Hr.
  assert (∀ r1, r1 ∈ rules (RemoveDeniedValuesFromPolicy policy args) →
            ∃ r0, r0 ∈ rules policy ∧ allowed_of r1 = allowed_of r0 ∧
              (∀ v, v ∈ denied_of r1 → v ∈ denied_of r0) ∧
              (condition r1 = arg_condition args →
               ∀ v, v ∈ denied_of r1 → v ∉ arg_value args)) as Horigin.
  { intros r1 (r0 & Hr0 & _ & _ & _ & Ha & Hd & Hvs)%RemoveDeniedValuesFromPolicy_origin.
    by exists r0. }
  assert (∀ r1, r1 ∈ rules (RemoveDeniedValuesFromPolicy policy args) →
            ∃ r0 added,
              (r0 ∈ rules policy ∨ values r0 = None) ∧
              (∃ kept, kept `sublist_of` allowed_of r0 ∧
                 allowed_of r1 = kept ++ added) ∧
              (∀ v, v ∈ denied_of r1 → v ∈ denied_of r0) ∧
              NoDup added ∧
              (∀ v, v ∈ added → (v ∉ allowed_of r0) ∧ (v ∉ denied_of r1)))
    as Hsame.
  { intros r1 (r0 & Hr0 & Ha & Hd & _)%Horigin. exists r0, [].
    split; [by left|]. rewrite Ha.
    split; [exists (allowed_of r0); by rewrite app_nil_r|].
    split; [done|]. split; [constructor|]. by intros v ?%elem_of_nil. }
  assert (∀ rs v,
            v ∈ _GetMissingAllowedValuesFromRules rs (arg_value args) →
            v ∈ arg_value args ∧ ∀ r1, r1 ∈ rs → v ∉ allowed_of r1) as Hmissing.
  { intros rs v [Hv Hout]%elem_of_missing. split; [done|].
    intros r1 Hr1 Hin. apply Hout, elem_of_concat_allowed. by exists r1. }
  destruct (_AddValues_outcome policy args)
    as [[Heq _]|[(Hm & Hnil & Heq)|[(_ & _ & Heq)|
        (Hm & pre & target & suf & (Hrs & Hpre & Htc) & Hmatching & _ & Heq)]]];
    rewrite Heq in Hok; try discriminate; injection Hok as <-.
  - right. by apply Hsame.
  - cbn [rules] in Hr.
    apply elem_of_app in Hr as [Hr|Hr];
      [right; by apply Hsame|apply list_elem_of_singleton in Hr; subst r].
    right. eexists (new_rule (arg_condition args)), _.
    split; [by right|]. rewrite allowed_of_with_missing.
    split; [exists []; by split|]. split; [done|].
    split; [rewrite _GetMissingAllowedValuesFromRules_spec;
            apply NoDup_dedup_first|].
    intros v _. split; apply not_elem_of_nil.
  - cbn [rules] in Hr.
    assert (target ∈ rules (RemoveDeniedValuesFromPolicy policy args))
      as Htarget by (rewrite Hrs; apply elem_of_app; right; left).
    apply elem_of_app in Hr as [Hr|[->|Hr]%elem_of_cons].
    + right. apply Hsame. rewrite Hrs. apply elem_of_app. by left.
    + right. destruct (Horigin _ Htarget) as (r0 & Hr0 & Ha & Hd & Hvs).
      eexists r0, _. split; [by left|]. rewrite allowed_of_with_missing.
      split; [exists (allowed_of r0); by rewrite Ha|].
      split; [done|].
      split; [rewrite _GetMissingAllowedValuesFromRules_spec;
              apply NoDup_dedup_first|].
      intros v [Hv Hout]%Hmissing. split.
      * rewrite <- Ha. apply Hout. rewrite Hmatching. left.
      * intros Hden. by apply (Hvs Htc v).
    + right. apply Hsame. rewrite Hrs. apply elem_of_app. right. by right.
Qed.

Lemma NoDup_sublist_app (kept l added : list string) :
  kept `sublist_of` l → NoDup l → NoDup added →
  (∀ v, v ∈ added → v ∉ l) → NoDup (kept ++ added).
Proof.
  intros Hsub Hl Hadded Hout. apply NoDup_app. split; [|split; [|done]].
  - by apply (sublist_NoDup kept l).
  - intros v Hv Hin. apply (Hout v Hin). by eapply sublist_subseteq.
Qed.

(** X8.  No workflow makes a rule list a value twice: when no rule of the
    policy lists a value twice as allowed, none of the policy that
    [UpdatePolicy] returns does. *)
Theorem allowed_values_stay_unique (policy result : Policy) (args : Args) :
  UpdatePolicy policy args = Ok result →
  allowed_unique policy → allowed_unique result.
Proof.
  intros Hok Hinv r Hr.
  destruct (UpdatePolicy_rule _ _ _ _ Hok Hr)
    as [Hnone|(r0 & added & Hr0 & (kept & Hsub & ->) & _ & Hadded & Hout)].
  { unfold allowed_of. rewrite Hnone. constructor. }
  apply (NoDup_sublist_app kept (allowed_of r0)); [done| |done|].
  - destruct Hr0 as [Hr0|Hnone]; [by apply Hinv|].
    unfold allowed_of. rewrite Hnone. constructor.
  - intros v Hv. by apply Hout.
Qed.

Lemma allowed_values_stay_unique_witness :
  allowed_unique
    (mkPolicy [mkRule None None None None;
               mkRule cond_C None None (Some (mkValues ["B"; "A"] ["Z"]))]).
Proof.
  apply (allowed_values_stay_unique values_policy _ add_A).
  - vm_compute. reflexivity.
  - intros r Hr. unfold values_policy in Hr. cbn [rules] in Hr.
    apply elem_of_cons in Hr as [->|Hr]; [constructor|].
    apply list_elem_of_singleton in Hr as ->.
    apply (bool_decide_unpack (NoDup ["B"])). vm_compute. exact I.
Defined.

(** X9.  No workflow makes a rule both allow and deny a value: when no
    rule of the policy lists a value as allowed and as denied, none of the
    policy that [UpdatePolicy] returns does. *)
Theorem allowed_stays_apart_from_denied (policy result : Policy) (args : Args) :
  UpdatePolicy policy args = Ok result →
  allowed_apart_from_denied policy → allowed_apart_from_denied result.
Proof.
  intros Hok Hinv r v Hr Hv Hden.
  destruct (UpdatePolicy_rule _ _ _ _ Hok Hr)
    as [Hnone|(r0 & added & Hr0 & (kept & Hsub & Heq) & Hd & _ & Hout)].
  { unfold allowed_of in Hv. rewrite Hnone in Hv. by apply elem_of_nil in Hv. }
  rewrite Heq in Hv. apply elem_of_app in Hv as [Hv|Hv].
  - destruct Hr0 as [Hr0|Hnone].
    + apply (Hinv r0 v Hr0); [by eapply sublist_subseteq|by apply Hd].
    + apply Hd in Hden. unfold denied_of in Hden. rewrite Hnone in Hden.
      by apply elem_of_nil in Hden.
  - by apply (Hout v Hv).
Qed.

Lemma allowed_stays_apart_from_denied_witness :
  allowed_apart_from_denied
    (mkPolicy [mkRule None None None None;
               mkRule cond_C None None (Some (mkValues ["B"; "A"] ["Z"]))]).
Proof.
  apply (allowed_stays_apart_from_denied values_policy _ add_A).
  - vm_compute. reflexivity.
  - intros r v Hr. unfold values_policy in Hr. cbn [rules] in Hr.
    apply elem_of_cons in Hr as [->|Hr]; [by intros ?%elem_of_nil|].
    apply list_elem_of_singleton in Hr as ->.
    unfold allowed_of, denied_of, values_rule.
    cbn [values from_option allowedValues deniedValues].
    intros Hv. apply list_elem_of_singleton in Hv as ->.
    apply (bool_decide_unpack ("B" ∉ ["A"; "Z"])). vm_compute. exact I.
Defined.

(** ** Requests one after another *)

(** What [_AddValues] leaves: nothing that the removal of the denied
    values would change, and the request met, by the allowed values of the
    rules for the condition or by a rule that ends the scan. *)
Lemma _AddValues_post (policy once : Policy) (args : Args) :
  _AddValues policy args = Ok once →
  Forall (settled Denied (arg_value args) (arg_condition args)) (rules once) ∧
  ((∀ v, v ∈ arg_value args →
      v ∈ concat (allowed_of <$>
                    filter (λ r, condition r = arg_condition args) (rules once))) ∨
   scan_rules (filter (λ r, condition r = arg_condition args) (rules once))
   = ReturnAsIs).
Proof.
  intros Hok.
  pose proof (RemoveDeniedValuesFromPolicy_settled policy args) as Hsettled.
  assert (∀ rs v, v ∈ arg_value args →
            v ∈ concat (allowed_of <$> rs) ∨
            v ∈ _GetMissingAllowedValuesFromRules rs (arg_value args))
    as Hsplit.
  { intros rs v Hv.
    destruct (decide (v ∈ concat (allowed_of <$> rs))); [by left|].
    right. by apply elem_of_missing. }
  pose proof (_AddValues_outcome policy args) as Hout.
  unfold GetMatchingRulesFromPolicy, RemoveDeniedValuesFromPolicy in Hout, Hsettled.
  cbn [rules] in Hout, Hsettled.
  set (new_rules := remove_workflow Denied (arg_value args) (arg_condition args)
                      (rules policy)) in *.
  set (matching := filter (λ r, condition r = arg_condition args) new_rules) in *.
  destruct Hout
    as [[Heq [Hm|Hscan]]|[(Hm & Hnil & Heq)|[(_ & _ & Heq)|
        (Hm & pre & target & suf & (Hrs & Hpre & Htc) & Hmatching & _ & Heq)]]];
    rewrite Heq in Hok; try discriminate; injection Hok as <-; cbn [rules].
  - split; [done|]. left. intros v Hv.
    destruct (Hsplit matching v Hv) as [Hin|Hin]; [done|].
    rewrite Hm in Hin. by apply elem_of_nil in Hin.
  - split; [done|]. by right.
  - split.
    + apply Forall_app. split; [done|]. constructor; [|constructor].
      by apply settled_with_missing.
    + left. intros v Hv. rewrite filter_app. fold matching. rewrite Hnil.
      rewrite filter_cons_True by done.
      cbn [app fmap list_fmap concat].
      rewrite app_nil_r, allowed_of_with_missing. apply elem_of_app. right.
      destruct (Hsplit [] v Hv) as [Hin|Hin]; [|done].
      by apply elem_of_nil in Hin.
  - rewrite Hrs in Hsettled.
    apply Forall_app in Hsettled as [Hspre Hssuf].
    apply Forall_cons in Hssuf as [Hst Hssuf]. split.
    + apply Forall_app. split; [done|]. constructor; [|done].
      apply settled_with_missing; [done|]. by apply Hst.
    + left. intros v Hv. rewrite filter_app.
      rewrite (filter_none _ pre); [|by apply Forall_forall].
      rewrite filter_cons_True by done.
      cbn [app fmap list_fmap concat]. rewrite allowed_of_with_missing.
      destruct (Hsplit matching v Hv) as [Hin|Hin].
      * rewrite Hmatching in Hin. cbn [fmap list_fmap concat] in Hin.
        rewrite !elem_of_app in *. tauto.
      * rewrite !elem_of_app. tauto.
Qed.

Lemma remove_denied_fixed_iff (vs : list string) (r : PolicyRule) :
  remove_values_from_rule Denied vs r = r ↔ ∀ v, v ∈ denied_of r → v ∉ vs.
Proof.
  unfold remove_values_from_rule, denied_of.
  destruct r as [c a b [[al de]|]]; cbn; [|split; [by intros _ v ?%elem_of_nil|done]].
  split.
  - intros [= Hde] v Hv. rewrite <- Hde in Hv.
    by apply elem_of_remove_from in Hv as [_ Hv].
  - intros Hall. do 3 f_equal. by apply filter_all.
Qed.

Lemma settled_subset (vs ws : list string) (cond : option string)
    (r : PolicyRule) :
  (∀ v, v ∈ ws → v ∈ vs) →
  settled Denied vs cond r → settled Denied ws cond r.
Proof.
  intros Hsub Hs Hc. destruct (Hs Hc) as [Hfix Hdead]. split; [|done].
  apply remove_denied_fixed_iff. intros v Hv Hin.
  by apply (proj1 (remove_denied_fixed_iff vs r) Hfix v Hv), Hsub.
Qed.

(** X10.  Once values have been added under a condition, adding any of them
    again under that condition changes nothing, whatever the order and the
    repetitions of the second request: [_AddValues] returns the policy it is
    given. *)
Theorem add_subset_again_changes_nothing (policy once : Policy)
    (args args' : Args) :
  _AddValues policy args = Ok once →
  arg_condition args' = arg_condition args →
  (∀ v, v ∈ arg_value args' → v ∈ arg_value args) →
  _AddValues once args' = Ok once.
Proof.
  intros Hok Hcond Hsub. apply _AddValues_post in Hok as [Hsettled Hmet].
  assert (Forall (settled Denied (arg_value args') (arg_condition args'))
            (rules once)) as Hsettled'.
  { rewrite Hcond. eapply Forall_impl; [exact Hsettled|].
    intros r. by apply settled_subset. }
  destruct Hmet as [Hcovered|Hscan].
  - apply _AddValues_nothing_to_do; [done|]. rewrite Hcond.
    intros v Hv. by apply Hcovered, Hsub.
  - pose proof (RemoveDeniedValuesFromPolicy_fixed once args' Hsettled') as Hfix.
    destruct (decide (_GetMissingAllowedValuesFromRules
                        (GetMatchingRulesFromPolicy
                           (RemoveDeniedValuesFromPolicy once args')
                           (arg_condition args'))
                        (arg_value args') = [])) as [Hm|Hm].
    + rewrite _AddValues_nothing_missing by done. by rewrite Hfix.
    + rewrite _AddValues_scan; [| done |].
      * rewrite Hfix. unfold GetMatchingRulesFromPolicy.
        by rewrite Hcond, Hscan.
      * rewrite Hfix. unfold GetMatchingRulesFromPolicy. rewrite Hcond.
        intros Hnil. by rewrite Hnil in Hscan.
Qed.

Lemma add_subset_again_changes_nothing_witness :
  _AddValues
    (mkPolicy [mkRule None None None None;
               mkRule cond_C None None (Some (mkValues ["B"; "Z"; "A"] []))])
    add_A
  = Ok (mkPolicy [mkRule None None None None;
                  mkRule cond_C None None (Some (mkValues ["B"; "Z"; "A"] []))]).
Proof.
  apply (add_subset_again_changes_nothing values_policy _ add_Z_A_B add_A).
  - vm_compute. reflexivity.
  - reflexivity.
  - intros v Hv. apply list_elem_of_singleton in Hv as ->. by_computation.
Defined.

(** X11.  Allowing all forgets what was done before under the condition:
    after any request that [UpdatePolicy] carries out, [_AllowAllValues] for
    the same condition returns what it returns on the policy before the
    request. *)
Theorem allow_all_forgets_earlier_request (policy changed : Policy)
    (args args' : Args) :
  UpdatePolicy policy args = Ok changed →
  arg_condition args' = arg_condition args →
  _AllowAllValues changed args' = _AllowAllValues policy args'.
Proof.
  intros Hok Hcond. apply UpdatePolicy_rules in Hok as [Hother _].
  rewrite !_AllowAllValues_eq, Hcond. by rewrite Hother.
Qed.

Lemma allow_all_forgets_earlier_request_witness :
  _AllowAllValues
    (mkPolicy [mkRule None None None None;
               mkRule cond_C None None (Some (mkValues ["B"; "A"] ["Z"]))])
    allow_all_C
  = _AllowAllValues values_policy allow_all_C.
Proof.
  apply (allow_all_forgets_earlier_request values_policy _ add_A allow_all_C).
  - vm_compute. reflexivity.
  - reflexivity.
Defined.

(** X12.  After all values have been allowed under a condition, a request
    to allow values, or all values, under that condition changes nothing:
    [UpdatePolicy] and [Run] return the policy they are given. *)
Theorem allow_all_absorbs_later_adds (policy allowed : Policy)
    (args args' : Args) :
  _AllowAllValues policy args = Ok allowed →
  arg_condition args' = arg_condition args →
  arg_remove args' = false →
  UpdatePolicy allowed args' = Ok allowed ∧ Run allowed args' = Ok allowed.
Proof.
  rewrite _AllowAllValues_eq. intros [= <-] Hcond Hremove.
  set (others := filter (λ r, condition r ≠ arg_condition args) (rules policy)).
  assert (UpdatePolicy (mkPolicy (others ++ [allow_all_rule (arg_condition args)]))
            args'
          = Ok (mkPolicy (others ++ [allow_all_rule (arg_condition args)])))
    as Hupdate.
  { unfold UpdatePolicy. rewrite Hremove.
    destruct (arg_value args') as [|v vs] eqn:Hvalue.
    { rewrite _AllowAllValues_eq, Hcond. cbn [rules]. unfold others.
      by rewrite non_matching_after_allow_all. }
    assert (Forall (settled Denied (arg_value args') (arg_condition args'))
              (others ++ [allow_all_rule (arg_condition args)])) as Hsettled.
    { apply Forall_app. split.
      - apply Forall_forall. intros r [Hc _]%list_elem_of_filter Hc'.
        by rewrite Hcond in Hc'.
      - constructor; [|constructor]. by intros _. }
    pose proof (RemoveDeniedValuesFromPolicy_fixed (mkPolicy _) args' Hsettled)
      as Hfix.
    assert (GetMatchingRulesFromPolicy
              (mkPolicy (others ++ [allow_all_rule (arg_condition args)]))
              (arg_condition args')
            = [allow_all_rule (arg_condition args)]) as Hmatching.
    { unfold GetMatchingRulesFromPolicy. cbn [rules]. rewrite Hcond.
      apply matching_after_allow_all. }
    destruct (decide (_GetMissingAllowedValuesFromRules
                        (GetMatchingRulesFromPolicy
                           (RemoveDeniedValuesFromPolicy
                              (mkPolicy
                                 (others ++ [allow_all_rule (arg_condition args)]))
                              args')
                           (arg_condition args'))
                        (arg_value args') = [])) as [Hm|Hm].
    - rewrite _AddValues_nothing_missing by done. by rewrite Hfix.
    - rewrite _AddValues_scan; [|done|]; rewrite Hfix, Hmatching; done. }
  split; [done|]. unfold Run. by rewrite Hremove, andb_false_r.
Qed.

Lemma allow_all_absorbs_later_adds_witness :
  Run (mkPolicy [mkRule None None None None; allow_all_rule cond_C]) add_A
  = Ok (mkPolicy [mkRule None None None None; allow_all_rule cond_C]).
Proof.
  apply (allow_all_absorbs_later_adds values_policy _ allow_all_C add_A).
  - vm_compute. reflexivity.
  - reflexivity.
  - reflexivity.
Defined.

(** X13.  Allowing all under two different conditions, one after the
    other: the policy keeps the rules for neither condition, followed by
    the rule that allows all for the first condition and the one for the
    second; the second request leaves the rule of the first in place. *)
Theorem allow_all_two_conditions (policy first second : Policy)
    (args1 args2 : Args) :
  arg_condition args1 ≠ arg_condition args2 →
  _AllowAllValues policy args1 = Ok first →
  _AllowAllValues first args2 = Ok second →
  rules second
  = filter (λ r, condition r ≠ arg_condition args1 ∧
                 condition r ≠ arg_condition args2) (rules policy)
    ++ [allow_all_rule (arg_condition args1);
        allow_all_rule (arg_condition args2)] ∧
  rules_for (arg_condition args1) second
  = [allow_all_rule (arg_condition args1)] ∧
  rules_for (arg_condition args2) second
  = [allow_all_rule (arg_condition args2)].
Proof.
  intros Hne. rewrite _AllowAllValues_eq. intros [= <-].
  rewrite _AllowAllValues_eq. intros [= <-]. cbn [rules].
  assert (filter (λ r, condition r ≠ arg_condition args2)
            (filter (λ r, condition r ≠ arg_condition args1) (rules policy)
             ++ [allow_all_rule (arg_condition args1)])
          = filter (λ r, condition r ≠ arg_condition args1 ∧
                         condition r ≠ arg_condition args2) (rules policy)
            ++ [allow_all_rule (arg_condition args1)]) as Heq.
  { rewrite filter_app, filter_cons_True by done.
    rewrite list_filter_filter. f_equal. apply list_filter_iff. tauto. }
  rewrite Heq. split; [by rewrite <- app_assoc|]. unfold rules_for. cbn [rules].
  split.
  - rewrite !filter_app.
    rewrite (filter_none _ (filter _ _));
      [|intros r [[Hc _] _]%list_elem_of_filter; done].
    rewrite filter_cons_True by done.
    by rewrite filter_cons_False by (cbn; congruence).
  - rewrite !filter_app.
    rewrite (filter_none _ (filter _ _));
      [|intros r [[_ Hc] _]%list_elem_of_filter; done].
    rewrite filter_cons_False by done.
    by rewrite filter_cons_True.
Qed.

Lemma allow_all_two_conditions_witness :
  rules (mkPolicy [mkRule None None None None;
                   allow_all_rule cond_C; allow_all_rule cond_D])
  = filter (λ r, condition r ≠ cond_C ∧ condition r ≠ cond_D)
      (rules values_policy)
    ++ [allow_all_rule cond_C; allow_all_rule cond_D].
Proof.
  apply (allow_all_two_conditions values_policy
           (mkPolicy [mkRule None None None None; allow_all_rule cond_C])
           _ allow_all_C allow_all_D).
  - discriminate.
  - vm_compute. reflexivity.
  - vm_compute. reflexivity.
Defined.

(** ** When a request is refused *)

(** The removal of the denied values keeps a rule that denies all. *)
Lemma RemoveDeniedValuesFromPolicy_deny_all (policy : Policy) (args : Args) :
  deny_all_under (arg_condition args) policy →
  deny_all_under (arg_condition args) (RemoveDeniedValuesFromPolicy policy args).
Proof.
  intros (r & Hr & Hc & Hdeny).
  exists (remove_values_from_rule Denied (arg_value args) r).
  rewrite remove_values_from_rule_condition, remove_values_from_rule_denyAll.
  split; [|done]. apply remove_workflow_keeps; [done..|].
  destruct (dead_rule _) eqn:Hdead; [|done].
  apply dead_rule_flags in Hdead as [_ Hdead].
  rewrite remove_values_from_rule_denyAll in Hdead. congruence.
Qed.

(** A value that the policy does not allow under the condition is missing
    after the removal of the denied values, and the other way round. *)
Lemma missing_iff_not_allowed (policy : Policy) (args : Args) (v : string) :
  v ∈ _GetMissingAllowedValuesFromRules
        (GetMatchingRulesFromPolicy (RemoveDeniedValuesFromPolicy policy args)
           (arg_condition args))
        (arg_value args) ↔
  v ∈ arg_value args ∧ ¬ allowed_under (arg_condition args) policy v.
Proof.
  rewrite elem_of_missing, elem_of_concat_allowed.
  split; intros [Hv Hnot]; (split; [done|]).
  - intros (r & Hr & Hc & Hin). apply Hnot.
    destruct (RemoveDeniedValuesFromPolicy_allowed policy args r v Hr Hin)
      as (r1 & Hr1 & Hc1 & Hin1).
    exists r1. split; [|done]. apply elem_of_matching. split; [done|].
    congruence.
  - intros (r1 & [Hr1 Hc1]%elem_of_matching & Hin1). apply Hnot.
    apply RemoveDeniedValuesFromPolicy_origin in Hr1
      as (r0 & Hr0 & Hc0 & _ & _ & Ha & _).
    exists r0. split; [done|]. split; [congruence|]. by rewrite <- Ha.
Qed.

(** X14.  The two ways in which [Run] fails.  It raises
    [InvalidInputError] for a removal without values and for nothing else;
    it raises [OperationNotSupportedError] only for a request to add
    values, some of them not yet allowed under the condition, to a policy
    that has a rule denying all for the condition.  For a policy without a
    rule allowing all for the condition that is also enough: such a request
    is refused. *)
Theorem Run_errors (policy : Policy) (args : Args) :
  (∀ e, Run policy args = Raise e →
     e = InvalidInputError ∧ arg_value args = [] ∧ arg_remove args = true ∨
     e = OperationNotSupportedError ∧
     arg_value args ≠ [] ∧ arg_remove args = false ∧
     deny_all_under (arg_condition args) policy ∧
     ∃ v, v ∈ arg_value args ∧ ¬ allowed_under (arg_condition args) policy v) ∧
  (arg_value args ≠ [] → arg_remove args = false →
   deny_all_under (arg_condition args) policy →
   ¬ allow_all_under (arg_condition args) policy →
   (∃ v, v ∈ arg_value args ∧ ¬ allowed_under (arg_condition args) policy v) →
   Run policy args = Raise OperationNotSupportedError).
Proof.
  split.
  - intros e. unfold Run, UpdatePolicy.
    destruct (arg_value args) as [|x xs] eqn:Hvalue;
      destruct (arg_remove args) eqn:Hremove;
      rewrite ?bool_decide_eq_true_2, ?bool_decide_eq_false_2 by done;
      cbn [andb].
    + intros [= <-]. by left.
    + by rewrite _AllowAllValues_eq.
    + done.
    + intros Hraise. right.
      destruct (_AddValues_outcome policy args)
        as [[Heq _]|[(_ & _ & Heq)|[(Hm & Hscan & Heq)|
            (_ & pre & target & suf & _ & _ & _ & Heq)]]];
        rewrite Heq in Hraise; try discriminate. injection Hraise as <-.
      split; [done|]. split; [done|]. split; [done|]. split.
      * apply scan_rules_RaiseNotSupported_elem in Hscan as (r & Hr & Hdeny).
        apply elem_of_matching in Hr as [Hr Hc].
        apply RemoveDeniedValuesFromPolicy_origin in Hr
          as (r0 & Hr0 & Hc0 & _ & Hd & _).
        exists r0. split; [done|]. split; congruence.
      * destruct (_GetMissingAllowedValuesFromRules _ _) as [|v m] eqn:Hmissing;
          [done|].
        exists v. rewrite <- Hvalue. apply missing_iff_not_allowed.
        rewrite Hmissing. left.
  - intros Hvalue Hremove Hdeny Hallow (v & Hv & Hnot).
    rewrite Run_add by done.
    assert (v ∈ _GetMissingAllowedValuesFromRules
                  (GetMatchingRulesFromPolicy
                     (RemoveDeniedValuesFromPolicy policy args)
                     (arg_condition args))
                  (arg_value args)) as Hin
      by (by apply missing_iff_not_allowed).
    apply RemoveDeniedValuesFromPolicy_deny_all in Hdeny
      as (r & Hr & Hc & Hdeny).
    assert (r ∈ GetMatchingRulesFromPolicy
                  (RemoveDeniedValuesFromPolicy policy args)
                  (arg_condition args)) as Hmatch
      by (by apply elem_of_matching).
    rewrite _AddValues_scan.
    + destruct (scan_rules _) eqn:Hscan; [|done|].
      * apply scan_rules_ReturnAsIs_elem in Hscan as (r1 & Hr1 & Hall).
        apply elem_of_matching in Hr1 as [Hr1 Hc1].
        apply RemoveDeniedValuesFromPolicy_origin in Hr1
          as (r0 & Hr0 & Hc0 & Ha0 & _).
        destruct Hallow. exists r0. split; [done|]. split; congruence.
      * apply scan_rules_no_flags in Hscan.
        rewrite Forall_forall in Hscan. by destruct (Hscan r Hmatch).
    + intros Hnil. rewrite Hnil in Hin. by apply elem_of_nil in Hin.
    + intros Hnil. rewrite Hnil in Hmatch. by apply elem_of_nil in Hmatch.
Qed.

Lemma Run_errors_witness :
  Run covered_deny (mkArgs ["A"; "B"] false cond_C)
  = Raise OperationNotSupportedError.
Proof.
  apply (Run_errors covered_deny (mkArgs ["A"; "B"] false cond_C)).
  - discriminate.
  - reflexivity.
  - exists deny_all_rule. split; [by_computation|]. split; reflexivity.
  - intros (r & Hr & _ & Hall). unfold covered_deny in Hr. cbn [rules] in Hr.
    apply elem_of_cons in Hr as [->|Hr]; [discriminate|].
    apply list_elem_of_singleton in Hr as ->. discriminate.
  - exists "B". split; [by_computation|].
    intros (r & Hr & _ & Hin). unfold covered_deny in Hr. cbn [rules] in Hr.
    apply elem_of_cons in Hr as [->|Hr].
    + revert Hin. by_computation.
    + apply list_elem_of_singleton in Hr as ->. revert Hin. by_computation.
Defined.

(** ** The run on objects *)

(** X15.  The run on objects is explained by the run on values.  From a
    store in which the policy object is a tree that reads as the policy
    [P], whatever [Run] returns is an object that reads as the policy that
    the run on values returns for [P], again a tree; whatever it raises is
    the exception that the run on values raises; and it never fails on a
    reference. *)
Theorem Run_on_objects (σ : Store.store) (policy : Store.loc) (P : Policy)
    (args : Args) :
  Store.represents σ policy P →
  ∃ res σ', Store.Run policy args σ = (res, σ') ∧
    (∀ q, res = inl q →
          ∃ P', Run P args = Ok P' ∧ Store.represents σ' q P') ∧
    (∀ x, res = inr x →
          ∃ e, x = Store.Command e ∧ Run P args = Raise e) ∧
    res ≠ inr Store.BadReference.
Proof.
  intros Hrep.
  destruct (Run_simulation σ policy P args Hrep)
    as (res & σ' & Heq & _ & _ & Hres).
  exists res, σ'. split; [done|].
  destruct (Run P args) as [P'|e].
  - destruct Hres as (q & -> & Hq & _). split; [|split; [done|done]].
    intros q' [= <-]. by exists P'.
  - subst res. split; [done|]. split; [|done].
    intros x [= <-]. by exists e.
Qed.

Lemma Run_on_objects_witness :
  ∃ res σ', Store.Run 3 add_A values_store = (res, σ') ∧
    (∀ q, res = inl q →
          ∃ P', Run values_policy add_A = Ok P' ∧ Store.represents σ' q P') ∧
    (∀ x, res = inr x →
          ∃ e, x = Store.Command e ∧ Run values_policy add_A = Raise e) ∧
    res ≠ inr Store.BadReference.
Proof.
  apply (Run_on_objects values_store 3 values_policy add_A).
  split; [reflexivity|by_computation].
Defined.

(** * Dead rules *)





